(** * Spatial indices of the boids neighbour search

    A shallow embedding of the spatial indexing layer of the repository:

    - [BinLattice] (main.cpp): the fixed lattice of fixed-capacity bins;
    - [Collection], [RTree] and [SpatialHashing] (geometry/spatial.hpp): the
      linear list, the R-tree wrapper and the hashed grid rebuilt by a
      counting sort;
    - the geometry they use ([Vector2], [Box]) and the predicate objects
      [Distance], [Contains] and [PassThrough];
    - [FpsCounter] (fps.hpp), the frame rate counter of the demonstration
      programs.

    Conventions of the embedding.

    - A C++ [float] is a rational ([Q]), and the arithmetic that the indices,
      the predicates and [Box] perform on it is rounded as IEEE 754 binary32
      rounds it: to the nearest value of the format, ties to even, with the
      subnormal numbers ([rnd]; binary64 inside [lengthSquared]), each
      operation on its own, without fused multiply-add.  The operators are
      [fadd], [fsub], [fmul] and [fdiv]; comparisons,
      [std::min], [std::max] and [std::floor] are exact on floats.  The
      format has no largest number here: infinities and NaN are not
      modelled, and where the divisor can be zero the function has no
      defined result ([BinLattice.indexOf], [FpsCounter.update]).  A theorem
      that needs its inputs to be values of the format says so with
      [is_float].
    - [Box::right], [Box::bottom], [merge], the zones of [Box::toroidal] and
      the position helpers of [Vector2] ([constrain], [toroidalWrap],
      [distanceSquared], [toroidal_distance2]), which are templates over the
      number type, and [FpsCounter] are written over exact numbers.
    - [size_t] is 64 bits wide.  Where the source relies on its wrap-around
      (the lattice query) the value is a [Z] reduced modulo [2^64]; counters
      and vector indices, which are bounded by a vector's size, are [nat].
    - A [std::vector] or [std::array] is a list; [operator[]] is unchecked in
      the source, so an access that can be out of range has an explicit
      [Undefined] outcome.  The accesses of [SpatialHashing::update] are
      always in range ([bucketOf_lt], [fillHashtable_spec]) and are written
      with the total list operations.
    - A [std::reference_wrapper<T const>] into [elements] is the index of the
      element it refers to; a [Boid*] is an address into a store of boids. *)

From Stdlib Require Import ZArith QArith Qround Qminmax Qabs Qpower Qreduction.
From Stdlib Require Import Lia Lqa List Bool Permutation.
From stdpp Require Import base list.

Local Open Scope nat_scope.

(** ** Numbers *)

(** A [float] value is a rational. *)
Definition float : Type := Q.

(** [a < b] on floats, as a boolean. *)
Definition Qltb (a b : Q) : bool := negb (Qle_bool b a).

(** *** Rounding *)

(** The nearest integer, the even one of two that are equally near. *)
Definition round_even (q : Q) : Z :=
  let f := Qfloor q in
  match (q - inject_Z f ?= 1 # 2)%Q with
  | Lt => f
  | Eq => if Z.even f then f else (f + 1)%Z
  | Gt => (f + 1)%Z
  end.

(** The binade of a positive rational: the [e] with [2^e <= q < 2^(e+1)]. *)
Definition binade (q : Q) : Z :=
  let e := (Z.log2 (Qnum q) - Z.log2 (Zpos (Qden q)))%Z in
  if Qle_bool (2 ^ e) q then e else (e - 1)%Z.

(** The exponent of the unit in the last place of [q], in a binary format of
    [prec] significant bits whose smallest positive number is [2^emin]. *)
Definition lastBit (prec emin : Z) (q : Q) : Z :=
  Z.max (binade (Qabs q) - (prec - 1)) emin.

(** Rounding to nearest, ties to even: the nearest multiple of the unit in
    the last place. *)
Definition rnd (prec emin : Z) (q : Q) : Q :=
  if Qeq_bool q 0 then 0
  else
    let e := lastBit prec emin q in
    Qred (inject_Z (round_even (q / 2 ^ e)) * 2 ^ e).

(** IEEE 754 binary32 ([float]) and binary64 ([double]). *)
Definition to_float (q : Q) : float := rnd 24 (-149) q.
Definition to_double (q : Q) : Q := rnd 53 (-1074) q.

(** The operators [+], [-], [*] and [/] on two [float] operands. *)
Definition fadd (a b : float) : float := to_float (a + b).
Definition fsub (a b : float) : float := to_float (a - b).
Definition fmul (a b : float) : float := to_float (a * b).
Definition fdiv (a b : float) : float := to_float (a / b).

(** The conversion of an integer to [float]. *)
Definition of_integer (z : Z) : float := to_float (inject_Z z).

(** Vocabulary of the statements (not in the source): the values of the
    format, [m * 2^e] with [|m| < 2^prec] and [emin <= e]. *)
Definition representable (prec emin : Z) (q : Q) : Prop :=
  exists m e : Z, (q == inject_Z m * 2 ^ e)%Q /\ (Z.abs m < 2 ^ prec)%Z /\ (emin <= e)%Z.
Definition is_float (q : Q) : Prop := representable 24 (-149) q.

(** [std::floor]. *)
Definition floor (q : float) : Z := Qfloor q.

(** The conversion of an integral [float] to [int].  Outside the range of
    [int] C++ leaves the conversion undefined; the value here is the one the
    conversion instruction of x86-64 returns, [INT_MIN]. *)
Definition to_int32 (z : Z) : Z :=
  if ((- 2 ^ 31 <=? z) && (z <? 2 ^ 31))%Z then z else (- 2 ^ 31)%Z.

(** Width of [size_t]. *)
Definition size_t_modulus : Z := 2 ^ 64.

(** Rounding towards zero, the value part of a float to integer conversion. *)
Definition truncate (q : float) : Z := Z.quot (Qnum q) (Zpos (Qden q)).

(** Reduction of an unsigned 32-bit result ([static_cast<uint>]). *)
Definition to_uint (z : Z) : Z := z mod 2 ^ 32.

(** ** Outcomes of operations on unchecked storage *)

(** The error kinds the specification names.  No function of the source
    raises any of them. *)
Inductive error : Type :=
| CapacityExceeded
| OutOfBounds
| InvalidConfiguration.

(** What an unchecked access can go wrong with. *)
Inductive fault : Type :=
| BadFloatToIndex      (* float to size_t conversion out of range *)
| LatticeOutOfRange    (* lattice[x][y] outside BINS x BINS *)
| BinOutOfRange        (* bin.first[i] with i >= BIN_SIZE *)
| ResultOutOfRange     (* result.first[count] with count >= MaxQuerySize *)
| BadBoidPointer       (* dereferencing nullptr or a dangling Boid* *)
| PivotOutOfRange      (* pivots[i] with i >= pivots.size() *)
| HashtableOutOfRange  (* hashtable[i] with i >= hashtable.size() *)
| ElementOutOfRange.   (* elements[i] with i >= elements.size() *)

Inductive outcome (A : Type) : Type :=
| Done (a : A)
| Raise (e : error)
| Undefined (f : fault).
Arguments Done {A} a.
Arguments Raise {A} e.
Arguments Undefined {A} f.

Definition obind {A B : Type} (m : outcome A) (k : A -> outcome B) : outcome B :=
  match m with
  | Done a => k a
  | Raise e => Raise e
  | Undefined f => Undefined f
  end.

(** An indexed read that is undefined with fault [f] when out of range. *)
Definition read {A : Type} (f : fault) (l : list A) (i : nat) : outcome A :=
  match l !! i with
  | Some a => Done a
  | None => Undefined f
  end.

(** Vocabulary of the statements (not in the source): two outcomes agree
    when they are the same error or the same fault, or results related by
    [R]. *)
Definition agree {A : Type} (R : A -> A -> Prop) (o1 o2 : outcome A) : Prop :=
  match o1, o2 with
  | Done a1, Done a2 => R a1 a2
  | Raise e1, Raise e2 => e1 = e2
  | Undefined f1, Undefined f2 => f1 = f2
  | _, _ => False
  end.

Declare Scope outcome_scope.
Delimit Scope outcome_scope with outcome.
Notation "'let*' a ':=' m 'in' k" := (obind m (fun a => k))
  (at level 10, a name, m at level 100, k at level 200) : outcome_scope.
Local Open Scope outcome_scope.

(** ** Geometry (geometry/vector2.hpp, geometry/box.hpp) *)

Record Vector2 (T : Type) : Type := mkVector2 { x : T; y : T }.
Arguments mkVector2 {T} x y.
Arguments x {T} _.
Arguments y {T} _.

Definition float2 : Type := Vector2 float.

(** Vocabulary of the statements (not in the source): both coordinates are
    [float] values. *)
Definition is_float2 (p : float2) : Prop := is_float (x p) /\ is_float (y p).
Definition Vector2f : Type := Vector2 float.
Definition int2 : Type := Vector2 Z.

(** [Vector2::operator-]. *)
Definition vsub (a b : float2) : float2 :=
  mkVector2 (fsub (x a) (x b)) (fsub (y a) (y b)).

(** [Vector2::operator+] on [int2]. *)
Definition iadd (a b : int2) : int2 :=
  mkVector2 (x a + x b)%Z (y a + y b)%Z.

(** [Vector2::lengthSquared]: the sum of the squares is computed in
    [double] and converted back. *)
Definition lengthSquared (v : float2) : float :=
  let x_large := to_double (x v) in
  let y_large := to_double (y v) in
  to_float (to_double (to_double (x_large * x_large) + to_double (y_large * y_large))).

Record Box : Type := mkBox { left : float; top : float; width : float; height : float }.
Arguments mkBox (left top width height)%_Q.
Definition Boxf : Type := Box.

Definition right (b : Box) : float := (left b + width b)%Q.
Definition bottom (b : Box) : float := (top b + height b)%Q.

(** [Box::contains]. *)
Definition contains (b : Box) (p : float2) : bool :=
  let minX := Qmin (left b) (fadd (left b) (width b)) in
  let maxX := Qmax (left b) (fadd (left b) (width b)) in
  let minY := Qmin (top b) (fadd (top b) (height b)) in
  let maxY := Qmax (top b) (fadd (top b) (height b)) in
  Qle_bool minX (x p) && Qltb (x p) maxX && Qle_bool minY (y p) && Qltb (y p) maxY.

(** Modelled from the spec: [Box::merge(point)], which the sources call from
    [updateBounds] and geometry/box.hpp as given does not define.  It is the
    bounding union of the specification: the smallest box that contains the
    box and the point. *)
Definition merge (b : Box) (p : float2) : Box :=
  let l := Qmin (left b) (x p) in
  let t := Qmin (top b) (y p) in
  let r := Qmax (right b) (x p) in
  let bt := Qmax (bottom b) (y p) in
  mkBox l t (r - l)%Q (bt - t)%Q.

(** [Box::operator==]. *)
Definition box_eqb (a b : Box) : bool :=
  Qeq_bool (left a) (left b) && Qeq_bool (top a) (top b)
  && Qeq_bool (width a) (width b) && Qeq_bool (height a) (height b).

(** *** The other members of [Box] (geometry/box.hpp) *)

Module BoxOps.

(** [Box(vector_type position, T size)]: [position] is the centre; the
    literal 2 is converted to [float]. *)
Definition square (position : float2) (size : float) : Box :=
  mkBox (fsub (x position) (fdiv size 2%Q)) (fsub (y position) (fdiv size 2%Q)) size size.


(** [intersection(box)]. *)
Definition intersection (a box : Box) : Box :=
  let minX := Qmin (left a) (fadd (left a) (width a)) in
  let maxX := Qmax (left a) (fadd (left a) (width a)) in
  let minY := Qmin (top a) (fadd (top a) (height a)) in
  let maxY := Qmax (top a) (fadd (top a) (height a)) in
  let minX2 := Qmin (left box) (fadd (left box) (width box)) in
  let maxX2 := Qmax (left box) (fadd (left box) (width box)) in
  let minY2 := Qmin (top box) (fadd (top box) (height box)) in
  let maxY2 := Qmax (top box) (fadd (top box) (height box)) in
  let newLeft := Qmax minX minX2 in
  let newTop := Qmax minY minY2 in
  let newWidth := fsub (Qmin maxX maxX2) newLeft in
  let newHeight := fsub (Qmin maxY maxY2) newTop in
  if Qltb newWidth 0 || Qltb newHeight 0 then mkBox 0 0 0 0
  else mkBox newLeft newTop newWidth newHeight.

(** Vocabulary of the statements (not in the source): a whole number of
    magnitude at most [bound], and a box whose four members are whole
    numbers of magnitude at most [2^22], as boxes in pixels are. *)
Definition integral (bound : Z) (q : Q) : Prop :=
  exists z : Z, (q == inject_Z z)%Q /\ (Z.abs z <= bound)%Z.
Definition integral_box (b : Box) : Prop :=
  integral (2 ^ 22) (left b) /\ integral (2 ^ 22) (top b)
  /\ integral (2 ^ 22) (width b) /\ integral (2 ^ 22) (height b).


End BoxOps.

(** *** The position helpers of [Vector2] (geometry/vector2.hpp) *)

Module Vector2Ops.

(** [distanceSquared(right)]. *)
Definition distanceSquared (v other : float2) : float :=
  let dx := (x v - x other)%Q in
  let dy := (y v - y other)%Q in
  (dx * dx + dy * dy)%Q.

(** [constrain(left, top, right, bottom)]: the four tests in sequence; the
    vector is returned by value. *)
Definition constrain (v : float2) (left top right bottom : float) : float2 :=
  let x1 := if Qltb (x v) left then left else x v in
  let x2 := if Qltb right x1 then right else x1 in
  let y1 := if Qltb (y v) top then top else y v in
  let y2 := if Qltb bottom y1 then bottom else y1 in
  mkVector2 x2 y2.


(** [toroidal_distance2(other, width, height)]. *)
Definition toroidal_distance2 (v other : float2) (width height : float) : float :=
  let dx := (x v - x other)%Q in
  let dy := (y v - y other)%Q in
  let dx := if Qltb (width / 2) dx then (width - dx)%Q else dx in
  let dy := if Qltb (height / 2) dy then (height - dy)%Q else dy in
  (dx * dx + dy * dy)%Q.
End Vector2Ops.

(** ** Elements *)

(** The element type [T] of every index only has to expose [position]. *)
Class Positioned (T : Type) : Type := position : T -> float2.

(** geometry/body.hpp *)
Record Body : Type := mkBody { body_position : float2; velocity : float2; mass : float }.
#[export] Instance Body_Positioned : Positioned Body := body_position.

(** [Body(position)] with the default velocity and mass. *)
Definition Body_at (px py : float) : Body :=
  mkBody (mkVector2 px py) (mkVector2 0%Q 0%Q) 1%Q.
Arguments Body_at (px py)%_Q.

(** ** Predicate objects (geometry/spatial.hpp) *)

Section Predicates.
Context {T : Type} `{Positioned T}.

(** [Distance<T>(search, radius)(el)]. *)
Definition Distance (search : Vector2f) (radius : float) (el : T) : bool :=
  Qltb (lengthSquared (vsub (position el) search)) (fmul radius radius).

(** [Contains<T>(box)(el)]. *)
Definition Contains (box : Boxf) (el : T) : bool := contains box (position el).

(** [PassThrough<T>()(el)]. *)
Definition PassThrough (el : T) : bool := true.

(** [Contains<T>(point, radius)(el)]: the constructor builds
    [Box(point, radius + radius)]. *)
Definition ContainsAround (point : Vector2f) (radius : float) (el : T) : bool :=
  Contains (BoxOps.square point (fadd radius radius)) el.
End Predicates.

(** ** SpatialHashing (geometry/spatial.hpp) *)

Module SpatialHashing.

(** In-class initialisers; nothing assigns them afterwards. *)
Definition cellSize : Z := 50.
Definition pivotTableSize : Z := 1000.

Record t (T : Type) : Type := mk {
  box : Boxf;
  elements : list T;
  shuffler : list nat;
  hashtable : list nat;
  pivots : list nat
}.
Arguments mk {T} box elements shuffler hashtable pivots.
Arguments box {T} _.
Arguments elements {T} _.
Arguments shuffler {T} _.
Arguments hashtable {T} _.
Arguments pivots {T} _.

(** [getCellCoordinates]: [cellSize] is converted to [float], and the floor
    of each quotient to [int]. *)
Definition getCellCoordinates (pos : float2) : int2 :=
  mkVector2 (to_int32 (floor (fdiv (x pos) (of_integer cellSize))))
            (to_int32 (floor (fdiv (y pos) (of_integer cellSize)))).

(** [hash]: each [int] product is converted to [uint], that is, taken modulo
    [2^32]; the exclusive or of the two is widened to [size_type]. *)
Definition hash (coord : int2) : Z :=
  let prime : int2 := mkVector2 15823%Z 9737333%Z in
  Z.lxor (to_uint (x coord * x prime)) (to_uint (y coord * y prime)).

(** [getCellIndex] (the branch that is compiled). *)
Definition getCellIndex (coord : int2) : nat :=
  Z.to_nat (hash coord mod pivotTableSize).

Section Ops.
Context {T : Type} `{Positioned T}.

(** The bucket an element is counted into: [nh] is [int2(0, 0)]. *)
Definition bucketOf (element : T) : nat :=
  let coord := getCellCoordinates (position element) in
  let nh : int2 := mkVector2 0%Z 0%Z in
  getCellIndex (iadd coord nh).

(** First loop of [update]: [pivots[getCellIndex(coord + nh)]++]. *)
Definition countUsage (els : list T) (pv : list nat) : list nat :=
  foldl (fun pv element => alter S (bucketOf element) pv) pv els.

(** Second loop of [update]: every pivot becomes the running start. *)
Fixpoint startIndices (start : nat) (pv : list nat) : list nat :=
  match pv with
  | [] => []
  | usage :: rest => start :: startIndices (start + usage) rest
  end.

(** Third loop of [update]: [index = pivots[..]++; hashtable[index] = i; ++i].
    The state is the pivots, the hashtable and the counter [i]. *)
Definition fillStep (acc : list nat * list nat * nat) (element : T)
  : list nat * list nat * nat :=
  let '(pv, ht, i) := acc in
  let index := pv !!! bucketOf element in
  (alter S (bucketOf element) pv, <[index := i]> ht, S i).

Definition fillHashtable (els : list T) (pv ht : list nat)
  : list nat * list nat * nat :=
  foldl fillStep (pv, ht, 0) els.

(** Last loop of [update]: [for (i = size - 1; i > 0; --i) pivots[i] = pivots[i - 1]]. *)
Fixpoint shiftRight (i : nat) (pv : list nat) : list nat :=
  match i with
  | 0 => pv
  | S j => shiftRight j (<[S j := pv !!! j]> pv)
  end.

(** [pivots.push_back(pivots.back())], the shift, and [pivots[0] = 0]. *)
Definition reposition (pv : list nat) : list nat :=
  let pv := pv ++ [List.last pv 0] in
  <[0 := 0]> (shiftRight (length pv - 1) pv).

(** [SpatialHashing(width, height)]. *)
Definition create (w h : Z) : t T :=
  mk (mkBox 0%Q 0%Q (inject_Z w) (inject_Z h)) [] [] [] [].

(** [updateBounds]. *)
Definition updateBounds (s : t T) (el : T) : t T :=
  mk (merge (box s) (position el)) (elements s) (shuffler s) (hashtable s) (pivots s).

(** [insert]. *)
Definition insert (data : T) (s : t T) : t T :=
  updateBounds
    (mk (box s) (elements s ++ [data]) (shuffler s) (hashtable s) (pivots s)) data.

(** [clear]. *)
Definition clear (s : t T) : t T :=
  mk (box s) [] (shuffler s) (hashtable s) (pivots s).

(** [update].  [shuffle] stands for what [std::shuffle] does to the index
    vector with the generator drawn from [std::random_device]; the shuffled
    [shuffler] is stored and never read. *)
Definition update (shuffle : list nat -> list nat) (s : t T) : t T :=
  let n := length (elements s) in
  let pv0 := replicate (Z.to_nat pivotTableSize) 0 in
  let pv1 := countUsage (elements s) pv0 in
  let pv2 := startIndices 0 pv1 in
  let sh := shuffle (seq 0 n) in
  let ht0 := replicate n 0 in
  let '(pv3, ht, _) := fillHashtable (elements s) pv2 ht0 in
  mk (box s) (elements s) sh ht (reposition pv3).

(** [size]. *)
Definition size (s : t T) : nat := length (elements s).

(** [bounds]. *)
Definition bounds (s : t T) : Boxf := box s.

(** The loop of [query]: [fuel] is the number of indices left in
    [[i, end)]. *)
Fixpoint queryLoop (s : t T) (pred : T -> bool) (maxClosest : nat)
    (fuel i count : nat) (result : list nat) : outcome (list nat) :=
  match fuel with
  | 0 => Done result
  | S fuel' =>
      if maxClosest <=? count then Done result
      else
        let* h := read HashtableOutOfRange (hashtable s) i in
        let* e := read ElementOutOfRange (elements s) h in
        queryLoop s pred maxClosest fuel' (S i) (S count)
          (if pred e then result ++ [h] else result)
  end.

(** [query(element, pred, maxClosest)]. *)
Definition query (s : t T) (element : T) (pred : T -> bool)
    (maxClosest : nat) : outcome (list nat) :=
  let pivot_index := getCellIndex (getCellCoordinates (position element)) in
  let* start := read PivotOutOfRange (pivots s) pivot_index in
  let* end_ := read PivotOutOfRange (pivots s) (pivot_index + 1) in
  queryLoop s pred maxClosest (end_ - start) start 0 [].
End Ops.

(** *** Vocabulary of the statements (not in the source) *)

(** Number of keys equal to [b], and number of keys below [b]. *)
Definition cnt (b : nat) (ks : list nat) : nat := length (filter (λ k, k = b) ks).
Definition below (b : nat) (ks : list nat) : nat := length (filter (λ k, k < b) ks).

(** Where a counting sort puts the [j]-th key: after the keys of smaller
    buckets and after the earlier keys of its own bucket. *)
Definition slot (ks : list nat) (j : nat) : nat :=
  match ks !! j with
  | Some b => below b ks + cnt b (take j ks)
  | None => 0
  end.

(** Number of buckets. *)
Definition tableSize : nat := Z.to_nat pivotTableSize.

Section Vocabulary.
Context {T : Type} `{Positioned T}.

(** The bucket of every element, in insertion order. *)
Definition keysOf (els : list T) : list nat := map bucketOf els.

(** [pred(elements[h])], false where [h] refers to no element. *)
Definition matches (s : t T) (pred : T -> bool) (h : nat) : bool :=
  from_option pred false (elements s !! h).

(** The slots [hashtable[pivots[b] .. pivots[b + 1] - 1]] of bucket [b]. *)
Definition bucketSlots (s : t T) (b : nat) : list nat :=
  match pivots s !! b, pivots s !! (b + 1) with
  | Some lo, Some hi => take (hi - lo) (drop lo (hashtable s))
  | _, _ => []
  end.

(** The elements the slots of bucket [b] refer to. *)
Definition bucket (s : t T) (b : nat) : list T :=
  omap (λ h, elements s !! h) (bucketSlots s b).

(** How many of the current elements hash to bucket [b]. *)
Definition population (s : t T) (b : nat) : nat :=
  cnt b (keysOf (elements s)).

(** [for (e : P) insert(e)]. *)
Definition insertAll (P : list T) (s : t T) : t T :=
  foldl (fun s e => insert e s) s P.

(** The indices of the elements of [els] that hash to bucket [b], in
    increasing order. *)
Definition bucketIndices (els : list T) (b : nat) : list nat :=
  filter (λ j, keysOf els !! j = Some b) (seq 0 (length els)).
End Vocabulary.
End SpatialHashing.

(** ** Collection (geometry/spatial.hpp) *)

Module Collection.

Record t (T : Type) : Type := mk { box : Boxf; elements : list T }.
Arguments mk {T} box elements.
Arguments box {T} _.
Arguments elements {T} _.

Section Ops.
Context {T : Type} `{Positioned T}.

(** [Collection()]. *)
Definition create : t T := mk (mkBox 0%Q 0%Q 0%Q 0%Q) [].

(** [updateBounds]. *)
Definition updateBounds (s : t T) (el : T) : t T :=
  mk (merge (box s) (position el)) (elements s).

(** [insert]. *)
Definition insert (data : T) (s : t T) : t T :=
  updateBounds (mk (box s) (elements s ++ [data])) data.

(** [clear]. *)
Definition clear (s : t T) : t T := mk (box s) [].

(** [rebuild]. *)
Definition rebuild (s : t T) : t T := s.

(** [size]. *)
Definition size (s : t T) : nat := length (elements s).

(** [bounds]. *)
Definition bounds (s : t T) : Boxf := box s.

(** The loop of [query] over the elements from index [i] on. *)
Fixpoint queryLoop (pred : T -> bool) (maxClosest : nat) (els : list T)
    (i count : nat) (result : list nat) : list nat :=
  match els with
  | [] => result
  | element :: rest =>
      if pred element then
        if maxClosest <=? count then result
        else queryLoop pred maxClosest rest (S i) (S count) (result ++ [i])
      else queryLoop pred maxClosest rest (S i) count result
  end.

(** [query(pred, maxClosest)]. *)
Definition query (s : t T) (pred : T -> bool) (maxClosest : nat) : list nat :=
  queryLoop pred maxClosest (elements s) 0 0 [].

(** Vocabulary of the statements (not in the source): the references to
    the elements of [els] that satisfy [pred], in order, [i] being the
    index of the first one. *)
Fixpoint matchIndices (pred : T -> bool) (els : list T) (i : nat) : list nat :=
  match els with
  | [] => []
  | e :: rest =>
      if pred e then i :: matchIndices pred rest (S i)
      else matchIndices pred rest (S i)
  end.

(** [for (e : P) insert(e)]. *)
Definition insertAll (P : list T) (s : t T) : t T :=
  foldl (fun s e => insert e s) s P.

(** The loop of [query(Boxf range, maxClosest)], the range overload of the
    earlier revision of the header, over the elements from index [i] on. *)
Fixpoint queryRangeLoop (range : Boxf) (maxClosest : nat) (els : list T)
    (i count : nat) (result : list nat) : list nat :=
  match els with
  | [] => result
  | element :: rest =>
      if contains range (position element) then
        if maxClosest <=? count then result
        else queryRangeLoop range maxClosest rest (S i) (S count) (result ++ [i])
      else queryRangeLoop range maxClosest rest (S i) count result
  end.

(** [query(range, maxClosest)]. *)
Definition queryRange (s : t T) (range : Boxf) (maxClosest : nat) : list nat :=
  queryRangeLoop range maxClosest (elements s) 0 0 [].
End Ops.
End Collection.

(** ** RTree (geometry/spatial.hpp) *)

Module RTree.

(** The [bgi::rtree] member is Boost's; it is represented by the values it
    holds. *)
Record t (T : Type) : Type := mk { rtree : list T }.
Arguments mk {T} rtree.
Arguments rtree {T} _.

Section Ops.
Context {T : Type} `{Positioned T}.

Definition create : t T := mk [].

(** [insert]. *)
Definition insert (data : T) (s : t T) : t T := mk (rtree s ++ [data]).

(** [clear]. *)
Definition clear (s : t T) : t T := mk [].

(** [rebuild]. *)
Definition rebuild (s : t T) : t T := s.

(** [size]. *)
Definition size (s : t T) : nat := length (rtree s).

(** [bounds]. *)
Definition bounds (s : t T) : Boxf := mkBox 0%Q 0%Q 0%Q 0%Q.
End Ops.
End RTree.

(** ** The exact bounding box of a set of points *)

(** The smallest axis-aligned box containing [p] and every point of [ps]:
    its corners are the componentwise minimum and maximum. *)
Definition boundingBox (p : float2) (ps : list float2) : Box :=
  let l := foldl (fun m q => Qmin m (x q)) (x p) ps in
  let t := foldl (fun m q => Qmin m (y q)) (y p) ps in
  let r := foldl (fun m q => Qmax m (x q)) (x p) ps in
  let b := foldl (fun m q => Qmax m (y q)) (y p) ps in
  mkBox l t (r - l)%Q (b - t)%Q.

(** ** BinLattice (main.cpp) *)

Module BinLattice.

Record Boid : Type := mkBoid { boid_position : float2 }.
#[export] Instance Boid_Positioned : Positioned Boid := boid_position.

(** A [Boid*]: [None] is [nullptr], [Some a] points to the boid at
    address [a] of the store. *)
Abbreviation BoidPtr := (option nat).

(** [std::pair<std::array<Boid*, BIN_SIZE>, size_t>]. *)
Record Bin : Type := mkBin { first : list BoidPtr; second : nat }.

(** [std::array<std::array<Bin, BINS>, BINS>]. *)
Abbreviation Lattice := (list (list Bin)).

(** [*ptr] in the store [boids]. *)
Definition deref (boids : list Boid) (ptr : BoidPtr) : outcome Boid :=
  match ptr with
  | Some a => read BadBoidPointer boids a
  | None => Undefined BadBoidPointer
  end.

(** [static_cast<size_t>(f)]: defined when the truncated value fits. *)
Definition to_size_t (f : float) : outcome Z :=
  if Qltb (-1) f && Qltb f (inject_Z size_t_modulus) then Done (truncate f)
  else Undefined BadFloatToIndex.

(** [static_cast<size_t>(coordinate / size)] for a cell size [size] of type
    [size_t]: the size is converted to [float] and the quotient is rounded.
    With a cell size of zero the quotient is an infinity or not a number, and
    its conversion is undefined. *)
Definition indexOf (coordinate : float) (size : Z) : outcome Z :=
  if (size =? 0)%Z then Undefined BadFloatToIndex
  else to_size_t (fdiv coordinate (of_integer size)).

(** [std::clamp(v, lo, hi)]. *)
Definition clamp (v lo hi : Z) : Z :=
  if (v <? lo)%Z then lo else if (hi <? v)%Z then hi else v.

(** A loop whose body can be undefined. *)
Fixpoint forEach {A S : Type} (l : list A) (body : S -> A -> outcome S) (s : S)
  : outcome S :=
  match l with
  | [] => Done s
  | a :: l' => let* s' := body s a in forEach l' body s'
  end.

(** Vocabulary of the statements (not in the source): the bin of the cell
    [(i, j)], if the lattice has one. *)
Definition binOf (lattice : Lattice) (i j : nat) : option Bin :=
  match lattice !! i with
  | Some row => row !! j
  | None => None
  end.

Section Template.
(** [template<size_t WIDTH, size_t HEIGHT, size_t BINS, size_t BIN_SIZE>] *)
Variables WIDTH HEIGHT BINS BIN_SIZE : Z.

Definition MaxQuerySize : Z := BIN_SIZE * 9.

(** [BinLattice()]. *)
Definition create : Lattice :=
  replicate (Z.to_nat BINS)
    (replicate (Z.to_nat BINS) (mkBin (replicate (Z.to_nat BIN_SIZE) None) 0)).

(** [static_cast<size_t>(position.x / (WIDTH / BINS))]. *)
Definition xIndexOf (position : float2) : outcome Z :=
  indexOf (x position) (WIDTH / BINS).

Definition yIndexOf (position : float2) : outcome Z :=
  indexOf (y position) (HEIGHT / BINS).

(** [lattice[xIndex][yIndex]]. *)
Definition binAt (lattice : Lattice) (xIndex yIndex : Z) : outcome Bin :=
  let* row := read LatticeOutOfRange lattice (Z.to_nat xIndex) in
  read LatticeOutOfRange row (Z.to_nat yIndex).

(** [addBoid].  The source performs no test: the write
    [bin.first[bin.second++] = boid] is undefined outside the array. *)
Definition addBoid (boids : list Boid) (boid : BoidPtr) (lattice : Lattice)
  : outcome Lattice :=
  let* b := deref boids boid in
  let* xIndex := xIndexOf (position b) in
  let* yIndex := yIndexOf (position b) in
  let* row := read LatticeOutOfRange lattice (Z.to_nat xIndex) in
  let* bin := read LatticeOutOfRange row (Z.to_nat yIndex) in
  if second bin <? length (first bin) then
    let bin' := mkBin (<[second bin := boid]> (first bin)) (S (second bin)) in
    Done (<[Z.to_nat xIndex := <[Z.to_nat yIndex := bin']> row]> lattice)
  else Undefined BinOutOfRange.

(** [clear]. *)
Definition clear (lattice : Lattice) : Lattice :=
  map (map (fun bin => mkBin (first bin) 0)) lattice.

(** [std::clamp(index + d, 0ul, BINS - 1)]: the sum is a [size_t]. *)
Definition neighbour (index d : Z) : Z :=
  clamp ((index + d) mod size_t_modulus) 0 ((BINS - 1) mod size_t_modulus).

(** The cells the two nested loops of [query] visit, in order. *)
Definition scannedCells (xIndex yIndex : Z) : list (Z * Z) :=
  dx ← [-1; 0; 1]%Z;
  dy ← [-1; 0; 1]%Z;
  [(neighbour xIndex dx, neighbour yIndex dy)].

(** The innermost loop of [query], over the slots [i .. bin.second - 1]. *)
Fixpoint scanBin (boids : list Boid) (position : float2) (radiusSquared : float)
    (bin : Bin) (fuel i : nat) (result : list BoidPtr) : outcome (list BoidPtr) :=
  match fuel with
  | 0 => Done result
  | S fuel' =>
      let* ptr := read BinOutOfRange (first bin) i in
      let* b := deref boids ptr in
      let distX := fsub (x (boid_position b)) (x position) in
      let distY := fsub (y (boid_position b)) (y position) in
      if Qltb (fadd (fmul distX distX) (fmul distY distY)) radiusSquared then
        if (Z.of_nat (length result) <? MaxQuerySize)%Z then
          scanBin boids position radiusSquared bin fuel' (S i) (result ++ [ptr])
        else Undefined ResultOutOfRange
      else scanBin boids position radiusSquared bin fuel' (S i) result
  end.

(** [query]: the result is [result.first[0 .. result.second - 1]]. *)
Definition query (boids : list Boid) (lattice : Lattice) (position : float2)
    (radius : float) : outcome (list BoidPtr) :=
  let radiusSquared := fmul radius radius in
  let* xIndex := xIndexOf position in
  let* yIndex := yIndexOf position in
  forEach (scannedCells xIndex yIndex)
    (fun result cell =>
       let* bin := binAt lattice (fst cell) (snd cell) in
       scanBin boids position radiusSquared bin (second bin) 0 result)
    [].

(** The frame loop of main.cpp, [for (auto& boid : boids)
    binLattice.addBoid(&boid)], over the boids at the addresses [addrs]. *)
Definition addBoids (boids : list Boid) (addrs : list nat) (lattice : Lattice)
  : outcome Lattice :=
  forEach addrs (fun l a => addBoid boids (Some a) l) lattice.

(** Vocabulary of the statements (not in the source): what holds of a
    lattice into which the boids at the addresses [0 .. n - 1] have been
    added.  It is [BINS] by [BINS]; every bin is an array of [BIN_SIZE] slots
    of which the first [second] are in use; a slot in use of the bin of cell
    [(i, j)] points to a boid whose position maps to [(i, j)]; and each of
    the [n] boids is in a slot in use of the bin its position maps to. *)
Record wellFormed (boids : list Boid) (n : nat) (lattice : Lattice) : Prop := {
  wf_rows : length lattice = Z.to_nat BINS;
  wf_cols : forall i row, lattice !! i = Some row -> length row = Z.to_nat BINS;
  wf_cap : forall i j bin, binOf lattice i j = Some bin ->
    length (first bin) = Z.to_nat BIN_SIZE /\ second bin <= length (first bin);
  wf_sound : forall i j bin k ptr,
    binOf lattice i j = Some bin -> k < second bin -> first bin !! k = Some ptr ->
    exists a b, ptr = Some a /\ a < n /\ boids !! a = Some b
      /\ xIndexOf (position b) = Done (Z.of_nat i)
      /\ yIndexOf (position b) = Done (Z.of_nat j);
  wf_complete : forall a, a < n ->
    exists b i j bin k, boids !! a = Some b
      /\ xIndexOf (position b) = Done (Z.of_nat i)
      /\ yIndexOf (position b) = Done (Z.of_nat j)
      /\ binOf lattice i j = Some bin /\ k < second bin
      /\ first bin !! k = Some (Some a)
}.
End Template.

(** *** Vocabulary of the statements (not in the source) *)

(** The test of the innermost loop of [query] on one slot: the pointer can be
    dereferenced and its boid is closer to [position] than the radius. *)
Definition within (boids : list Boid) (position : float2) (radiusSquared : float)
    (ptr : BoidPtr) : bool :=
  match deref boids ptr with
  | Done b =>
      let distX := fsub (x (boid_position b)) (x position) in
      let distY := fsub (y (boid_position b)) (y position) in
      Qltb (fadd (fmul distX distX) (fmul distY distY)) radiusSquared
  | _ => false
  end.

(** What the scan of one cell contributes to a query: the pointers in use in
    its bin that pass the test. *)
Definition scanCell (boids : list Boid) (lattice : Lattice) (position : float2)
    (radiusSquared : float) (cell : Z * Z) : list BoidPtr :=
  match binOf lattice (Z.to_nat (fst cell)) (Z.to_nat (snd cell)) with
  | Some bin => List.filter (within boids position radiusSquared)
                  (take (second bin) (first bin))
  | None => []
  end.

(** The pointers the lattice holds: the slots in use of every bin, row by
    row. *)
Definition slotsInUse (lattice : Lattice) : list BoidPtr :=
  row ← lattice; bin ← row; take (second bin) (first bin).

(** The cell a boid's position maps to, when both conversions are defined. *)
Definition cellOf (WIDTH HEIGHT BINS : Z) (b : Boid) : option (Z * Z) :=
  match xIndexOf WIDTH BINS (position b), yIndexOf HEIGHT BINS (position b) with
  | Done i, Done j => Some (i, j)
  | _, _ => None
  end.

(** How many boids of the store map to the cell [(i, j)]. *)
Definition cellCount (WIDTH HEIGHT BINS : Z) (boids : list Boid) (i j : Z) : nat :=
  length (filter (λ b, cellOf WIDTH HEIGHT BINS b = Some (i, j)) boids).

(** Two bins hold the same pointers in their slots in use, in arrays of the
    same size; two lattices do when their bins do, cell by cell. *)
Definition sameInUse (b1 b2 : Bin) : Prop :=
  second b1 = second b2
  /\ length (first b1) = length (first b2)
  /\ take (second b1) (first b1) = take (second b2) (first b2).
Definition sameLattice (l1 l2 : Lattice) : Prop :=
  Forall2 (Forall2 sameInUse) l1 l2.

(** The addresses of the boids of the store that pass the test of [query]. *)
Definition addressesWithin (boids : list Boid) (position : float2)
    (radiusSquared : float) : list nat :=
  List.filter (fun a => within boids position radiusSquared (Some a))
    (seq 0 (length boids)).

(** What the type [Lattice] guarantees of every value: [BINS] rows of [BINS]
    bins, each with an array of [BIN_SIZE] pointers. *)
Definition hasShape (BINS BIN_SIZE : Z) (lattice : Lattice) : bool :=
  (length lattice =? Z.to_nat BINS)
  && forallb (fun row : list Bin =>
                (length row =? Z.to_nat BINS)
                && forallb (fun bin => length (first bin) =? Z.to_nat BIN_SIZE) row)
       lattice.

(** One frame of main.cpp: [binLattice.clear();] followed by
    [for (auto& boid : boids) binLattice.addBoid(&boid);]. *)
Definition frame (WIDTH HEIGHT BINS : Z) (boids : list Boid) (lattice : Lattice)
  : outcome Lattice :=
  addBoids WIDTH HEIGHT BINS boids (seq 0 (length boids)) (clear lattice).
End BinLattice.

(** ** FpsCounter (fps.hpp) *)

Module FpsCounter.

(** [std::numeric_limits<float>::max()], that is [(2 - 2^-23) * 2^127]. *)
Definition float_max : float := inject_Z (2 ^ 128 - 2 ^ 104).

(** The members.  An [sf::Clock] is the time of its last restart; the time
    now is an input of the operations that read a clock. *)
Record t : Type := mk {
  clock : float;
  refreshClock : float;
  refresh_interval : float;
  fps_actual : float;
  fps_min : float;
  fps_max : float;
  fps_min_shadow : float;
  fps_max_shadow : float
}.
Arguments mk (clock refreshClock refresh_interval fps_actual fps_min fps_max
              fps_min_shadow fps_max_shadow)%_Q.

(** [FpsCounter(refresh_interval, cb)], constructed at the time [now]. *)
Definition create (now interval : float) : t :=
  mk now now interval 0 float_max 0 0 0.

(** [restart()] at the time [now]. *)
Definition restart (now : float) (s : t) : t :=
  mk now (refreshClock s) (refresh_interval s) (fps_actual s) (fps_min s) (fps_max s)
    (fps_min_shadow s) (fps_max_shadow s).

(** [resetMinMax()]. *)
Definition resetMinMax (s : t) : t :=
  mk (clock s) (refreshClock s) (refresh_interval s) (fps_actual s) float_max 0
    (fps_min_shadow s) (fps_max_shadow s).

(** [update()] at the time [now], which all the clock reads of the call
    see.  The result is the new state and, when the refresh interval has
    elapsed, the arguments [(min, current, max)] the callback is called
    with, if one is set.  There is no result when no time has elapsed on
    [clock]: the quotient is then an IEEE infinity, which the rationals do
    not have. *)
Definition update (now : float) (s : t) : option (t * option (float * float * float)) :=
  let elapsed := (now - clock s)%Q in
  if Qltb 0 elapsed then
    let actual := (1 / elapsed)%Q in
    let min := if Qltb actual (fps_min s) then actual else fps_min s in
    let max := if Qltb (fps_max s) actual then actual else fps_max s in
    let s1 := mk (clock s) (refreshClock s) (refresh_interval s) actual min max
                (fps_min_shadow s) (fps_max_shadow s) in
    if Qltb (refresh_interval s) (now - refreshClock s)%Q then
      let s2 := mk (clock s1) now (refresh_interval s1) (fps_actual s1)
                  (fps_min s1) (fps_max s1) (fps_min s1) (fps_max s1) in
      let s3 := resetMinMax s2 in
      Some (restart now s3, Some (fps_min_shadow s3, fps_actual s3, fps_max_shadow s3))
    else Some (restart now s1, None)
  else None.

(** The conversion of a float to [int]: rounding towards zero, defined when
    the result fits 32 bits. *)
Definition to_int (f : float) : option Z :=
  let z := truncate f in
  if ((- 2 ^ 31 <=? z) && (z <=? 2 ^ 31 - 1))%Z then Some z else None.

(** [getFps], [getFpsMin], [getFpsMax]. *)
Definition getFps (s : t) : option Z := to_int (fps_actual s).
Definition getFpsMin (s : t) : option Z := to_int (fps_min_shadow s).
Definition getFpsMax (s : t) : option Z := to_int (fps_max_shadow s).

(** Vocabulary of the statements (not in the source): one [update()] at
    each of the times, as the frame loop of the demonstration program makes
    them, with the calls of the callback in order. *)
Fixpoint run (times : list float) (s : t)
  : option (t * list (float * float * float)) :=
  match times with
  | [] => Some (s, [])
  | now :: rest =>
      match update now s with
      | Some (s', call) =>
          match run rest s' with
          | Some (s'', calls) => Some (s'', from_option (fun c => [c]) [] call ++ calls)
          | None => None
          end
      | None => None
      end
  end.

(** What every state reached from the constructor satisfies: the frame rates
    kept are not negative, and the minimum kept for the reports is at most
    the maximum kept for them. *)
Definition ordered (s : t) : Prop :=
  (0 < fps_min s)%Q /\ (0 <= fps_max s)%Q
  /\ (0 <= fps_min_shadow s)%Q /\ (fps_min_shadow s <= fps_max_shadow s)%Q.
End FpsCounter.

(** ** Concrete scenarios *)

Module Scenario.
Import BinLattice.

(** The instantiation of main.cpp:
    [BinLattice<WINDOW_WIDTH, WINDOW_HEIGHT, NUMBER_BINS, MAX_BOIDS_PER_BIN>]. *)
Definition WINDOW_WIDTH : Z := 1000.
Definition WINDOW_HEIGHT : Z := 1000.
Definition NUMBER_BINS : Z := 20.
Definition MAX_BOIDS_PER_BIN : Z := 100.

Definition emptyLattice : Lattice := create NUMBER_BINS MAX_BOIDS_PER_BIN.

(** [for (auto& boid : boids) binLattice.addBoid(&boid);] for the boids at
    the addresses [addrs]. *)
Definition fill (boids : list Boid) (addrs : list nat) (lattice : Lattice)
  : outcome Lattice :=
  addBoids WINDOW_WIDTH WINDOW_HEIGHT NUMBER_BINS boids addrs lattice.

(** One frame of main.cpp: every boid of the store is added to the cleared
    lattice, then the lattice is queried. *)
Definition queryAll (boids : list Boid) (position : float2) (radius : float)
  : outcome (list BoidPtr) :=
  let* l := fill boids (seq 0 (length boids)) emptyLattice in
  query WINDOW_WIDTH WINDOW_HEIGHT NUMBER_BINS MAX_BOIDS_PER_BIN boids l position radius.

Definition pt (px py : Z) : float2 := mkVector2 (inject_Z px) (inject_Z py).
Definition at_ (px py : Z) : Boid := mkBoid (pt px py).
Arguments pt (px py)%_Z.
Arguments at_ (px py)%_Z.

(** The lattice of main.cpp after the frame loop over the single boid at
    (500, 500). *)
Definition oneBoidLattice : Lattice :=
  Eval vm_compute in
    match fill [at_ 500 500] [0] emptyLattice with
    | Done l => l
    | _ => []
    end.

(** 101 boids on one spot: one more than a bin of main.cpp holds. *)
Definition crowd : list Boid := replicate 101 (at_ 500 500).

(** Two bodies in the cells (0, 10) and (5, 5), which are not adjacent and
    hash to the same bucket. *)
Definition collideA : Body := Body_at 25 525.
Definition collideB : Body := Body_at 275 275.

(** Two bodies in the cells (6, 17) and (19, 2), which hash to the same
    bucket, and a radius just below their distance: the squared radius is
    985000.036 and the squared distance 985000.039.  All five numbers are
    float values. *)
Definition tightA : Body := Body_at (10649599 # 32768) 875.
Definition tightB : Body := Body_at 975 125.
Definition tightRadius : float := 1016291 # 1024.

(** A spatial hash over the 1000 x 1000 window of src/main.cpp, filled with
    [P] and updated; the shuffle drawn is the identity. *)
Definition hashOf (P : list Body) : SpatialHashing.t Body :=
  SpatialHashing.update (fun l => l)
    (SpatialHashing.insertAll P (SpatialHashing.create 1000 1000)).

(** Two bodies of one cell; only the second lies within distance 1 of
    (12, 12). *)
Definition nearPair : list Body := [Body_at 10 10; Body_at 12 12].
Definition nearSecond : Body -> bool := Distance (mkVector2 12%Q 12%Q) 1%Q.

(** A linear collection filled with [P]. *)
Definition collectionOf (P : list Body) : Collection.t Body :=
  Collection.insertAll P Collection.create.

(** The lattice of main.cpp after the frame over the single boid at
    (615, 525), which is 90 away from (525, 525) and two columns over. *)
Definition farBoidLattice : Lattice :=
  Eval vm_compute in
    match frame WINDOW_WIDTH WINDOW_HEIGHT NUMBER_BINS [at_ 615 525] emptyLattice with
    | Done l => l
    | _ => []
    end.
End Scenario.

(** * Facts about the embedding *)

(** ** Numbers *)

Lemma Qltb_lt (a b : Q) : Qltb a b = true <-> (a < b)%Q.
Proof.
  unfold Qltb. rewrite negb_true_iff. split.
  - intros Hle. apply Qnot_le_lt. intros Hba. apply Qle_bool_iff in Hba. congruence.
  - intros Hlt. destruct (Qle_bool b a) eqn:Hle; [|reflexivity].
    apply Qle_bool_iff in Hle. exfalso. eapply Qlt_not_le; eassumption.
Qed.

Lemma Qltb_false (a b : Q) : Qltb a b = false <-> (b <= a)%Q.
Proof.
  unfold Qltb. rewrite negb_false_iff. apply Qle_bool_iff.
Qed.

(** Halving, written so that linear arithmetic sees it. *)
Ltac halves := unfold Qdiv in *; change (/ 2)%Q with (1 # 2)%Q in *.

(** Case analysis on a comparison of floats, with its meaning. *)
Ltac qcase a b :=
  let E := fresh "E" in
  let P := fresh "P" in
  destruct (Qltb a b) eqn:E;
  [ pose proof (proj1 (Qltb_lt a b) E) as P
  | pose proof (proj1 (Qltb_false a b) E) as P ].

(** The floor of a rational is the integer at or just below it. *)
Lemma Qfloor_iff (q : Q) (i : Z) :
  Qfloor q = i <-> (inject_Z i <= q)%Q /\ (q < inject_Z (i + 1))%Q.
Proof.
  split.
  - intros <-. split; [apply Qfloor_le|apply Qlt_floor].
  - intros [Hlo Hhi].
    pose proof (Qfloor_resp_le _ _ Hlo) as H1. rewrite Qfloor_Z in H1.
    pose proof (Qfloor_le q) as H2.
    assert (H3 : (inject_Z (Qfloor q) < inject_Z (i + 1))%Q) by lra.
    rewrite <- Zlt_Qlt in H3. lia.
Qed.

Lemma inject_Z_pos (w : Z) : (0 < w)%Z -> (0 < inject_Z w)%Q.
Proof. intros Hw. change 0%Q with (inject_Z 0). rewrite <- Zlt_Qlt. done. Qed.

(** Dividing by a positive cell size: the quotient lies between two integers
    exactly when the coordinate lies between their multiples. *)
Lemma Qdiv_cell (v : Q) (w a : Z) :
  (0 < w)%Z ->
  ((inject_Z a <= v / inject_Z w)%Q <-> (inject_Z (a * w) <= v)%Q)
  /\ ((v / inject_Z w < inject_Z a)%Q <-> (v < inject_Z (a * w))%Q).
Proof.
  intros Hw. pose proof (inject_Z_pos w Hw) as Hiw.
  assert (Hne : ~ (inject_Z w == 0)%Q) by lra.
  assert (Hv : (v == v / inject_Z w * inject_Z w)%Q) by (field; done).
  rewrite inject_Z_mult.
  set (q := (v / inject_Z w)%Q) in *. set (W := inject_Z w) in *. set (A := inject_Z a).
  split; split; intros H; nra.
Qed.

(** The conversion to [size_t] of a float above -1 is never negative. *)
Lemma truncate_nonneg (q : Q) : (-1 < q)%Q -> (0 <= truncate q)%Z.
Proof.
  destruct q as [n d]. unfold Qlt, truncate. simpl. intros Hq.
  destruct (Z_le_gt_dec 0 n) as [Hn|Hn].
  - apply Z.quot_pos; lia.
  - replace n with (- (- n))%Z by lia.
    rewrite Z.quot_opp_l by lia. rewrite Z.quot_small by lia. lia.
Qed.

Lemma truncate_floor (q : Q) : (0 <= q)%Q -> truncate q = Qfloor q.
Proof.
  destruct q as [n d]. unfold Qle, truncate, Qfloor. simpl. intros Hq.
  apply Z.quot_div_nonneg; lia.
Qed.

Lemma truncate_small_neg (q : Q) : (-1 < q)%Q -> (q < 0)%Q -> truncate q = 0%Z.
Proof.
  destruct q as [n d]. unfold Qlt, truncate. simpl. intros Hlo Hhi.
  replace n with (- (- n))%Z by lia.
  rewrite Z.quot_opp_l by lia. rewrite Z.quot_small by lia. lia.
Qed.

(** Above -1 the truncation is monotone, and moving by one cell size moves
    the index by at most one. *)
Lemma truncate_mono (p q : Q) : (-1 < p)%Q -> (p <= q)%Q -> (truncate p <= truncate q)%Z.
Proof.
  intros Hp Hpq.
  destruct (Qlt_le_dec p 0) as [Hneg|Hpos].
  - rewrite (truncate_small_neg p) by done.
    apply truncate_nonneg. eapply Qlt_le_trans; eassumption.
  - rewrite !truncate_floor by (done || eapply Qle_trans; eassumption).
    apply Qfloor_resp_le. done.
Qed.

(** ** Rounding in single and double precision *)

Module RoundingFacts.
Local Open Scope Q_scope.

(** ** Powers of two *)

Lemma pow2_pos (e : Z) : 0 < 2 ^ e.
Proof. apply Qpower_0_lt. reflexivity. Qed.

Lemma pow2_add (a b : Z) : 2 ^ (a + b) == 2 ^ a * 2 ^ b.
Proof. apply Qpower_plus. discriminate. Qed.

Lemma pow2_sub (a b : Z) : 2 ^ (a - b) == 2 ^ a / 2 ^ b.
Proof.
  unfold Z.sub. rewrite pow2_add, Qpower_opp. reflexivity.
Qed.

Lemma pow2_le (a b : Z) : (a <= b)%Z -> 2 ^ a <= 2 ^ b.
Proof. intros Hab. apply Qpower_le_compat_l; [done|discriminate]. Qed.

Lemma pow2_lt (a b : Z) : (a < b)%Z -> 2 ^ a < 2 ^ b.
Proof. intros Hab. apply Qpower_lt_compat_l; [done|reflexivity]. Qed.

Lemma pow2_lt_inv (a b : Z) : 2 ^ a < 2 ^ b -> (a < b)%Z.
Proof. intros Hab. eapply Qpower_lt_compat_l_inv; [exact Hab|reflexivity]. Qed.

Lemma pow2_le_inv (a b : Z) : 2 ^ a <= 2 ^ b -> (a <= b)%Z.
Proof. intros Hab. eapply Qpower_le_compat_l_inv; [exact Hab|reflexivity]. Qed.

Lemma pow2_inject (e : Z) : (0 <= e)%Z -> 2 ^ e == inject_Z (2 ^ e).
Proof. intros He. rewrite Zpower_Qpower by done. reflexivity. Qed.

Lemma pow2_succ (e : Z) : 2 ^ (e + 1) == 2 * 2 ^ e.
Proof. rewrite pow2_add. change (2 ^ 1) with 2. ring. Qed.

(** A quotient by a power of two, and back. *)
Lemma div_pow2_mul (q : Q) (e : Z) : q / 2 ^ e * 2 ^ e == q.
Proof. field. pose proof (pow2_pos e). lra. Qed.

Lemma mul_pow2_div (q : Q) (e : Z) : q * 2 ^ e / 2 ^ e == q.
Proof. field. pose proof (pow2_pos e). lra. Qed.

Lemma div_pow2_le (p q : Q) (e : Z) : p <= q -> p / 2 ^ e <= q / 2 ^ e.
Proof.
  intros Hpq. unfold Qdiv. apply Qmult_le_compat_r; [done|].
  apply Qlt_le_weak, Qinv_lt_0_compat, pow2_pos.
Qed.

Lemma div_pow2_lt (p q : Q) (e : Z) : p < q -> p / 2 ^ e < q / 2 ^ e.
Proof.
  intros Hpq. unfold Qdiv. apply Qmult_lt_compat_r; [|done].
  apply Qinv_lt_0_compat, pow2_pos.
Qed.

(** ** The binade of a positive rational *)

Lemma Zlog2_Q (n : Z) : (0 < n)%Z -> 2 ^ Z.log2 n <= inject_Z n < 2 ^ (Z.log2 n + 1).
Proof.
  intros Hn. pose proof (Z.log2_spec n Hn) as [Hlo Hhi].
  pose proof (Z.log2_nonneg n) as Hnn.
  rewrite !pow2_inject by lia. rewrite <- Zle_Qle, <- Zlt_Qlt.
  replace (Z.log2 n + 1)%Z with (Z.succ (Z.log2 n)) by lia. done.
Qed.

Lemma Qmake_lt (n : Z) (d : positive) (c : Q) :
  inject_Z n < c * inject_Z (Zpos d) -> n # d < c.
Proof.
  intros H. rewrite Qmake_Qdiv. apply Qlt_shift_div_r; [reflexivity|done].
Qed.

Lemma Qmake_ge (n : Z) (d : positive) (c : Q) :
  c * inject_Z (Zpos d) <= inject_Z n -> c <= n # d.
Proof.
  intros H. rewrite Qmake_Qdiv. apply Qle_shift_div_l; [reflexivity|done].
Qed.

Lemma binade_spec (q : Q) : 0 < q -> 2 ^ binade q <= q < 2 ^ (binade q + 1).
Proof.
  intros Hq. unfold binade.
  destruct q as [n d]. cbn [Qnum Qden].
  assert (Hn : (0 < n)%Z) by (unfold Qlt in Hq; simpl in Hq; lia).
  pose proof (Zlog2_Q n Hn) as [Hn1 Hn2].
  pose proof (Zlog2_Q (Zpos d) eq_refl) as [Hd1 Hd2].
  set (a := Z.log2 n) in *. set (b := Z.log2 (Z.pos d)) in *.
  pose proof (pow2_pos b) as Hb. pose proof (pow2_pos (a - b - 1)) as Hab1.
  pose proof (pow2_pos (a - b + 1)) as Hab2.
  assert (Hup : n # d < 2 ^ (a - b + 1)).
  { apply Qmake_lt.
    assert (He : 2 ^ (a + 1) == 2 ^ (a - b + 1) * 2 ^ b).
    { rewrite <- pow2_add. replace (a - b + 1 + b)%Z with (a + 1)%Z by lia. reflexivity. }
    rewrite He in Hn2. clear He.
    set (P := 2 ^ (a - b + 1)) in *. set (B := 2 ^ b) in *. set (D := inject_Z (Z.pos d)) in *.
    nra. }
  assert (Hlow : 2 ^ (a - b - 1) <= n # d).
  { apply Qmake_ge.
    assert (He : 2 ^ a == 2 ^ (a - b - 1) * 2 ^ (b + 1)).
    { rewrite <- pow2_add. replace (a - b - 1 + (b + 1))%Z with a by lia. reflexivity. }
    rewrite He in Hn1. clear He.
    set (P := 2 ^ (a - b - 1)) in *. set (B := 2 ^ (b + 1)) in *. set (D := inject_Z (Z.pos d)) in *.
    nra. }
  destruct (Qle_bool (2 ^ (a - b)) (n # d)) eqn:Hc.
  - apply Qle_bool_iff in Hc. split; done.
  - split; [done|].
    replace (a - b - 1 + 1)%Z with (a - b)%Z by lia.
    apply Qnot_le_lt. intros Hle. apply Qle_bool_iff in Hle. congruence.
Qed.

Lemma binade_unique (q : Q) (e : Z) : 2 ^ e <= q < 2 ^ (e + 1) -> binade q = e.
Proof.
  intros [Hlo Hhi].
  assert (Hq : 0 < q) by (pose proof (pow2_pos e); lra).
  destruct (binade_spec q Hq) as [Blo Bhi].
  assert (H1 : (binade q < e + 1)%Z) by (apply pow2_lt_inv; lra).
  assert (H2 : (e < binade q + 1)%Z) by (apply pow2_lt_inv; lra).
  lia.
Qed.

Lemma binade_proper (p q : Q) : 0 < p -> p == q -> binade p = binade q.
Proof.
  intros Hp Hpq.
  assert (H1 : p <= q) by (apply Qle_lteq; right; exact Hpq).
  assert (H2 : q <= p) by (apply Qle_lteq; right; symmetry; exact Hpq).
  apply binade_unique.
  destruct (binade_spec q ltac:(lra)) as [Hlo Hhi]. split; lra.
Qed.

Lemma binade_mono (p q : Q) : 0 < p -> p <= q -> (binade p <= binade q)%Z.
Proof.
  intros Hp Hpq.
  destruct (binade_spec p Hp) as [Plo Phi].
  destruct (binade_spec q ltac:(lra)) as [Qlo Qhi].
  assert (H : (binade p < binade q + 1)%Z) by (apply pow2_lt_inv; lra).
  lia.
Qed.

(** ** Rounding to an integer *)

Lemma round_even_cases (q : Q) :
  let f := Qfloor q in
  (q - inject_Z f < 1 # 2 /\ round_even q = f)
  \/ (q - inject_Z f == 1 # 2 /\ round_even q = (if Z.even f then f else f + 1)%Z)
  \/ (1 # 2 < q - inject_Z f /\ round_even q = (f + 1)%Z).
Proof.
  intros f. unfold round_even. fold f.
  destruct (q - inject_Z f ?= 1 # 2) eqn:Hc.
  - right. left. split; [apply Qeq_alt; done|done].
  - left. split; [apply Qlt_alt; done|done].
  - right. right. split; [apply Qgt_alt; done|done].
Qed.

Lemma floor_bounds (q : Q) : inject_Z (Qfloor q) <= q < inject_Z (Qfloor q) + 1.
Proof.
  split; [apply Qfloor_le|].
  pose proof (Qlt_floor q) as H. rewrite inject_Z_plus in H. exact H.
Qed.

(** The result is within one half of the argument. *)
Lemma round_even_near (q : Q) :
  inject_Z (round_even q) - (1 # 2) <= q <= inject_Z (round_even q) + (1 # 2).
Proof.
  pose proof (floor_bounds q) as [Hlo Hhi].
  destruct (round_even_cases q) as [[Hc ->]|[[Hc ->]|[Hc ->]]].
  - lra.
  - destruct (Z.even (Qfloor q)); [lra|].
    rewrite inject_Z_plus. change (inject_Z 1) with 1. lra.
  - rewrite inject_Z_plus. change (inject_Z 1) with 1. lra.
Qed.

Lemma floor_inject (z : Z) : Qfloor (inject_Z z) = z.
Proof. apply Qfloor_Z. Qed.

Lemma round_even_inject (z : Z) : round_even (inject_Z z) = z.
Proof.
  destruct (round_even_cases (inject_Z z)) as [[Hc ->]|[[Hc ->]|[Hc ->]]];
    rewrite floor_inject in *; [reflexivity|exfalso; lra|exfalso; lra].
Qed.

Lemma round_even_proper (p q : Q) : p == q -> round_even p = round_even q.
Proof.
  intros Hpq. unfold round_even.
  rewrite (Qfloor_comp _ _ Hpq).
  assert (Hc : (p - inject_Z (Qfloor q) ?= 1 # 2) = (q - inject_Z (Qfloor q) ?= 1 # 2)).
  { apply Qcompare_comp; [|reflexivity]. rewrite Hpq. reflexivity. }
  rewrite Hc. reflexivity.
Qed.

Lemma round_even_mono (p q : Q) : p <= q -> (round_even p <= round_even q)%Z.
Proof.
  intros Hpq.
  pose proof (floor_bounds p) as [Plo Phi]. pose proof (floor_bounds q) as [Qlo Qhi].
  pose proof (Qfloor_resp_le _ _ Hpq) as Hf.
  destruct (Z.eq_dec (Qfloor p) (Qfloor q)) as [Heq|Hne].
  - destruct (round_even_cases p) as [[Hc ->]|[[Hc ->]|[Hc ->]]];
    destruct (round_even_cases q) as [[Hd ->]|[[Hd ->]|[Hd ->]]];
    rewrite <- ?Heq in *; try lia; try (exfalso; lra);
    destruct (Z.even (Qfloor p)); lia.
  - assert (Hlt : (Qfloor p + 1 <= Qfloor q)%Z) by lia.
    destruct (round_even_cases p) as [[Hc ->]|[[Hc ->]|[Hc ->]]];
    destruct (round_even_cases q) as [[Hd ->]|[[Hd ->]|[Hd ->]]];
    try lia; repeat destruct (Z.even _); lia.
Qed.

(** Below the middle of two integers the result is at most the lower one,
    and above it at least the upper one. *)
Lemma round_even_below (q : Q) (n : Z) : q < inject_Z n - (1 # 2) -> (round_even q <= n - 1)%Z.
Proof.
  intros Hq. pose proof (round_even_near q) as [Hlo Hhi].
  assert (H : inject_Z (round_even q) < inject_Z n) by lra.
  rewrite <- Zlt_Qlt in H. lia.
Qed.

Lemma round_even_opp (q : Q) : round_even (- q) = (- round_even q)%Z.
Proof.
  pose proof (floor_bounds q) as [Plo Phi]. pose proof (floor_bounds (- q)) as [Nlo Nhi].
  assert (Hf : Qfloor (- q) = (- Qfloor q)%Z \/ Qfloor (- q) = (- Qfloor q - 1)%Z).
  { assert (H1 : inject_Z (Qfloor (- q)) < inject_Z (- Qfloor q + 1)).
    { rewrite inject_Z_plus, inject_Z_opp. change (inject_Z 1) with 1. lra. }
    assert (H2 : inject_Z (- (Qfloor q + 2)) < inject_Z (Qfloor (- q))).
    { rewrite inject_Z_opp, inject_Z_plus. change (inject_Z 2) with 2. lra. }
    rewrite <- Zlt_Qlt in H1, H2. lia. }
  destruct Hf as [Hf|Hf].
  - (* q is an integer *)
    assert (Hq : q == inject_Z (Qfloor q)).
    { rewrite Hf, inject_Z_opp in Nlo. lra. }
    rewrite (round_even_proper q _ Hq), round_even_inject.
    assert (Hq' : - q == inject_Z (- Qfloor q)) by (rewrite inject_Z_opp; lra).
    rewrite (round_even_proper (- q) _ Hq'), round_even_inject. reflexivity.
  - assert (He : Z.even (- Qfloor q - 1) = negb (Z.even (Qfloor q))).
    { replace (- Qfloor q - 1)%Z with (- (Qfloor q + 1))%Z by lia.
      rewrite Z.even_opp. replace (Qfloor q + 1)%Z with (Z.succ (Qfloor q)) by lia.
      rewrite Z.even_succ, <- Z.negb_even. reflexivity. }
    assert (Hi : inject_Z (Qfloor (- q)) == - inject_Z (Qfloor q) - 1).
    { rewrite Hf. unfold Z.sub. rewrite inject_Z_plus, inject_Z_opp. reflexivity. }
    change (inject_Z 1) with 1 in *.
    destruct (round_even_cases q) as [[Hc ->]|[[Hc ->]|[Hc ->]]];
    destruct (round_even_cases (- q)) as [[Hd ->]|[[Hd ->]|[Hd ->]]];
    try (exfalso; lra); rewrite ?Hf, ?He; try lia;
    destruct (Z.even (Qfloor q)); simpl; lia.
Qed.

(** ** Rounding in a binary format *)

Section Format.
Variables prec emin : Z.
Hypothesis prec_pos : (0 < prec)%Z.

Lemma rnd_zero : rnd prec emin 0 = 0.
Proof. reflexivity. Qed.

Lemma Qabs_pos_lt (q : Q) : ~ q == 0 -> 0 < Qabs q.
Proof.
  intros Hq. pose proof (Qabs_nonneg q) as Hn.
  destruct (Qlt_le_dec 0 (Qabs q)) as [|Hle]; [done|].
  exfalso. apply Hq. apply (proj1 (Qabs_Qle_condition q 0)) in Hle. lra.
Qed.

Lemma lastBit_proper (p q : Q) : ~ p == 0 -> p == q -> lastBit prec emin p = lastBit prec emin q.
Proof.
  intros Hp Hpq. unfold lastBit.
  rewrite (binade_proper (Qabs p) (Qabs q)); [reflexivity|apply Qabs_pos_lt; done|].
  apply Qabs_wd. done.
Qed.

Lemma rnd_unfold (q : Q) :
  ~ q == 0 ->
  rnd prec emin q
  == inject_Z (round_even (q / 2 ^ lastBit prec emin q)) * 2 ^ lastBit prec emin q.
Proof.
  intros Hq. unfold rnd.
  destruct (Qeq_bool q 0) eqn:Hz; [apply Qeq_bool_iff in Hz; contradiction|].
  cbv zeta. apply Qred_correct.
Qed.

Lemma rnd_proper (p q : Q) : p == q -> rnd prec emin p = rnd prec emin q.
Proof.
  intros Hpq. unfold rnd.
  destruct (Qeq_bool p 0) eqn:Hp; destruct (Qeq_bool q 0) eqn:Hq.
  - reflexivity.
  - apply Qeq_bool_iff in Hp. apply Qeq_bool_neq in Hq. exfalso. apply Hq. lra.
  - apply Qeq_bool_iff in Hq. apply Qeq_bool_neq in Hp. exfalso. apply Hp. lra.
  - apply Qeq_bool_neq in Hp. cbv zeta.
    rewrite (lastBit_proper p q Hp Hpq).
    apply Qred_complete.
    rewrite (round_even_proper (p / 2 ^ lastBit prec emin q) (q / 2 ^ lastBit prec emin q)).
    + reflexivity.
    + unfold Qdiv. apply Qmult_comp; [exact Hpq|reflexivity].
Qed.

(** The result does not cross a multiple of the unit in the last place. *)
Lemma rnd_le_grid (q : Q) (n : Z) :
  ~ q == 0 ->
  q <= inject_Z n * 2 ^ lastBit prec emin q ->
  rnd prec emin q <= inject_Z n * 2 ^ lastBit prec emin q.
Proof.
  intros Hq Hle. rewrite (rnd_unfold q Hq).
  set (s := lastBit prec emin q) in *. pose proof (pow2_pos s) as Hs.
  apply Qmult_le_compat_r; [|lra].
  rewrite <- Zle_Qle. rewrite <- (round_even_inject n).
  apply round_even_mono.
  apply Qle_shift_div_r; [done|]. done.
Qed.

Lemma rnd_ge_grid (q : Q) (n : Z) :
  ~ q == 0 ->
  inject_Z n * 2 ^ lastBit prec emin q <= q ->
  inject_Z n * 2 ^ lastBit prec emin q <= rnd prec emin q.
Proof.
  intros Hq Hle. rewrite (rnd_unfold q Hq).
  set (s := lastBit prec emin q) in *. pose proof (pow2_pos s) as Hs.
  apply Qmult_le_compat_r; [|lra].
  rewrite <- Zle_Qle. rewrite <- (round_even_inject n) at 1.
  apply round_even_mono.
  apply Qle_shift_div_l; [done|]. done.
Qed.

Lemma rnd_nonneg (q : Q) : 0 <= q -> 0 <= rnd prec emin q.
Proof.
  intros Hq. destruct (Qeq_dec q 0) as [Hz|Hz].
  - rewrite (rnd_proper q 0 Hz). apply Qle_refl.
  - pose proof (rnd_ge_grid q 0 Hz) as H.
    rewrite Qmult_0_l in H. apply H. done.
Qed.

Lemma lastBit_opp (q : Q) : lastBit prec emin (- q) = lastBit prec emin q.
Proof.
  unfold lastBit. destruct (Qeq_dec q 0) as [Hz|Hz].
  - assert (H : binade (Qabs (- q)) = binade (Qabs q)).
    { unfold binade, Qabs, Qopp. destruct q as [[|n|n] d]; simpl; reflexivity. }
    rewrite H. reflexivity.
  - rewrite (binade_proper (Qabs (- q)) (Qabs q)); [reflexivity| |apply Qabs_opp].
    apply Qabs_pos_lt. intros H. apply Hz. lra.
Qed.

Lemma rnd_opp (q : Q) : rnd prec emin (- q) == - rnd prec emin q.
Proof.
  destruct (Qeq_dec q 0) as [Hz|Hz].
  - rewrite (rnd_proper (- q) 0) by lra. rewrite (rnd_proper q 0 Hz). reflexivity.
  - assert (Hn : ~ - q == 0) by (intros H; apply Hz; lra).
    rewrite (rnd_unfold _ Hn), (rnd_unfold _ Hz), lastBit_opp.
    set (s := lastBit prec emin q).
    rewrite (round_even_proper (- q / 2 ^ s) (- (q / 2 ^ s))).
    + rewrite round_even_opp, inject_Z_opp. ring.
    + unfold Qdiv. ring.
Qed.

Lemma rnd_nonpos (q : Q) : q <= 0 -> rnd prec emin q <= 0.
Proof.
  intros Hq. pose proof (rnd_nonneg (- q) ltac:(lra)) as H.
  rewrite rnd_opp in H. lra.
Qed.

Lemma lastBit_pos (q : Q) :
  0 < q -> lastBit prec emin q = Z.max (binade q - (prec - 1)) emin.
Proof.
  intros Hq. unfold lastBit.
  rewrite (binade_proper (Qabs q) q); [reflexivity| |apply Qabs_pos; lra].
  rewrite Qabs_pos; lra.
Qed.

(** A power of two that is a multiple of the unit in the last place. *)
Lemma pow2_grid (t s : Z) : (s <= t)%Z -> 2 ^ t == inject_Z (2 ^ (t - s)) * 2 ^ s.
Proof.
  intros Hst. rewrite <- pow2_inject by lia. rewrite <- pow2_add.
  replace (t - s + s)%Z with t by lia. reflexivity.
Qed.

Lemma rnd_upper (q : Q) :
  0 < q -> rnd prec emin q <= 2 ^ Z.max (binade q + 1) (lastBit prec emin q).
Proof.
  intros Hq. destruct (binade_spec q Hq) as [_ Hhi].
  set (s := lastBit prec emin q). set (t := Z.max (binade q + 1) s).
  rewrite (pow2_grid t s) by lia.
  apply rnd_le_grid; [lra|]. fold s.
  rewrite <- (pow2_grid t s) by lia.
  pose proof (pow2_le (binade q + 1) t ltac:(lia)). lra.
Qed.

Lemma rnd_lower (q : Q) :
  0 < q -> (lastBit prec emin q <= binade q)%Z -> 2 ^ binade q <= rnd prec emin q.
Proof.
  intros Hq Hs. destruct (binade_spec q Hq) as [Hlo _].
  rewrite (pow2_grid (binade q) (lastBit prec emin q)) by lia.
  apply rnd_ge_grid; [lra|].
  rewrite <- (pow2_grid (binade q) (lastBit prec emin q)) by lia. done.
Qed.

Lemma rnd_mono_pos (p q : Q) : 0 < p -> p <= q -> rnd prec emin p <= rnd prec emin q.
Proof.
  intros Hp Hpq. assert (Hq : 0 < q) by lra.
  pose proof (binade_mono p q Hp Hpq) as Hb.
  pose proof (lastBit_pos p Hp) as Sp. pose proof (lastBit_pos q Hq) as Sq.
  destruct (Z.eq_dec (lastBit prec emin p) (lastBit prec emin q)) as [Heq|Hne].
  - rewrite (rnd_unfold p) by lra. rewrite (rnd_unfold q) by lra. rewrite Heq.
    pose proof (pow2_pos (lastBit prec emin q)) as Hs.
    apply Qmult_le_compat_r; [|lra].
    rewrite <- Zle_Qle. apply round_even_mono. apply div_pow2_le. done.
  - assert (Hlt : (lastBit prec emin p < lastBit prec emin q)%Z) by lia.
    eapply Qle_trans; [apply rnd_upper; done|].
    eapply Qle_trans; [|apply rnd_lower; [done|lia]].
    apply pow2_le. lia.
Qed.

(** Rounding is monotone. *)
Lemma rnd_mono (p q : Q) : p <= q -> rnd prec emin p <= rnd prec emin q.
Proof.
  intros Hpq.
  destruct (Qlt_le_dec 0 p) as [Hp|Hp]; [apply rnd_mono_pos; done|].
  destruct (Qlt_le_dec q 0) as [Hq|Hq].
  - pose proof (rnd_mono_pos (- q) (- p) ltac:(lra) ltac:(lra)) as H.
    rewrite !rnd_opp in H. lra.
  - pose proof (rnd_nonpos p Hp). pose proof (rnd_nonneg q Hq). lra.
Qed.
End Format.

(** ** The values of a format *)

Lemma inject_Z_abs (m : Z) : Qabs (inject_Z m) == inject_Z (Z.abs m).
Proof. unfold Qabs, inject_Z. reflexivity. Qed.

Lemma Qabs_pow2 (e : Z) : Qabs (2 ^ e) == 2 ^ e.
Proof. apply Qabs_pos. apply Qlt_le_weak, pow2_pos. Qed.

Lemma Qabs_grid (m e : Z) : Qabs (inject_Z m * 2 ^ e) == inject_Z (Z.abs m) * 2 ^ e.
Proof. rewrite Qabs_Qmult, inject_Z_abs, Qabs_pow2. reflexivity. Qed.

Lemma representable_weaken (p1 e1 p2 e2 : Z) (q : Q) :
  (p1 <= p2)%Z -> (e2 <= e1)%Z -> (0 <= p1)%Z ->
  representable p1 e1 q -> representable p2 e2 q.
Proof.
  intros Hp He H0 (m & e & Hq & Hm & Hle). exists m, e. split; [done|]. split; [|lia].
  pose proof (Z.pow_le_mono_r 2 p1 p2 ltac:(lia) Hp). lia.
Qed.

Lemma representable_opp (prec emin : Z) (q : Q) :
  representable prec emin q -> representable prec emin (- q).
Proof.
  intros (m & e & Hq & Hm & Hle). exists (- m)%Z, e. split; [|split; [lia|done]].
  rewrite inject_Z_opp, Hq. ring.
Qed.

Lemma representable_proper (prec emin : Z) (p q : Q) :
  p == q -> representable prec emin p -> representable prec emin q.
Proof.
  intros Hpq (m & e & Hq & Hm & Hle). exists m, e. split; [|done].
  rewrite <- Hpq. done.
Qed.

Lemma representable_mul (p1 e1 p2 e2 : Z) (a b : Q) :
  (0 <= p1)%Z -> (0 <= p2)%Z ->
  representable p1 e1 a -> representable p2 e2 b ->
  representable (p1 + p2) (e1 + e2) (a * b).
Proof.
  intros H1 H2 (m & e & Ha & Hm & He) (n & f & Hb & Hn & Hf).
  exists (m * n)%Z, (e + f)%Z. split; [|split; [|lia]].
  - rewrite Ha, Hb, inject_Z_mult, pow2_add. ring.
  - rewrite Z.abs_mul, Z.pow_add_r by lia.
    apply Z.mul_lt_mono_nonneg; lia.
Qed.

(** A multiple of [2^emin] below [2^(emin + prec)] is a value of the
    format. *)
Lemma representable_multiple (prec emin : Z) (k : Z) (q : Q) :
  q == inject_Z k * 2 ^ emin -> Qabs q < 2 ^ (emin + prec) -> (0 <= prec)%Z ->
  representable prec emin q.
Proof.
  intros Hq Hlt Hp. exists k, emin. split; [done|]. split; [|lia].
  assert (H : Qabs q == inject_Z (Z.abs k) * 2 ^ emin).
  { transitivity (Qabs (inject_Z k * 2 ^ emin)); [apply Qabs_wd; done|apply Qabs_grid]. }
  rewrite H, pow2_add in Hlt.
  pose proof (pow2_pos emin) as He.
  assert (Hk : inject_Z (Z.abs k) < 2 ^ prec).
  { destruct (Qlt_le_dec (inject_Z (Z.abs k)) (2 ^ prec)) as [|Hge]; [done|].
    exfalso. set (K := inject_Z (Z.abs k)) in *. set (P := 2 ^ prec) in *.
    set (E := 2 ^ emin) in *. nra. }
  rewrite pow2_inject in Hk by done. rewrite <- Zlt_Qlt in Hk. done.
Qed.

(** Every value of the format is a multiple of [2^emin]. *)
Lemma representable_grid (prec emin : Z) (q : Q) :
  representable prec emin q -> exists k : Z, q == inject_Z k * 2 ^ emin.
Proof.
  intros (m & e & Hq & Hm & He). exists (m * 2 ^ (e - emin))%Z.
  rewrite Hq, inject_Z_mult, <- pow2_inject by lia.
  rewrite <- Qmult_assoc, <- pow2_add. replace (e - emin + emin)%Z with e by lia. reflexivity.
Qed.

Lemma representable_sub_small (prec emin : Z) (a b : Q) :
  (0 <= prec)%Z ->
  representable prec emin a -> representable prec emin b ->
  Qabs (a - b) < 2 ^ (emin + prec) -> representable prec emin (a - b).
Proof.
  intros Hp Ha Hb Hlt.
  destruct (representable_grid _ _ _ Ha) as [ka Hka].
  destruct (representable_grid _ _ _ Hb) as [kb Hkb].
  apply (representable_multiple prec emin (ka - kb)); [|done|done].
  unfold Z.sub. rewrite inject_Z_plus, inject_Z_opp, Hka, Hkb. ring.
Qed.

Lemma representable_inject (prec emin : Z) (z : Z) :
  (Z.abs z < 2 ^ prec)%Z -> (emin <= 0)%Z -> representable prec emin (inject_Z z).
Proof.
  intros Hz He. exists z, 0%Z. split; [|done]. change (2 ^ 0) with 1. ring.
Qed.

Section FormatValues.
Variables prec emin : Z.
Hypothesis prec_pos : (0 < prec)%Z.

(** The magnitude of a value of the format tells where its last bit is. *)
Lemma representable_lastBit (q : Q) (m e : Z) :
  ~ q == 0 -> q == inject_Z m * 2 ^ e -> (Z.abs m < 2 ^ prec)%Z -> (emin <= e)%Z ->
  (lastBit prec emin q <= e)%Z.
Proof.
  intros Hz Hq Hm He. unfold lastBit.
  pose proof (Qabs_pos_lt q Hz) as Hpos.
  destruct (binade_spec (Qabs q) Hpos) as [Hlo _].
  assert (Habs : Qabs q == inject_Z (Z.abs m) * 2 ^ e).
  { transitivity (Qabs (inject_Z m * 2 ^ e)); [apply Qabs_wd; done|apply Qabs_grid]. }
  assert (Hlt : Qabs q < 2 ^ (prec + e)).
  { rewrite Habs, pow2_add. apply Qmult_lt_compat_r; [apply pow2_pos|].
    rewrite pow2_inject by lia. rewrite <- Zlt_Qlt. done. }
  assert (Hb : (binade (Qabs q) < prec + e)%Z) by (apply pow2_lt_inv; lra).
  lia.
Qed.

(** Rounding leaves the values of the format as they are. *)
Lemma rnd_id (q : Q) : representable prec emin q -> rnd prec emin q == q.
Proof.
  intros (m & e & Hq & Hm & He).
  destruct (Qeq_dec q 0) as [Hz|Hz].
  - rewrite (rnd_proper prec emin q 0 Hz). rewrite Hz. reflexivity.
  - pose proof (representable_lastBit q m e Hz Hq Hm He) as Hs.
    rewrite (rnd_unfold prec emin q Hz).
    set (s := lastBit prec emin q) in *.
    assert (Hdiv : q / 2 ^ s == inject_Z (m * 2 ^ (e - s))).
    { rewrite Hq, inject_Z_mult, <- pow2_inject by lia.
      replace e with (e - s + s)%Z at 1 by lia. rewrite pow2_add.
      field. pose proof (pow2_pos s). lra. }
    rewrite (round_even_proper _ _ Hdiv), round_even_inject.
    rewrite <- Hdiv. apply div_pow2_mul.
Qed.

(** The result of rounding is a value of the format. *)
Lemma rnd_representable (q : Q) : representable prec emin (rnd prec emin q).
Proof.
  destruct (Qeq_dec q 0) as [Hz|Hz].
  - rewrite (rnd_proper prec emin q 0 Hz). exists 0%Z, emin.
    split; [rewrite rnd_zero; ring|]. split; [|lia].
    apply Z.pow_pos_nonneg; lia.
  - pose proof (Qabs_pos_lt q Hz) as Hpos.
    destruct (binade_spec (Qabs q) Hpos) as [_ Hhi].
    set (s := lastBit prec emin q).
    assert (Hs : (binade (Qabs q) + 1 - prec <= s)%Z) by (unfold s, lastBit; lia).
    assert (Hse : (emin <= s)%Z) by (unfold s, lastBit; lia).
    pose proof (pow2_pos s) as Hps.
    assert (Hbound : Qabs q <= inject_Z (2 ^ prec) * 2 ^ s).
    { rewrite <- pow2_inject by lia. rewrite <- pow2_add.
      pose proof (pow2_le (binade (Qabs q) + 1) (prec + s) ltac:(lia)). lra. }
    assert (Hup : rnd prec emin q <= inject_Z (2 ^ prec) * 2 ^ s).
    { apply rnd_le_grid; [done|]. pose proof (Qle_Qabs q). fold s. lra. }
    assert (Hdown : inject_Z (- 2 ^ prec) * 2 ^ s <= rnd prec emin q).
    { apply rnd_ge_grid; [done|]. fold s. rewrite inject_Z_opp.
      pose proof (Qle_Qabs (- q)) as H. rewrite Qabs_opp in H. lra. }
    rewrite (rnd_unfold prec emin q Hz) in Hup, Hdown. fold s in Hup, Hdown.
    apply (representable_proper _ _ (inject_Z (round_even (q / 2 ^ s)) * 2 ^ s));
      [symmetry; apply rnd_unfold; done|].
    set (m := round_even (q / 2 ^ s)) in *.
    assert (Hm : (- 2 ^ prec <= m <= 2 ^ prec)%Z).
    { split; rewrite Zle_Qle.
      - apply (Qmult_le_r _ _ (2 ^ s) Hps). done.
      - apply (Qmult_le_r _ _ (2 ^ s) Hps). done. }
    assert (Hpow : (2 ^ prec = 2 * 2 ^ (prec - 1))%Z).
    { rewrite <- Z.pow_succ_r by lia. f_equal. lia. }
    assert (Hpp : (0 < 2 ^ (prec - 1))%Z) by (apply Z.pow_pos_nonneg; lia).
    destruct (Z.eq_dec m (2 ^ prec)%Z) as [Htop|Htop];
      [|destruct (Z.eq_dec m (- 2 ^ prec)%Z) as [Hbot|Hbot]].
    + exists (2 ^ (prec - 1))%Z, (s + 1)%Z. split; [|split; [lia|lia]].
      rewrite Htop, Hpow, inject_Z_mult, pow2_succ. change (inject_Z 2) with 2. ring.
    + exists (- 2 ^ (prec - 1))%Z, (s + 1)%Z. split; [|split; [lia|lia]].
      rewrite Hbot, Hpow, !inject_Z_opp, inject_Z_mult, pow2_succ.
      change (inject_Z 2) with 2. ring.
    + exists m, s. split; [reflexivity|]. split; [lia|done].
Qed.

(** The result is within half a unit in the last place. *)
Lemma rnd_error (q : Q) :
  ~ q == 0 ->
  rnd prec emin q - 2 ^ lastBit prec emin q * (1 # 2) <= q
  /\ q <= rnd prec emin q + 2 ^ lastBit prec emin q * (1 # 2).
Proof.
  intros Hz. rewrite (rnd_unfold prec emin q Hz).
  set (s := lastBit prec emin q). pose proof (pow2_pos s) as Hs.
  pose proof (round_even_near (q / 2 ^ s)) as [Hlo Hhi].
  pose proof (div_pow2_mul q s) as Hq.
  set (t := q / 2 ^ s) in *. set (m := inject_Z (round_even t)) in *.
  set (P := 2 ^ s) in *. split; nra.
Qed.

(** In the normal range the error is at most the fraction [2^-prec] of the
    value. *)
Lemma rnd_rel_error (q : Q) :
  2 ^ (emin + prec - 1) <= q ->
  q * (1 - 2 ^ (- prec)) <= rnd prec emin q /\ rnd prec emin q <= q * (1 + 2 ^ (- prec)).
Proof.
  intros Hq. pose proof (pow2_pos (emin + prec - 1)) as Hpe.
  assert (Hpos : 0 < q) by lra.
  destruct (binade_spec q Hpos) as [Hlo Hhi].
  assert (Hb : (emin + prec - 1 <= binade q)%Z).
  { assert (H : (emin + prec - 1 < binade q + 1)%Z) by (apply pow2_lt_inv; lra). lia. }
  destruct (rnd_error q ltac:(lra)) as [E1 E2].
  rewrite (lastBit_pos prec emin q Hpos) in E1, E2.
  replace (Z.max (binade q - (prec - 1)) emin) with (binade q + 1 + - prec)%Z in E1, E2 by lia.
  rewrite pow2_add, pow2_succ in E1, E2.
  pose proof (pow2_pos (- prec)) as Hp.
  set (B := 2 ^ binade q) in *. set (P := 2 ^ (- prec)) in *.
  set (r := rnd prec emin q) in *.
  split; nra.
Qed.
End FormatValues.

(** ** Single and double precision *)

Lemma to_float_mono (p q : Q) : p <= q -> to_float p <= to_float q.
Proof. apply rnd_mono. done. Qed.


Lemma to_float_id (q : Q) : is_float q -> to_float q == q.
Proof. apply rnd_id. done. Qed.

Lemma to_float_is_float (q : Q) : is_float (to_float q).
Proof. apply rnd_representable. done. Qed.
End RoundingFacts.

(** ** The distance test in floating point *)

Module DistanceFacts.
Import RoundingFacts.
Local Open Scope Q_scope.

(** A value of the format that is not zero is at least the smallest positive
    number of the format. *)
Lemma representable_least (prec emin : Z) (q : Q) :
  representable prec emin q -> ~ q == 0 -> 2 ^ emin <= Qabs q.
Proof.
  intros Hr Hz. destruct (representable_grid _ _ _ Hr) as [k Hk].
  assert (Habs : Qabs q == inject_Z (Z.abs k) * 2 ^ emin).
  { transitivity (Qabs (inject_Z k * 2 ^ emin)); [apply Qabs_wd; done|apply Qabs_grid]. }
  rewrite Habs. pose proof (pow2_pos emin) as He.
  assert (Hk1 : (1 <= Z.abs k)%Z).
  { destruct (Z.eq_dec k 0%Z) as [->|]; [|lia]. exfalso. apply Hz. rewrite Hk. ring. }
  rewrite Zle_Qle in Hk1. change (inject_Z 1) with 1 in Hk1.
  set (K := inject_Z (Z.abs k)) in *. set (E := 2 ^ emin) in *. nra.
Qed.

(** The difference of two floats is rounded by at most the fraction [2^-24]
    of its value: a difference in the subnormal range is exact. *)
Lemma fsub_error (a b : Q) :
  is_float a -> is_float b ->
  Qabs (a - b) * (1 - 2 ^ (-24)) <= Qabs (fsub a b).
Proof.
  intros Ha Hb. unfold fsub, to_float.
  assert (Hc0 : 0 <= 1 - 2 ^ (-24)) by (vm_compute; discriminate).
  assert (Hc1 : 1 - 2 ^ (-24) <= 1) by (vm_compute; discriminate).
  pose proof (Qabs_nonneg (a - b)) as Hn.
  destruct (Qlt_le_dec (Qabs (a - b)) (2 ^ (-149 + 24 - 1))) as [Hsmall|Hbig].
  - assert (Hrep : representable 24 (-149) (a - b)).
    { apply representable_sub_small; [lia|done|done|].
      eapply Qlt_trans; [exact Hsmall|]. apply pow2_lt. lia. }
    rewrite (Qabs_wd _ _ (rnd_id 24 (-149) ltac:(lia) _ Hrep)).
    set (D := Qabs (a - b)) in *. set (C := 1 - 2 ^ (-24)) in *.
    clearbody C D. clear Hsmall. nra.
  - destruct (Qlt_le_dec (a - b) 0) as [Hneg|Hpos].
    + rewrite (Qabs_neg (a - b)) in * by lra.
      destruct (rnd_rel_error 24 (-149) (- (a - b)) Hbig) as [Hlo _].
      rewrite (rnd_opp 24 (-149)) in Hlo.
      pose proof (rnd_nonpos 24 (-149) (a - b) ltac:(lra)) as Hr.
      rewrite Qabs_neg by done. exact Hlo.
    + rewrite (Qabs_pos (a - b)) in * by lra.
      destruct (rnd_rel_error 24 (-149) (a - b) Hbig) as [Hlo _].
      pose proof (rnd_nonneg 24 (-149) (a - b) Hpos) as Hr.
      rewrite Qabs_pos by done. exact Hlo.
Qed.

Lemma Qabs_square (q : Q) : Qabs q * Qabs q == q * q.
Proof.
  destruct (Qlt_le_dec q 0) as [Hneg|Hpos].
  - rewrite Qabs_neg by lra. ring.
  - rewrite Qabs_pos by done. ring.
Qed.

Lemma square_mono_abs (c p q : Q) :
  0 <= c -> Qabs p * c <= Qabs q -> p * p * (c * c) <= q * q.
Proof.
  intros Hc H. rewrite <- (Qabs_square p), <- (Qabs_square q).
  pose proof (Qabs_nonneg p) as Hp. pose proof (Qabs_nonneg q) as Hq.
  set (P := Qabs p) in *. set (R := Qabs q) in *. clearbody P R.
  assert (Ht : 0 <= P * c) by nra.
  setoid_replace (P * P * (c * c)) with (P * c * (P * c)) using relation Qeq by ring.
  set (t := P * c) in *. clearbody t.
  apply Qle_trans with (R * t); [apply Qmult_le_compat_r; done|].
  rewrite (Qmult_comm R t). apply Qmult_le_compat_r; done.
Qed.

(** The square of a float is exact in double precision, and so is a float. *)
Lemma to_double_float (q : Q) : is_float q -> to_double q == q.
Proof.
  intros Hq. apply rnd_id; [lia|].
  apply (representable_weaken 24 (-149)); [lia|lia|lia|done].
Qed.

Lemma to_double_square (q : Q) : is_float q -> to_double (q * q) == q * q.
Proof.
  intros Hq. apply rnd_id; [lia|].
  apply (representable_weaken (24 + 24) (-149 + -149)); [lia|lia|lia|].
  apply representable_mul; [lia|lia|done|done].
Qed.

Lemma square_least (q : Q) : is_float q -> ~ q == 0 -> 2 ^ (-298) <= q * q.
Proof.
  intros Hq Hz. pose proof (representable_least _ _ _ Hq Hz) as H.
  rewrite <- (Qabs_square q).
  change (2 ^ (-298)) with (2 ^ (-149 + -149)). rewrite pow2_add.
  pose proof (pow2_pos (-149)). set (A := Qabs q) in *. set (E := 2 ^ (-149)) in *. nra.
Qed.

(** The sum of the squares of two floats, computed in double precision,
    loses at most the fraction [2^-53] of its value. *)
Lemma to_double_sum_squares (p q : Q) :
  is_float p -> is_float q ->
  (p * p + q * q) * (1 - 2 ^ (-53)) <= to_double (p * p + q * q).
Proof.
  intros Hp Hq.
  assert (Hpp : 0 <= p * p) by nra. assert (Hqq : 0 <= q * q) by nra.
  destruct (Qeq_dec p 0) as [Hpz|Hpz]; [destruct (Qeq_dec q 0) as [Hqz|Hqz]|].
  - assert (Hs : p * p + q * q == 0) by (rewrite Hpz, Hqz; ring).
    unfold to_double. rewrite (rnd_proper 53 (-1074) _ 0 Hs). rewrite Hs. vm_compute. discriminate.
  - pose proof (square_least q Hq Hqz) as Hl.
    apply (rnd_rel_error 53 (-1074)).
    pose proof (pow2_le (-1074 + 53 - 1) (-298) ltac:(lia)). lra.
  - pose proof (square_least p Hp Hpz) as Hl.
    apply (rnd_rel_error 53 (-1074)).
    pose proof (pow2_le (-1074 + 53 - 1) (-298) ltac:(lia)). lra.
Qed.

(** What [lengthSquared] of a difference of two float positions is at least:
    the squared distance less the fraction [2^-23]. *)
Lemma lengthSquared_vsub_lower (p c : float2) (bound : Q) :
  is_float2 p -> is_float2 c ->
  bound <= (1 - 2 ^ (-23)) * ((x p - x c) * (x p - x c) + (y p - y c) * (y p - y c)) ->
  to_float bound <= lengthSquared (vsub p c).
Proof.
  intros [Hpx Hpy] [Hcx Hcy] Hb. unfold lengthSquared, vsub. cbn [x y].
  set (dx := fsub (x p) (x c)). set (dy := fsub (y p) (y c)).
  assert (Hdx : is_float dx) by apply to_float_is_float.
  assert (Hdy : is_float dy) by apply to_float_is_float.
  apply to_float_mono.
  assert (Hx : to_double (to_double dx * to_double dx) == dx * dx).
  { unfold to_double at 1.
    rewrite (rnd_proper 53 (-1074) _ (dx * dx)).
    - apply to_double_square. done.
    - rewrite (to_double_float dx Hdx). reflexivity. }
  assert (Hy : to_double (to_double dy * to_double dy) == dy * dy).
  { unfold to_double at 1.
    rewrite (rnd_proper 53 (-1074) _ (dy * dy)).
    - apply to_double_square. done.
    - rewrite (to_double_float dy Hdy). reflexivity. }
  unfold to_double at 1.
  rewrite (rnd_proper 53 (-1074) _ (dx * dx + dy * dy)) by (rewrite Hx, Hy; reflexivity).
  pose proof (to_double_sum_squares dx dy Hdx Hdy) as Hsum. unfold to_double in Hsum.
  assert (Hc : 0 <= 1 - 2 ^ (-24)) by (vm_compute; discriminate).
  pose proof (square_mono_abs _ _ _ Hc (fsub_error (x p) (x c) Hpx Hcx)) as Ex.
  pose proof (square_mono_abs _ _ _ Hc (fsub_error (y p) (y c) Hpy Hcy)) as Ey.
  fold dx in Ex. fold dy in Ey.
  assert (Hsq : forall d : Q, 0 <= d * d) by (intros d; nra).
  pose proof (Hsq (x p - x c)) as HX. pose proof (Hsq (y p - y c)) as HY.
  set (X := (x p - x c) * (x p - x c)) in *. set (Y := (y p - y c) * (y p - y c)) in *.
  set (R := rnd 53 (-1074) (dx * dx + dy * dy)) in *.
  set (DX := dx * dx) in *. set (DY := dy * dy) in *.
  clearbody X Y R DX DY. clear Hx Hy Hsq.
  assert (Hk : 1 - 2 ^ (-23) <= (1 - 2 ^ (-53)) * ((1 - 2 ^ (-24)) * (1 - 2 ^ (-24))))
    by (vm_compute; discriminate).
  assert (Hk3 : 0 <= 1 - 2 ^ (-53)) by (vm_compute; discriminate).
  set (A := 1 - 2 ^ (-23)) in *. set (B := 1 - 2 ^ (-53)) in *.
  set (C := (1 - 2 ^ (-24)) * (1 - 2 ^ (-24))) in *. clearbody A B C.
  assert (H1 : A * (X + Y) <= B * C * (X + Y)) by (apply Qmult_le_compat_r; lra).
  assert (H2 : C * (X + Y) <= DX + DY) by lra.
  assert (H3 : (C * (X + Y)) * B <= (DX + DY) * B) by (apply Qmult_le_compat_r; done).
  lra.
Qed.
End DistanceFacts.

(** ** SpatialHashing: the counting sort of [update] and the bucket scan of [query] *)

Module HashFacts.
Import SpatialHashing.


(** *** Counting keys *)

Lemma cnt_nil b : cnt b [] = 0.
Proof. reflexivity. Qed.

Lemma cnt_cons b k ks : cnt b (k :: ks) = (if decide (k = b) then 1 else 0) + cnt b ks.
Proof. unfold cnt. rewrite filter_cons. destruct (decide (k = b)); reflexivity. Qed.

Lemma cnt_app b ks1 ks2 : cnt b (ks1 ++ ks2) = cnt b ks1 + cnt b ks2.
Proof. unfold cnt. rewrite filter_app, length_app. reflexivity. Qed.

Lemma below_cons b k ks : below b (k :: ks) = (if decide (k < b) then 1 else 0) + below b ks.
Proof. unfold below. rewrite filter_cons. destruct (decide (k < b)); reflexivity. Qed.

Lemma below_0 ks : below 0 ks = 0.
Proof. induction ks as [|k ks IH]; [reflexivity|]. rewrite below_cons, IH. destruct (decide (k < 0)); lia. Qed.

Lemma below_S b ks : below (S b) ks = below b ks + cnt b ks.
Proof.
  induction ks as [|k ks IH]; [reflexivity|].
  rewrite !below_cons, cnt_cons, IH.
  destruct (decide (k < S b)), (decide (k < b)), (decide (k = b)); lia.
Qed.

Lemma below_mono b c ks : b <= c -> below b ks <= below c ks.
Proof.
  induction 1 as [|c _ IH]; [lia|]. rewrite below_S. lia.
Qed.


Lemma below_le_length b ks : below b ks <= length ks.
Proof. unfold below. apply length_filter. Qed.

Lemma cnt_take_lt b j ks : ks !! j = Some b -> cnt b (take j ks) < cnt b ks.
Proof.
  intros Hj. rewrite <- (take_drop_middle ks j b Hj) at 2.
  rewrite cnt_app, cnt_cons. destruct (decide (b = b)); [lia|congruence].
Qed.

Lemma cnt_take_mono b i j ks : i <= j -> cnt b (take i ks) <= cnt b (take j ks).
Proof.
  intros Hij. replace (take i ks) with (take i (take j ks)) by (rewrite take_take; f_equal; lia).
  rewrite <- (take_drop i (take j ks)) at 2. rewrite cnt_app. lia.
Qed.

Lemma cnt_take_S b j ks : ks !! j = Some b -> cnt b (take (S j) ks) = S (cnt b (take j ks)).
Proof.
  intros Hj. rewrite (take_S_r ks j b Hj), cnt_app, cnt_cons, cnt_nil.
  destruct (decide (b = b)); [lia|congruence].
Qed.

(** The slot of a key lies in the range of its bucket, and slots do not
    collide: [slot] is a bijection on the indices. *)
Lemma slot_range ks j b : ks !! j = Some b -> below b ks <= slot ks j < below (S b) ks.
Proof.
  intros Hj. unfold slot. rewrite Hj, below_S.
  pose proof (cnt_take_lt b j ks Hj). lia.
Qed.

Lemma slot_lt_length ks j : j < length ks -> slot ks j < length ks.
Proof.
  intros Hj. destruct (lookup_lt_is_Some_2 ks j Hj) as [b Hb].
  pose proof (slot_range ks j b Hb). pose proof (below_le_length (S b) ks). lia.
Qed.

Lemma slot_lt i j ks b : i < j -> ks !! i = Some b -> ks !! j = Some b -> slot ks i < slot ks j.
Proof.
  intros Hij Hi Hj. unfold slot. rewrite Hi, Hj.
  pose proof (cnt_take_mono b (S i) j ks ltac:(lia)).
  rewrite (cnt_take_S b i ks Hi) in H. lia.
Qed.

Lemma slot_inj ks i j : i < length ks -> j < length ks -> slot ks i = slot ks j -> i = j.
Proof.
  intros Hi Hj Heq.
  destruct (lookup_lt_is_Some_2 ks i Hi) as [b Hb].
  destruct (lookup_lt_is_Some_2 ks j Hj) as [c Hc].
  pose proof (slot_range ks i b Hb). pose proof (slot_range ks j c Hc).
  destruct (decide (b = c)) as [->|Hne].
  - destruct (Nat.lt_trichotomy i j) as [Hlt|[?|Hlt]]; [|done|].
    + pose proof (slot_lt i j ks c Hlt Hb Hc). lia.
    + pose proof (slot_lt j i ks c Hlt Hc Hb). lia.
  - destruct (decide (b < c)).
    + pose proof (below_mono (S b) c ks ltac:(lia)). lia.
    + pose proof (below_mono (S c) b ks ltac:(lia)). lia.
Qed.

Lemma slot_bucket ks j b :
  j < length ks -> below b ks <= slot ks j < below (S b) ks -> ks !! j = Some b.
Proof.
  intros Hj Hr. destruct (lookup_lt_is_Some_2 ks j Hj) as [c Hc].
  pose proof (slot_range ks j c Hc).
  destruct (Nat.lt_trichotomy c b) as [Hlt|[->|Hlt]]; [|done|].
  - pose proof (below_mono (S c) b ks ltac:(lia)). lia.
  - pose proof (below_mono (S b) c ks ltac:(lia)). lia.
Qed.

Lemma slot_surj ks p : p < length ks -> exists j, j < length ks /\ slot ks j = p.
Proof.
  intros Hp.
  assert (Hperm : slot ks <$> seq 0 (length ks) ≡ₚ seq 0 (length ks)).
  { apply submseteq_length_Permutation.
    - apply NoDup_submseteq.
      + apply NoDup_fmap_2_strong; [|apply NoDup_seq].
        intros i j Hi Hj. apply elem_of_seq in Hi, Hj. apply slot_inj; lia.
      + intros q Hq. apply list_elem_of_fmap in Hq as (j & -> & Hj).
        apply elem_of_seq in Hj. apply elem_of_seq.
        pose proof (slot_lt_length ks j ltac:(lia)). lia.
    - rewrite length_fmap. done. }
  assert (Hin : p ∈ slot ks <$> seq 0 (length ks)).
  { rewrite Hperm. apply elem_of_seq. lia. }
  apply list_elem_of_fmap in Hin as (j & -> & Hj). apply elem_of_seq in Hj.
  exists j. split; [lia|done].
Qed.


(** *** The last loop of [update] *)

Lemma shiftRight_length i (pv : list nat) : length (shiftRight i pv) = length pv.
Proof.
  revert pv. induction i as [|i IH]; intros pv; simpl; [reflexivity|].
  rewrite IH, length_insert. reflexivity.
Qed.

Lemma shiftRight_lookup i (pv : list nat) k :
  i < length pv ->
  shiftRight i pv !! k =
    if decide (k = 0) then pv !! 0
    else if decide (k <= i) then pv !! (k - 1) else pv !! k.
Proof.
  revert pv. induction i as [|i IH]; intros pv Hi; simpl.
  - destruct (decide (k = 0)) as [->|]; [reflexivity|].
    destruct (decide (k <= 0)); [lia|reflexivity].
  - rewrite IH by (rewrite length_insert; lia).
    assert (Hi' : i < length pv) by lia.
    destruct (decide (k = 0)) as [->|Hk].
    { rewrite list_lookup_insert_ne by lia. reflexivity. }
    destruct (decide (k <= i)).
    { rewrite list_lookup_insert_ne by lia.
      destruct (decide (k <= S i)); [reflexivity|lia]. }
    destruct (decide (k <= S i)).
    + assert (k = S i) as -> by lia.
      rewrite list_lookup_insert_eq by lia.
      replace (S i - 1) with i by lia.
      symmetry. apply list_lookup_lookup_total_lt. lia.
    + rewrite list_lookup_insert_ne by lia. reflexivity.
Qed.

(** The repositioning shifts every pivot one place up and puts 0 in front. *)
Lemma reposition_cons (pv : list nat) : reposition pv = 0 :: pv.
Proof.
  unfold reposition. apply list_eq. intros k.
  assert (Hlen : length (pv ++ [List.last pv 0]) = S (length pv))
    by (rewrite length_app; simpl; lia).
  destruct (decide (k = 0)) as [->|Hk].
  - rewrite list_lookup_insert_eq by (rewrite shiftRight_length; lia). reflexivity.
  - rewrite list_lookup_insert_ne by lia.
    rewrite shiftRight_lookup by lia.
    destruct (decide (k = 0)); [lia|].
    destruct k as [|k]; [lia|]. simpl. rewrite Nat.sub_0_r.
    destruct (decide (S k <= length (pv ++ [List.last pv 0]) - 1)).
    + apply lookup_app_l. lia.
    + rewrite !lookup_ge_None_2; [reflexivity|lia|lia].
Qed.

Section Update.
Context {T : Type} `{Positioned T}.

(** *** The three passes of [update] *)

(** Every bucket index is below the table size: the accesses to [pivots] in
    [update] are in range. *)
Lemma bucketOf_lt (e : T) : bucketOf e < tableSize.
Proof.
  unfold bucketOf, getCellIndex, tableSize.
  apply Z2Nat.inj_lt.
  - apply Z.mod_pos_bound. reflexivity.
  - discriminate.
  - apply Z.mod_pos_bound. reflexivity.
Qed.


Opaque tableSize.

Lemma countUsage_length (els : list T) pv : length (countUsage els pv) = length pv.
Proof.
  revert pv. induction els as [|e els IH]; intros pv; simpl; [reflexivity|].
  unfold countUsage in *. simpl. rewrite IH, length_alter. reflexivity.
Qed.

Lemma countUsage_lookup (els : list T) pv b :
  countUsage els pv !! b = (λ c, c + cnt b (keysOf els)) <$> pv !! b.
Proof.
  revert pv. induction els as [|e els IH]; intros pv.
  - simpl. destruct (pv !! b); simpl; [f_equal; rewrite cnt_nil; lia|reflexivity].
  - unfold countUsage in *. simpl. rewrite IH. rewrite cnt_cons.
    destruct (decide (bucketOf e = b)) as [->|Hne].
    + rewrite list_lookup_alter_eq. destruct (pv !! b); simpl; [f_equal; lia|reflexivity].
    + rewrite list_lookup_alter_ne by done. reflexivity.
Qed.

(** First pass: the number of elements per bucket. *)
Lemma countUsage_spec (els : list T) :
  countUsage els (replicate tableSize 0) = map (λ b, cnt b (keysOf els)) (seq 0 tableSize).
Proof.
  apply list_eq. intros b. rewrite countUsage_lookup, list_lookup_fmap.
  destruct (decide (b < tableSize)).
  - rewrite lookup_replicate_2 by done. rewrite lookup_seq_lt by done. reflexivity.
  - rewrite (proj1 (lookup_replicate_None _ _ _)) by lia.
    rewrite lookup_seq_ge by lia. reflexivity.
Qed.

(** Second pass: the number of elements in smaller buckets. *)
Lemma startIndices_spec ks a n :
  startIndices (below a ks) (map (λ b, cnt b ks) (seq a n)) = map (λ b, below b ks) (seq a n).
Proof.
  revert a. induction n as [|n IH]; intros a; simpl; [reflexivity|].
  f_equal. rewrite <- below_S. apply IH.
Qed.

Lemma alter_S_counts ks (ks' : list nat) k :
  k < tableSize ->
  alter S k (map (λ b, below b ks + cnt b ks') (seq 0 tableSize))
  = map (λ b, below b ks + cnt b (ks' ++ [k])) (seq 0 tableSize).
Proof.
  intros Hk. apply list_eq. intros b.
  rewrite !list_lookup_fmap.
  destruct (decide (k = b)) as [->|Hne].
  - rewrite list_lookup_alter_eq, list_lookup_fmap, lookup_seq_lt by done. simpl.
    rewrite cnt_app, cnt_cons, cnt_nil.
    destruct (decide (b = b)); [apply (f_equal Some); lia|done].
  - rewrite list_lookup_alter_ne, list_lookup_fmap by done.
    destruct (decide (b < tableSize));
      [rewrite lookup_seq_lt by done|rewrite lookup_seq_ge by lia; reflexivity].
    simpl. rewrite cnt_app, cnt_cons, cnt_nil.
    destruct (decide (k = b)); [done|apply (f_equal Some); lia].
Qed.

(** Third pass, as an invariant over the elements scattered so far: the
    cursor of a bucket has advanced by the number of its elements seen, and
    every element seen sits in its slot.  The write index is the slot of the
    element, which is in range. *)
Lemma fillHashtable_spec (all els rest : list T) (ht0 : list nat) :
  all = els ++ rest ->
  length ht0 = length all ->
  exists ht,
    fillHashtable els (map (λ b, below b (keysOf all)) (seq 0 tableSize)) ht0
    = (map (λ b, below b (keysOf all) + cnt b (keysOf els)) (seq 0 tableSize),
       ht, length els)
    /\ length ht = length all
    /\ forall j, j < length els -> ht !! slot (keysOf all) j = Some j.
Proof.
  revert rest. induction els as [|e els IH] using rev_ind; intros rest Hall Hlen.
  - exists ht0. split; [|split; [done|simpl; lia]].
    unfold fillHashtable. simpl. do 2 f_equal.
    apply map_ext. intros b. rewrite cnt_nil. lia.
  - destruct (IH (e :: rest)) as (ht & Hfill & Hht & Hslots).
    { rewrite Hall, <- app_assoc. reflexivity. }
    { done. }
    assert (Hkey : keysOf all !! length els = Some (bucketOf e)).
    { unfold keysOf. rewrite Hall, list_lookup_fmap, <- app_assoc.
      rewrite lookup_app_r by lia. rewrite Nat.sub_diag. reflexivity. }
    assert (Htake : take (length els) (keysOf all) = keysOf els).
    { unfold keysOf. rewrite Hall, <- app_assoc, map_app.
      rewrite take_app_length'; [reflexivity|by rewrite length_map]. }
    assert (Hidx : map (λ b, below b (keysOf all) + cnt b (keysOf els)) (seq 0 tableSize)
                     !!! bucketOf e = slot (keysOf all) (length els)).
    { apply list_lookup_total_correct.
      rewrite list_lookup_fmap, lookup_seq_lt by apply bucketOf_lt. simpl.
      unfold slot. rewrite Hkey, Htake. reflexivity. }
    assert (Hn : length els < length (keysOf all)).
    { unfold keysOf. rewrite length_map, Hall, !length_app. simpl. lia. }
    exists (<[slot (keysOf all) (length els) := length els]> ht).
    split; [|split].
    + unfold fillHashtable in *. rewrite foldl_snoc, Hfill. unfold fillStep.
      rewrite Hidx. rewrite alter_S_counts by apply bucketOf_lt.
      replace (keysOf (els ++ [e])) with (keysOf els ++ [bucketOf e])
        by (unfold keysOf; rewrite map_app; reflexivity).
      rewrite length_app. simpl. f_equal. lia.
    + rewrite length_insert. done.
    + intros j Hj. rewrite length_app in Hj. simpl in Hj.
      destruct (decide (j = length els)) as [->|Hne].
      * apply list_lookup_insert_eq. rewrite Hht.
        pose proof (slot_lt_length (keysOf all) (length els) Hn).
        unfold keysOf in H0 at 2. rewrite length_map in H0. done.
      * rewrite list_lookup_insert_ne; [apply Hslots; lia|].
        intros Heq. apply slot_inj in Heq; lia.
Qed.

Lemma update_elements shuffle (s : t T) : elements (update shuffle s) = elements s.
Proof.
  unfold update. destruct (fillHashtable _ _ _) as [[pv3 ht] i]. reflexivity.
Qed.

Lemma update_box shuffle (s : t T) : box (update shuffle s) = box s.
Proof.
  unfold update. destruct (fillHashtable _ _ _) as [[pv3 ht] i]. reflexivity.
Qed.

(** [update] as a whole. *)
Lemma update_spec shuffle (s : t T) :
  let ks := keysOf (elements s) in
  pivots (update shuffle s) = map (λ b, below b ks) (seq 0 (S tableSize))
  /\ length (hashtable (update shuffle s)) = length (elements s)
  /\ forall j, j < length (elements s) -> hashtable (update shuffle s) !! slot ks j = Some j.
Proof.
  intros ks. unfold update. change (Z.to_nat pivotTableSize) with tableSize.
  rewrite countUsage_spec. fold ks.
  assert (Hstart : startIndices 0 (map (λ b, cnt b ks) (seq 0 tableSize))
                   = map (λ b, below b ks) (seq 0 tableSize)).
  { rewrite <- (below_0 ks) at 1. apply startIndices_spec. }
  rewrite Hstart.
  destruct (fillHashtable_spec (elements s) (elements s) [] (replicate (length (elements s)) 0))
    as (ht & Hfill & Hlen & Hslots).
  { rewrite app_nil_r. reflexivity. }
  { apply length_replicate. }
  fold ks in Hfill, Hslots. rewrite Hfill. simpl.
  split; [|split; done].
  rewrite reposition_cons, below_0. f_equal.
  rewrite <- fmap_S_seq, <- list_fmap_compose.
  apply map_ext. intros b. simpl. rewrite below_S. reflexivity.
Qed.
End Update.

Section Query.
Context {T : Type} `{Positioned T}.

Lemma iadd_zero (c : int2) : iadd c (mkVector2 0%Z 0%Z) = c.
Proof. destruct c as [cx cy]. unfold iadd. simpl. rewrite !Z.add_0_r. reflexivity. Qed.

Lemma bucketOf_eq (e : T) : bucketOf e = getCellIndex (getCellCoordinates (position e)).
Proof. unfold bucketOf. rewrite iadd_zero. reflexivity. Qed.

(** *** The scan of [query] *)

(** When every slot scanned refers to an element, the loop returns the
    matches among the first [maxClosest - count] slots of the range. *)
Lemma queryLoop_closed (s : t T) pred m fuel : forall i count result,
  (forall p, i <= p < i + fuel ->
     exists h, hashtable s !! p = Some h /\ is_Some (elements s !! h)) ->
  queryLoop s pred m fuel i count result
  = Done (result ++ List.filter (matches s pred)
                      (take (m - count) (take fuel (drop i (hashtable s))))).
Proof.
  induction fuel as [|fuel IH]; intros i count result Hok; simpl.
  - rewrite take_0, take_nil. simpl. rewrite app_nil_r. reflexivity.
  - destruct (Nat.leb_spec m count) as [Hle|Hlt].
    + replace (m - count) with 0 by lia. rewrite take_0. simpl.
      rewrite app_nil_r. reflexivity.
    + destruct (Hok i ltac:(lia)) as (h & Hh & e & He).
      unfold read. rewrite Hh. simpl. rewrite He. simpl.
      rewrite IH by (intros p Hp; apply Hok; lia).
      rewrite (drop_S _ _ _ Hh). simpl.
      replace (m - count) with (S (m - S count)) by lia. simpl.
      unfold matches at 2. rewrite He. simpl.
      destruct (pred e); [rewrite <- app_assoc|]; reflexivity.
Qed.

Lemma update_pivot_lookup shuffle (s : t T) b :
  b <= tableSize ->
  pivots (update shuffle s) !! b = Some (below b (keysOf (elements s))).
Proof.
  intros Hb. destruct (update_spec shuffle s) as (-> & _ & _).
  rewrite list_lookup_fmap, lookup_seq_lt by lia. reflexivity.
Qed.

Lemma update_hashtable_lookup shuffle (s : t T) p :
  p < length (elements s) ->
  exists j, j < length (elements s)
    /\ slot (keysOf (elements s)) j = p
    /\ hashtable (update shuffle s) !! p = Some j.
Proof.
  intros Hp. destruct (update_spec shuffle s) as (_ & _ & Hslots).
  destruct (slot_surj (keysOf (elements s)) p) as (j & Hj & Hs).
  { unfold keysOf. rewrite length_map. done. }
  unfold keysOf in Hj at 1. rewrite length_map in Hj.
  exists j. split; [done|]. split; [done|]. rewrite <- Hs. apply Hslots. done.
Qed.

Lemma update_hashtable_inv shuffle (s : t T) p j :
  hashtable (update shuffle s) !! p = Some j ->
  j < length (elements s) /\ slot (keysOf (elements s)) j = p.
Proof.
  intros Hp. destruct (update_spec shuffle s) as (_ & Hlen & _).
  assert (Hlt : p < length (elements s)).
  { rewrite <- Hlen. eapply lookup_lt_Some. exact Hp. }
  destruct (update_hashtable_lookup shuffle s p Hlt) as (j' & Hj' & Hs & Hl).
  rewrite Hl in Hp. injection Hp as <-. done.
Qed.

(** After [update] the query is in range and scans the slots of the bucket
    of the query position. *)
Lemma query_update shuffle (s : t T) (q : T) pred m :
  query (update shuffle s) q pred m
  = Done (List.filter (matches (update shuffle s) pred)
            (take m (bucketSlots (update shuffle s) (bucketOf q)))).
Proof.
  unfold query, bucketSlots. rewrite <- bucketOf_eq.
  pose proof (bucketOf_lt q) as Hq.
  unfold read. rewrite !update_pivot_lookup by lia. simpl.
  rewrite queryLoop_closed; [rewrite Nat.sub_0_r; reflexivity|].
  intros p Hp.
  set (ks := keysOf (elements s)) in *.
  assert (Hlt : p < length (elements s)).
  { pose proof (below_mono (bucketOf q) (bucketOf q + 1) ks ltac:(lia)) as Hmono.
    pose proof (below_le_length (bucketOf q + 1) ks) as Hle.
    replace (length ks) with (length (elements s)) in Hle
      by (unfold ks, keysOf; rewrite length_map; reflexivity).
    lia. }
  destruct (update_hashtable_lookup shuffle s p Hlt) as (j & Hj & _ & Hl).
  exists j. split; [done|]. rewrite update_elements. apply lookup_lt_is_Some_2. done.
Qed.

(** *** The contents of a bucket *)

Lemma filter_bucket_length (els : list T) b :
  length (filter (λ e, bucketOf e = b) els) = cnt b (keysOf els).
Proof.
  induction els as [|e els IH]; [reflexivity|].
  unfold keysOf in *. simpl. rewrite filter_cons, cnt_cons.
  destruct (decide (bucketOf e = b)); simpl; rewrite IH; reflexivity.
Qed.

Lemma filter_bucket_lookup (els : list T) b j e :
  els !! j = Some e -> bucketOf e = b ->
  filter (λ e, bucketOf e = b) els !! cnt b (take j (keysOf els)) = Some e.
Proof.
  revert j. induction els as [|e0 els IH]; intros j Hj Hb; [done|].
  unfold keysOf in *. rewrite filter_cons. destruct j as [|j]; simpl in *.
  - injection Hj as ->. rewrite cnt_nil. destruct (decide (bucketOf e = b)); done.
  - rewrite cnt_cons. destruct (decide (bucketOf e0 = b)); simpl; apply IH; done.
Qed.

Lemma update_bucketSlots shuffle (s : t T) b :
  b < tableSize ->
  bucketSlots (update shuffle s) b
  = take (cnt b (keysOf (elements s)))
      (drop (below b (keysOf (elements s))) (hashtable (update shuffle s))).
Proof.
  intros Hb. unfold bucketSlots. rewrite !update_pivot_lookup by lia.
  rewrite Nat.add_1_r, below_S. f_equal. lia.
Qed.

Lemma update_bucketSlots_lookup shuffle (s : t T) b k h :
  b < tableSize ->
  bucketSlots (update shuffle s) b !! k = Some h ->
  exists e, elements s !! h = Some e /\ bucketOf e = b
    /\ cnt b (take h (keysOf (elements s))) = k.
Proof.
  intros Hb Hk. rewrite update_bucketSlots in Hk by done.
  apply lookup_take_Some in Hk as [Hk Hlt]. rewrite lookup_drop in Hk.
  apply update_hashtable_inv in Hk as [Hh Hslot].
  set (ks := keysOf (elements s)) in *.
  assert (Hlen : length ks = length (elements s))
    by (unfold ks, keysOf; apply length_map).
  assert (Hkey : ks !! h = Some b).
  { apply slot_bucket; [lia|]. rewrite below_S. lia. }
  destruct (lookup_lt_is_Some_2 (elements s) h Hh) as [e He].
  exists e. split; [done|].
  assert (Hbe : bucketOf e = b).
  { unfold ks, keysOf in Hkey. rewrite list_lookup_fmap, He in Hkey.
    simpl in Hkey. congruence. }
  split; [done|]. unfold slot in Hslot. rewrite Hkey in Hslot. lia.
Qed.

Lemma update_bucketSlots_length shuffle (s : t T) b :
  b < tableSize ->
  length (bucketSlots (update shuffle s) b) = cnt b (keysOf (elements s)).
Proof.
  intros Hb. rewrite update_bucketSlots by done.
  destruct (update_spec shuffle s) as (_ & Hlen & _).
  rewrite length_take, length_drop, Hlen.
  set (ks := keysOf (elements s)).
  pose proof (below_le_length (S b) ks) as Hle. rewrite below_S in Hle.
  replace (length ks) with (length (elements s)) in Hle
    by (unfold ks, keysOf; rewrite length_map; reflexivity).
  lia.
Qed.

(** The counting sort is stable: the slots of a bucket refer to the elements
    that hash to it, in insertion order. *)
Lemma update_bucket_refs shuffle (s : t T) b :
  b < tableSize ->
  Forall2 (λ h e, elements s !! h = Some e)
    (bucketSlots (update shuffle s) b)
    (filter (λ e, bucketOf e = b) (elements s)).
Proof.
  intros Hb. apply Forall2_same_length_lookup. split.
  - rewrite update_bucketSlots_length, filter_bucket_length by done. reflexivity.
  - intros k h e Hh He.
    destruct (update_bucketSlots_lookup shuffle s b k h Hb Hh) as (e' & He' & Hbe & Hk).
    pose proof (filter_bucket_lookup (elements s) b h e' He' Hbe) as Hf.
    rewrite Hk, He in Hf. congruence.
Qed.

Lemma omap_lookup_Forall2 (els : list T) (hs : list nat) (es : list T) :
  Forall2 (λ h e, els !! h = Some e) hs es -> omap (λ h, els !! h) hs = es.
Proof.
  induction 1 as [|h e hs es Hhe _ IH]; [reflexivity|].
  simpl. rewrite Hhe. simpl. f_equal. exact IH.
Qed.

Lemma bucket_update shuffle (s : t T) b :
  b < tableSize ->
  bucket (update shuffle s) b = filter (λ e, bucketOf e = b) (elements s).
Proof.
  intros Hb. unfold bucket. rewrite update_elements.
  apply omap_lookup_Forall2, update_bucket_refs. done.
Qed.

Lemma bucket_out_of_table shuffle (s : t T) b :
  tableSize <= b -> bucket (update shuffle s) b = [].
Proof.
  intros Hb. unfold bucket, bucketSlots.
  destruct (update_spec shuffle s) as (-> & _ & _).
  rewrite (lookup_ge_None_2 _ (b + 1)); [|rewrite length_map, length_seq; lia].
  destruct (_ !! b); reflexivity.
Qed.
End Query.

Section Claims.
Context {T : Type} `{Positioned T}.

(** *** The claims *)

Lemma insertAll_elements (P : list T) (s : t T) :
  elements (insertAll P s) = elements s ++ P.
Proof.
  revert s. induction P as [|e P IH]; intros s; simpl.
  - rewrite app_nil_r. reflexivity.
  - unfold insertAll in *. simpl. rewrite IH. simpl. rewrite <- app_assoc. reflexivity.
Qed.

Lemma insertAll_pivots (P : list T) (s : t T) : pivots (insertAll P s) = pivots s.
Proof.
  revert s. induction P as [|e P IH]; intros s; [reflexivity|].
  unfold insertAll in *. simpl. rewrite IH. reflexivity.
Qed.


Lemma update_slot_in_bucket shuffle (s : t T) j e :
  elements s !! j = Some e ->
  In j (bucketSlots (update shuffle s) (bucketOf e)).
Proof.
  intros He.
  assert (Hj : j < length (elements s)) by (eapply lookup_lt_Some; exact He).
  set (ks := keysOf (elements s)).
  assert (Hkey : ks !! j = Some (bucketOf e)).
  { unfold ks, keysOf. rewrite list_lookup_fmap, He. reflexivity. }
  destruct (update_spec shuffle s) as (_ & _ & Hslots). fold ks in Hslots.
  pose proof (slot_range ks j _ Hkey) as Hr. rewrite below_S in Hr.
  apply list_elem_of_In, list_elem_of_lookup.
  exists (slot ks j - below (bucketOf e) ks).
  rewrite update_bucketSlots by apply bucketOf_lt. fold ks.
  apply lookup_take_Some. split; [|lia].
  rewrite lookup_drop.
  replace (below (bucketOf e) ks + (slot ks j - below (bucketOf e) ks)) with (slot ks j) by lia.
  apply Hslots. done.
Qed.

Lemma filter_implied {A : Type} (f g : A -> bool) (l : list A) :
  (forall a, f a = true -> g a = true) ->
  List.filter f (List.filter g l) = List.filter f l.
Proof.
  intros Hfg. induction l as [|a l IH]; [reflexivity|]. simpl.
  destruct (g a) eqn:Hg; simpl.
  - rewrite IH. reflexivity.
  - destruct (f a) eqn:Hf; [|exact IH]. apply Hfg in Hf. congruence.
Qed.

(** C2, as amended.  For two stored elements [a] and [b], after [update].
    From any position [q] that hashes to the bucket of [a], a query whose cap
    is not below the number of elements of that bucket scans [a]: the
    references it reaches, which are what it returns with the predicate that
    accepts everything, include the one to [a], and with any predicate it
    returns those of them whose element the predicate accepts.  And a
    [Distance] query centred at [a] returns [b] only if the predicate, which
    computes the squared distance and the squared radius in floating point,
    accepts [b]; it does not return [b] when the two positions are float
    values and the squared radius is at most the fraction [1 - 2^-23] of
    their squared distance, whether or not the two share a bucket. *)
Theorem hash_query_bucket_filtered (shuffle : list nat -> list nat) (s : t T)
    (i j : nat) (a b : T) :
  elements s !! i = Some a ->
  elements s !! j = Some b ->
  (forall (q : T) (maxClosest : nat),
      bucketOf q = bucketOf a ->
      population s (bucketOf a) <= maxClosest ->
      exists scanned,
        query (update shuffle s) q PassThrough maxClosest = Done scanned
        /\ In i scanned
        /\ forall pred : T -> bool,
             query (update shuffle s) q pred maxClosest
             = Done (List.filter (matches (update shuffle s) pred) scanned))
  /\ (forall (radius : float) (maxClosest : nat),
        exists r,
          query (update shuffle s) a (Distance (position a) radius) maxClosest = Done r
          /\ (In j r -> Distance (position a) radius b = true)
          /\ (is_float2 (position a) -> is_float2 (position b) ->
              (radius * radius
               <= (1 - 2 ^ (-23))
                  * ((x (position b) - x (position a)) * (x (position b) - x (position a))
                     + (y (position b) - y (position a)) * (y (position b) - y (position a))))%Q ->
              ~ In j r)).
Proof.
  intros Ha Hb. split.
  - intros q m Hq Hm. eexists. split; [apply query_update|]. split.
    + apply filter_In. split.
      * rewrite Hq. rewrite take_ge.
        -- apply update_slot_in_bucket. done.
        -- rewrite update_bucketSlots_length by apply bucketOf_lt. done.
      * unfold matches. rewrite update_elements, Ha. done.
    + intros pred. rewrite query_update. f_equal. symmetry. apply filter_implied.
      intros h. unfold matches. destruct (elements (update shuffle s) !! h); simpl; done.
  - intros radius m. rewrite query_update. eexists. split; [reflexivity|].
    assert (Hret : In j (List.filter (matches (update shuffle s) (Distance (position a) radius))
                          (take m (bucketSlots (update shuffle s) (bucketOf a)))) ->
                   Distance (position a) radius b = true).
    { intros Hin. apply filter_In in Hin as [_ Hmatch].
      unfold matches in Hmatch. rewrite update_elements, Hb in Hmatch. exact Hmatch. }
    split; [exact Hret|].
    intros Hfa Hfb Hr Hin. apply Hret in Hin.
    unfold Distance in Hin. apply Qltb_lt in Hin.
    pose proof (DistanceFacts.lengthSquared_vsub_lower (position b) (position a)
                  (radius * radius)%Q Hfb Hfa Hr) as Hlow.
    unfold fmul in Hin. eapply Qlt_irrefl, Qlt_le_trans; eassumption.
Qed.

(** C7.  Bucket membership is a function of the inserted elements alone: a
    second [update], an [update] after [clear] and reinsertion of the same
    elements, and an [update] that draws another shuffle all give every
    bucket the same elements, in the same order, namely the inserted elements
    that hash to it, in insertion order.  Reinserting the elements in another
    order permutes each bucket and changes the membership of none. *)
Theorem update_membership_idempotent (shuffle1 shuffle2 : list nat -> list nat)
    (s : t T) (b : nat) :
  bucket (update shuffle2 (update shuffle1 s)) b = bucket (update shuffle1 s) b
  /\ bucket (update shuffle2 (insertAll (elements s) (clear (update shuffle1 s)))) b
      = bucket (update shuffle1 s) b
  /\ bucket (update shuffle2 s) b = bucket (update shuffle1 s) b
  /\ bucket (update shuffle1 s) b = filter (λ e, bucketOf e = b) (elements s)
  /\ (forall P', P' ≡ₚ elements s ->
        bucket (update shuffle2 (insertAll P' (clear (update shuffle1 s)))) b
        ≡ₚ bucket (update shuffle1 s) b).
Proof.
  destruct (decide (b < tableSize)) as [Hb|Hb].
  - rewrite !bucket_update by done. rewrite update_elements.
    rewrite insertAll_elements. simpl.
    split; [done|]. split; [done|]. split; [done|]. split; [done|].
    intros P' HP. rewrite bucket_update by done.
    rewrite insertAll_elements. simpl. rewrite HP. done.
  - rewrite !bucket_out_of_table by lia.
    split; [done|]. split; [done|]. split; [done|]. split.
    + symmetry. induction (elements s) as [|e els IH]; [reflexivity|].
      rewrite filter_cons. pose proof (bucketOf_lt e).
      destruct (decide (bucketOf e = b)); [lia|done].
    + intros P' _. rewrite bucket_out_of_table by lia. done.
Qed.

Lemma insertAll_hashtable (P : list T) (s : t T) : hashtable (insertAll P s) = hashtable s.
Proof.
  revert s. induction P as [|e P IH]; intros s; [reflexivity|].
  unfold insertAll in *. simpl. rewrite IH. reflexivity.
Qed.

(** The loop only depends on the hashtable and on the elements it reaches. *)
Lemma queryLoop_ext (s1 s2 : t T) pred m fuel : forall i count result,
  hashtable s1 = hashtable s2 ->
  (forall p h, i <= p < i + fuel -> hashtable s1 !! p = Some h ->
     elements s1 !! h = elements s2 !! h) ->
  queryLoop s1 pred m fuel i count result = queryLoop s2 pred m fuel i count result.
Proof.
  induction fuel as [|fuel IH]; intros i count result Hht Hel; simpl; [reflexivity|].
  destruct (m <=? count); [reflexivity|].
  rewrite <- Hht. unfold read.
  destruct (hashtable s1 !! i) as [h|] eqn:Hh; simpl; [|reflexivity].
  rewrite <- (Hel i h) by (done || lia).
  destruct (elements s1 !! h) as [e|]; simpl; [|reflexivity].
  apply IH; [done|]. intros p h' Hp. apply Hel. lia.
Qed.

(** C10, as amended.  [query] stays in range whenever [update] has run since
    the last [clear]: directly after [update] every access is in range, and
    elements inserted after that [update] change nothing (the query returns
    what it returned before them).  Before the first [update] the read of
    [pivots] is out of range, and after [clear] a query with a positive cap
    into a bucket that was populated at the last [update] reads [elements]
    out of range. *)
Theorem query_access_in_range (shuffle : list nat -> list nat) (s : t T)
    (q : T) (pred : T -> bool) (maxClosest : nat) :
  (exists r, query (update shuffle s) q pred maxClosest = Done r)
  /\ (forall w h P, query (insertAll P (create w h)) q pred maxClosest
                    = Undefined PivotOutOfRange)
  /\ (forall P, query (insertAll P (update shuffle s)) q pred maxClosest
                = query (update shuffle s) q pred maxClosest)
  /\ (0 < maxClosest -> 0 < population s (bucketOf q) ->
      query (clear (update shuffle s)) q pred maxClosest = Undefined ElementOutOfRange).
Proof.
  pose proof (bucketOf_lt q) as Hq.
  set (ks := keysOf (elements s)).
  assert (Hlen : length ks = length (elements s))
    by (unfold ks, keysOf; apply length_map).
  split; [|split; [|split]].
  - rewrite query_update. eexists. reflexivity.
  - intros w h P. unfold query, read. rewrite insertAll_pivots. reflexivity.
  - intros P. unfold query. rewrite insertAll_pivots.
    rewrite <- bucketOf_eq. unfold read.
    rewrite !update_pivot_lookup by lia. simpl.
    apply queryLoop_ext; [apply insertAll_hashtable|].
    intros p h Hp Hh. rewrite insertAll_hashtable in Hh.
    apply update_hashtable_inv in Hh as [Hh _].
    rewrite insertAll_elements, update_elements. apply lookup_app_l. done.
  - intros Hm Hpop. unfold population in Hpop. fold ks in Hpop.
    unfold query. rewrite <- bucketOf_eq. unfold read. simpl.
    rewrite !update_pivot_lookup by lia. simpl. fold ks.
    rewrite Nat.add_1_r, below_S.
    replace (below (bucketOf q) ks + cnt (bucketOf q) ks - below (bucketOf q) ks)
      with (S (cnt (bucketOf q) ks - 1)) by lia.
    simpl. destruct (Nat.leb_spec maxClosest 0) as [?|_]; [lia|].
    pose proof (below_le_length (S (bucketOf q)) ks) as Hle. rewrite below_S in Hle.
    destruct (update_hashtable_lookup shuffle s (below (bucketOf q) ks) ltac:(lia))
      as (j & _ & _ & Hj).
    unfold read. fold ks in Hj. rewrite Hj. reflexivity.
Qed.

(** X2.  What [query] returns after [update]: the references, among the
    first [maxClosest] slots of the bucket of the query position, to the
    elements that satisfy the predicate; and those slots refer, in insertion
    order, to the elements that hash to that bucket. *)
Theorem hash_query_scans_first_slots (shuffle : list nat -> list nat) (s : t T)
    (q : T) (pred : T -> bool) (maxClosest : nat) :
  query (update shuffle s) q pred maxClosest
  = Done (List.filter (matches (update shuffle s) pred)
            (take maxClosest (bucketSlots (update shuffle s) (bucketOf q))))
  /\ Forall2 (λ h e, elements s !! h = Some e)
       (bucketSlots (update shuffle s) (bucketOf q))
       (filter (λ e, bucketOf e = bucketOf q) (elements s)).
Proof.
  split; [apply query_update|]. apply update_bucket_refs, bucketOf_lt.
Qed.
End Claims.

Transparent tableSize.

(** *** The claims on concrete states *)

Section Concrete.
Import Scenario.

(** C2, as amended, on the two colliding bodies: from [collideB] the scan
    reaches [collideA], and the [Distance] query of radius 300 around
    [collideA] does not return [collideB], 353 away. *)
Lemma hash_query_bucket_filtered_witness :
  getCellCoordinates (position collideA) <> getCellCoordinates (position collideB)
  /\ bucketOf collideA = bucketOf collideB
  /\ (exists scanned,
        query (hashOf [collideA; collideB]) collideB PassThrough 2 = Done scanned
        /\ In 0 scanned)
  /\ (exists r, query (hashOf [collideA; collideB]) collideA
                  (Distance (position collideA) 300%Q) 2 = Done r /\ ~ In 1 r).
Proof.
  destruct (hash_query_bucket_filtered (fun l => l)
              (insertAll [collideA; collideB] (create 1000 1000))
              0 1 collideA collideB eq_refl eq_refl) as [Hscan Hfilter].
  split; [vm_compute; discriminate|].
  split; [vm_compute; reflexivity|].
  split.
  - destruct (Hscan collideB 2 ltac:(vm_compute; reflexivity) ltac:(vm_compute; lia))
      as (scanned & Hq & Hin & _).
    exists scanned. split; [exact Hq|exact Hin].
  - destruct (Hfilter 300%Q 2) as (r & Hq & _ & Hfar).
    exists r. split; [exact Hq|]. apply Hfar.
    + split; [exists 25%Z, 0%Z|exists 525%Z, 0%Z]; (split; [reflexivity|split; [reflexivity|lia]]).
    + split; exists 275%Z, 0%Z; (split; [reflexivity|split; [reflexivity|lia]]).
    + vm_compute. discriminate.
Defined.

(** C2, as stated, fails.  [tightA] and [tightB] lie in distinct cells that
    hash to one bucket, and the radius is smaller than their distance; the
    [Distance] query centred at [tightA] returns [tightB] all the same: the
    difference of the abscissas is rounded down to 650, and the squared
    radius up to 985000.0625.  And with the cap 1 the query from the position
    of [tightB] reaches the first slot of the bucket only, not the one of
    [tightB]. *)
Lemma hash_query_returns_beyond_radius :
  is_float2 (position tightA) /\ is_float2 (position tightB) /\ is_float tightRadius
  /\ getCellCoordinates (position tightA) <> getCellCoordinates (position tightB)
  /\ bucketOf tightA = bucketOf tightB
  /\ (0 <= tightRadius)%Q
  /\ (tightRadius * tightRadius
      < (x (position tightB) - x (position tightA)) * (x (position tightB) - x (position tightA))
        + (y (position tightB) - y (position tightA)) * (y (position tightB) - y (position tightA)))%Q
  /\ query (hashOf [tightA; tightB]) tightA (Distance (position tightA) tightRadius) 2
     = Done [0; 1]
  /\ query (hashOf [tightA; tightB]) tightB PassThrough 1 = Done [0].
Proof.
  split; [split; [exists 10649599%Z, (-15)%Z|exists 875%Z, 0%Z];
          (split; [reflexivity|split; [reflexivity|lia]])|].
  split; [split; [exists 975%Z, 0%Z|exists 125%Z, 0%Z];
          (split; [reflexivity|split; [reflexivity|lia]])|].
  split; [exists 1016291%Z, (-10)%Z; split; [reflexivity|split; [reflexivity|lia]]|].
  split; [vm_compute; discriminate|].
  split; [vm_compute; reflexivity|].
  split; [vm_compute; discriminate|].
  split; [vm_compute; reflexivity|].
  split; vm_compute; reflexivity.
Qed.

(** C10, as amended, on a hash holding one body. *)
Lemma query_access_in_range_witness :
  (exists r, query (hashOf [collideA]) collideA PassThrough 1 = Done r)
  /\ query (clear (hashOf [collideA])) collideA PassThrough 1 = Undefined ElementOutOfRange.
Proof.
  destruct (query_access_in_range (fun l => l) (insertAll [collideA] (create 1000 1000))
              collideA PassThrough 1) as (Hdone & _ & _ & Hclear).
  split; [exact Hdone|].
  apply Hclear; vm_compute; lia.
Defined.

(** C10, as stated, fails: after a further [insert] without a new [update]
    the query is in range and returns its result; so is a query after
    [clear] into a bucket that was empty. *)
Lemma query_after_insert_in_range :
  query (insert collideB (hashOf [collideA])) collideA PassThrough 10 = Done [0]
  /\ query (insert collideA (hashOf [collideA])) collideA PassThrough 10 = Done [0]
  /\ query (clear (hashOf [collideA])) (Body_at 10 10) PassThrough 10 = Done [].
Proof. vm_compute. repeat split; reflexivity. Qed.

End Concrete.
End HashFacts.

(** ** Collection: the capped linear scan *)

Module CollectionFacts.
Import Collection.

Section LinearScan.
Context {T : Type} `{Positioned T}.

(** [matchIndices] lists the indices of the matching elements. *)
Lemma matchIndices_In (pred : T -> bool) (els : list T) : forall i j,
  In j (matchIndices pred els i)
  <-> exists e, i <= j /\ els !! (j - i) = Some e /\ pred e = true.
Proof.
  induction els as [|e0 els IH]; intros i j; simpl.
  - split; [done|]. intros (e & _ & He & _). done.
  - assert (Hrest : In j (matchIndices pred els (S i))
                    <-> exists e, i < j /\ els !! (j - S i) = Some e /\ pred e = true).
    { rewrite IH. split; intros (e & ? & ? & ?); exists e; (split; [lia|done]). }
    destruct (pred e0) eqn:Hp; simpl; rewrite ?Hrest; split.
    + intros [<-|(e & Hlt & He & Hpe)].
      * exists e0. rewrite Nat.sub_diag. done.
      * exists e. split; [lia|]. split; [|done].
        replace (j - i) with (S (j - S i)) by lia. done.
    + intros (e & Hle & He & Hpe).
      destruct (decide (i = j)) as [->|Hne]; [left; done|right].
      exists e. split; [lia|]. split; [|done].
      replace (j - i) with (S (j - S i)) in He by lia. done.
    + intros (e & Hlt & He & Hpe). exists e. split; [lia|]. split; [|done].
      replace (j - i) with (S (j - S i)) by lia. done.
    + intros (e & Hle & He & Hpe).
      destruct (decide (i = j)) as [->|Hne].
      * rewrite Nat.sub_diag in He. simpl in He. congruence.
      * exists e. split; [lia|]. split; [|done].
        replace (j - i) with (S (j - S i)) in He by lia. done.
Qed.

(** The loop appends the first [maxClosest - count] matches. *)
Lemma Collection_queryLoop_closed (pred : T -> bool) m (els : list T) : forall i count result,
  Collection.queryLoop pred m els i count result
  = result ++ take (m - count) (matchIndices pred els i).
Proof.
  induction els as [|e els IH]; intros i count result; simpl.
  - rewrite take_nil, app_nil_r. reflexivity.
  - destruct (pred e).
    + destruct (Nat.leb_spec m count) as [Hle|Hlt].
      * replace (m - count) with 0 by lia. rewrite take_0, app_nil_r. reflexivity.
      * rewrite IH. replace (m - count) with (S (m - S count)) by lia.
        simpl. rewrite <- app_assoc. reflexivity.
    + apply IH.
Qed.

Lemma Collection_query_closed (s : Collection.t T) pred m :
  Collection.query s pred m = take m (matchIndices pred (Collection.elements s) 0).
Proof.
  unfold Collection.query. rewrite Collection_queryLoop_closed, Nat.sub_0_r. reflexivity.
Qed.
(** X3.  [Collection::query] returns the references to the first
    [maxClosest] elements that satisfy the predicate, in insertion order: all
    of them when fewer than [maxClosest] match, exactly [maxClosest]
    otherwise; elements that fail the predicate do not use up the cap. *)
Theorem collection_query_first_matches (s : Collection.t T) (pred : T -> bool)
    (maxClosest : nat) :
  Collection.query s pred maxClosest
  = take maxClosest (matchIndices pred (Collection.elements s) 0)
  /\ length (Collection.query s pred maxClosest)
     = Nat.min maxClosest (length (matchIndices pred (Collection.elements s) 0))
  /\ (forall j, In j (matchIndices pred (Collection.elements s) 0)
       <-> exists e, Collection.elements s !! j = Some e /\ pred e = true).
Proof.
  split; [apply Collection_query_closed|]. split.
  - rewrite Collection_query_closed, length_take. reflexivity.
  - intros j. rewrite matchIndices_In. rewrite Nat.sub_0_r.
    split; intros (e & H1); exists e; [tauto|]. split; [lia|tauto].
Qed.
End LinearScan.
End CollectionFacts.

(** ** The cap of the predicate queries *)

Module CapFacts.

(** C5 at its failing input.  Both bodies of [nearPair] are in one bucket and
    only the second satisfies [nearSecond].  With the cap 1 the linear
    [Collection] returns that one match, while [SpatialHashing::query] returns
    nothing: the element that fails the predicate has used up the cap.  With
    the cap 2 the match is found. *)
Theorem hash_query_cap_counts_scanned :
  map Scenario.nearSecond Scenario.nearPair = [false; true]
  /\ SpatialHashing.bucketSlots (Scenario.hashOf Scenario.nearPair)
       (SpatialHashing.bucketOf (Body_at 12 12)) = [0; 1]
  /\ Collection.query (Scenario.collectionOf Scenario.nearPair) Scenario.nearSecond 1 = [1]
  /\ SpatialHashing.query (Scenario.hashOf Scenario.nearPair) (Body_at 12 12)
       Scenario.nearSecond 1 = Done []
  /\ SpatialHashing.query (Scenario.hashOf Scenario.nearPair) (Body_at 12 12)
       Scenario.nearSecond 2 = Done [1].
Proof. vm_compute. repeat split; reflexivity. Qed.
End CapFacts.

(** ** Bounds *)

Module BoundsFacts.

(** C8 at its failing input.  [RTree::bounds] is the zero box for every tree:
    with the single point (5, 5) inserted it differs from the bounding box of
    the inserted points.  [Collection::bounds] starts from the zero box too,
    so its box also covers the origin. *)
Theorem rtree_bounds_ignores_points :
  (forall s : RTree.t Body, RTree.bounds s = mkBox 0 0 0 0)
  /\ boundingBox (position (Body_at 5 5)) [] = mkBox 5 5 0 0
  /\ box_eqb (RTree.bounds (RTree.insert (Body_at 5 5) RTree.create))
       (boundingBox (position (Body_at 5 5)) []) = false
  /\ Collection.bounds (Collection.insert (Body_at 5 5) Collection.create) = mkBox 0 0 5 5.
Proof.
  split; [intros s; reflexivity|]. vm_compute. repeat split; reflexivity.
Qed.
End BoundsFacts.

(** ** Floats and cells *)

Module CellFacts.
Import RoundingFacts BinLattice.
Local Open Scope Q_scope.

(** ** Quotients by a cell size *)

(** The integers up to [2^24] are floats. *)
Lemma is_float_integer (z : Z) : (Z.abs z <= 2 ^ 24)%Z -> is_float (inject_Z z).
Proof.
  intros Hz. destruct (Z.eq_dec (Z.abs z) (2 ^ 24)%Z) as [Htop|Hlt].
  - destruct (Z.abs_eq_or_opp z) as [Hp|Hn].
    + exists (2 ^ 23)%Z, 1%Z. split; [|split; [reflexivity|lia]].
      rewrite <- Hp, Htop. reflexivity.
    + exists (- 2 ^ 23)%Z, 1%Z. split; [|split; [reflexivity|lia]].
      assert (Hzz : z = (- 2 ^ 24)%Z) by lia. rewrite Hzz. reflexivity.
  - apply representable_inject; lia.
Qed.

Lemma to_float_integer (z : Z) : (Z.abs z <= 2 ^ 24)%Z -> of_integer z == inject_Z z.
Proof. intros Hz. apply to_float_id, is_float_integer. done. Qed.

Lemma is_float_pow2 (e : Z) : (-149 <= e)%Z -> is_float (2 ^ e).
Proof.
  intros He. exists 1%Z, e. split; [|split; [reflexivity|done]]. ring.
Qed.

(** The binade below a positive integer. *)
Lemma binade_below (k : Z) :
  (1 <= k)%Z -> exists e : Z, (-1 <= e)%Z /\ 2 ^ e < inject_Z k /\ inject_Z k <= 2 ^ (e + 1).
Proof.
  intros Hk. destruct (Z.eq_dec k 1%Z) as [->|Hne].
  - exists (-1)%Z. split; [lia|]. split; vm_compute; [reflexivity|discriminate].
  - pose proof (Z.log2_up_spec k ltac:(lia)) as [Hlo Hhi].
    pose proof (Z.log2_up_pos k ltac:(lia)) as Hpos.
    exists (Z.log2_up k - 1)%Z. split; [lia|].
    replace (Z.log2_up k - 1 + 1)%Z with (Z.log2_up k) by lia.
    rewrite !pow2_inject by lia. rewrite <- Zlt_Qlt, <- Zle_Qle.
    replace (Z.log2_up k - 1)%Z with (Z.pred (Z.log2_up k)) by lia. done.
Qed.

(** A float at or above [2^e] is a multiple of [2^(e - 23)]. *)
Lemma is_float_multiple (x : Q) (e : Z) :
  is_float x -> 2 ^ e <= x -> (-126 <= e)%Z ->
  exists n : Z, x == inject_Z n * 2 ^ (e - 23).
Proof.
  intros (m & ex & Hx & Hm & Hex) Hlo He.
  pose proof (pow2_pos e) as Hpe.
  assert (Hz : ~ x == 0) by lra.
  pose proof (representable_lastBit 24 (-149) ltac:(lia) x m ex Hz Hx Hm Hex) as Hs.
  rewrite (lastBit_pos 24 (-149) x ltac:(lra)) in Hs.
  destruct (binade_spec x ltac:(lra)) as [_ Hhi].
  assert (Hb : (e < binade x + 1)%Z) by (apply pow2_lt_inv; lra).
  exists (m * 2 ^ (ex - (e - 23)))%Z.
  rewrite Hx, inject_Z_mult, <- pow2_inject by lia.
  rewrite <- Qmult_assoc, <- pow2_add.
  replace (ex - (e - 23) + (e - 23))%Z with ex by lia. reflexivity.
Qed.

(** The floats below an integer [K <= 2^24] stop one unit in the last place
    short of it. *)
Lemma float_below_integer (x : Q) (K e : Z) :
  is_float x -> 0 < x -> x < inject_Z K -> (K <= 2 ^ 24)%Z ->
  (-1 <= e)%Z -> 2 ^ e < inject_Z K -> inject_Z K <= 2 ^ (e + 1) ->
  x <= inject_Z K - 2 ^ (e - 23).
Proof.
  intros Hx Hpos HxK HK He Hlo Hhi.
  assert (He23 : (e <= 23)%Z).
  { assert (H : 2 ^ e < 2 ^ 24).
    { eapply Qlt_le_trans; [exact Hlo|]. rewrite (pow2_inject 24) by lia.
      rewrite <- Zle_Qle. done. }
    apply pow2_lt_inv in H. lia. }
  set (u := 2 ^ (e - 23)). pose proof (pow2_pos (e - 23)) as Hu. fold u in Hu.
  assert (HKu : inject_Z K == inject_Z (K * 2 ^ (23 - e)) * u).
  { unfold u. rewrite inject_Z_mult, <- pow2_inject by lia.
    rewrite <- Qmult_assoc, <- pow2_add.
    replace (23 - e + (e - 23))%Z with 0%Z by lia. change (2 ^ 0) with 1. ring. }
  assert (Heu : 2 ^ e == inject_Z (2 ^ 23) * u).
  { unfold u. rewrite <- pow2_inject by lia. rewrite <- pow2_add.
    replace (23 + (e - 23))%Z with e by lia. reflexivity. }
  destruct (Qlt_le_dec x (2 ^ e)) as [Hsmall|Hbig].
  - assert (Hint : (2 ^ 23 < K * 2 ^ (23 - e))%Z).
    { rewrite Zlt_Qlt. apply (Qmult_lt_r _ _ u Hu). rewrite <- HKu, <- Heu. done. }
    assert (Hint' : inject_Z (2 ^ 23 + 1) <= inject_Z (K * 2 ^ (23 - e)))
      by (rewrite <- Zle_Qle; lia).
    rewrite inject_Z_plus in Hint'. change (inject_Z 1) with 1 in Hint'.
    rewrite HKu. set (A := inject_Z (K * 2 ^ (23 - e))) in *.
    set (B := inject_Z (2 ^ 23)) in *. rewrite Heu in Hsmall. nra.
  - destruct (is_float_multiple x e Hx Hbig ltac:(lia)) as [n Hn]. fold u in Hn.
    assert (Hint : (n < K * 2 ^ (23 - e))%Z).
    { rewrite Zlt_Qlt. apply (Qmult_lt_r _ _ u Hu). rewrite <- HKu, <- Hn. done. }
    assert (Hint' : inject_Z (n + 1) <= inject_Z (K * 2 ^ (23 - e)))
      by (rewrite <- Zle_Qle; lia).
    rewrite inject_Z_plus in Hint'. change (inject_Z 1) with 1 in Hint'.
    rewrite HKu, Hn. set (A := inject_Z (K * 2 ^ (23 - e))) in *.
    set (N := inject_Z n) in *. nra.
Qed.

(** Below the middle between an integer [k <= 2^24] and the float before it,
    a positive rational is rounded to less than [k]. *)
Lemma to_float_below_integer (y : Q) (k j : Z) :
  0 < y -> (k <= 2 ^ 24)%Z ->
  (-1 <= j)%Z -> 2 ^ j < inject_Z k -> inject_Z k <= 2 ^ (j + 1) ->
  y < inject_Z k - 2 ^ (j - 24) -> to_float y < inject_Z k.
Proof.
  intros Hy Hk Hj Hlo Hhi Hlt.
  assert (Hj23 : (j <= 23)%Z).
  { assert (H : 2 ^ j < 2 ^ 24).
    { eapply Qlt_le_trans; [exact Hlo|]. rewrite (pow2_inject 24) by lia.
      rewrite <- Zle_Qle. done. }
    apply pow2_lt_inv in H. lia. }
  pose proof (pow2_pos (j - 24)) as Hh.
  destruct (Qlt_le_dec y (2 ^ j)) as [Hsmall|Hbig].
  - eapply Qle_lt_trans; [|exact Hlo].
    rewrite <- (to_float_id (2 ^ j)) by (apply is_float_pow2; lia).
    apply to_float_mono. lra.
  - assert (Hb : binade y = j) by (apply binade_unique; split; lra).
    unfold to_float. rewrite (rnd_unfold 24 (-149) y) by lra.
    rewrite (lastBit_pos 24 (-149) y Hy), Hb.
    replace (Z.max (j - (24 - 1)) (-149)) with (j - 23)%Z by lia.
    set (v := 2 ^ (j - 23)). pose proof (pow2_pos (j - 23)) as Hv. fold v in Hv.
    assert (Hkv : inject_Z k == inject_Z (k * 2 ^ (23 - j)) * v).
    { unfold v. rewrite inject_Z_mult, <- pow2_inject by lia.
      rewrite <- Qmult_assoc, <- pow2_add.
      replace (23 - j + (j - 23))%Z with 0%Z by lia. change (2 ^ 0) with 1. ring. }
    assert (Hhalf : 2 ^ (j - 24) == v * (1 # 2)).
    { unfold v. replace (j - 24)%Z with (j - 23 + -1)%Z by lia. rewrite pow2_add. reflexivity. }
    set (N := (k * 2 ^ (23 - j))%Z) in *.
    assert (Hre : (round_even (y / v) <= N - 1)%Z).
    { apply round_even_below. apply Qlt_shift_div_r; [done|].
      rewrite Hkv, Hhalf in Hlt. lra. }
    rewrite Hkv. apply Qmult_lt_compat_r; [done|].
    rewrite <- Zlt_Qlt. lia.
Qed.

Lemma scale_lt (a b c w : Q) : 0 < c -> a * w < b -> a * c * w < b * c.
Proof. intros Hc H. nra. Qed.

Lemma below_shift (x K W h u : Q) : x <= K * W - u -> h * W < u -> x < (K - h) * W.
Proof. intros H1 H2. nra. Qed.

(** The quotient of a float by an integer cell size stays below an integer
    that the coordinate stays below the multiple of: the division never
    rounds up to the next cell, as long as the multiple is at most [2^24]. *)
Lemma fdiv_below_multiple (x : Q) (w k : Z) :
  is_float x -> (0 < w)%Z -> (0 < k)%Z -> (k * w <= 2 ^ 24)%Z ->
  x < inject_Z (k * w) -> fdiv x (of_integer w) < inject_Z k.
Proof.
  intros Hx Hw Hk HK Hlt.
  assert (Hwq : 0 < inject_Z w) by (change 0 with (inject_Z 0); rewrite <- Zlt_Qlt; done).
  assert (Hkq : 0 < inject_Z k) by (change 0 with (inject_Z 0); rewrite <- Zlt_Qlt; done).
  assert (Hwf : of_integer w == inject_Z w) by (apply to_float_integer; nia).
  unfold fdiv, to_float.
  rewrite (rnd_proper 24 (-149) (x / of_integer w) (x / inject_Z w))
    by (rewrite Hwf; reflexivity).
  fold (to_float (x / inject_Z w)).
  destruct (Qlt_le_dec 0 x) as [Hpos|Hneg].
  2: { eapply Qle_lt_trans; [|exact Hkq]. apply rnd_nonpos.
       apply Qle_shift_div_r; [done|]. lra. }
  destruct (binade_below (k * w) ltac:(nia)) as (e & He & Elo & Ehi).
  destruct (binade_below k ltac:(lia)) as (j & Hj & Jlo & Jhi).
  pose proof (float_below_integer x (k * w) e Hx Hpos Hlt HK He Elo Ehi) as Hxu.
  apply (to_float_below_integer _ k j); [|nia|done|done|done|].
  { apply Qlt_shift_div_l; [done|]. lra. }
  apply Qlt_shift_div_r; [done|].
  rewrite inject_Z_mult in Hxu, Ehi.
  pose proof (pow2_pos (j - 24)) as Hh. pose proof (pow2_pos (e - 23)) as Hu.
  assert (Hscale : 2 ^ (j - 24) * inject_Z w < 2 ^ (e - 23)).
  { assert (H1 : 2 ^ j * inject_Z w < 2 ^ (e + 1)).
    { eapply Qlt_le_trans; [|exact Ehi]. apply Qmult_lt_compat_r; done. }
    replace (j - 24)%Z with (j + -24)%Z by lia.
    replace (e - 23)%Z with (e + 1 + -24)%Z by lia.
    rewrite (pow2_add j (-24)), (pow2_add (e + 1) (-24)).
    apply scale_lt; [apply pow2_pos|done]. }
  eapply below_shift; eassumption.
Qed.

(** ** The cell of a coordinate *)

(** A defined conversion yields a [size_t]. *)
Lemma to_size_t_nonneg f v : to_size_t f = Done v -> (0 <= v < size_t_modulus)%Z.
Proof.
  unfold to_size_t. destruct (_ && _) eqn:Hc; [|discriminate].
  intros [= <-]. apply andb_prop in Hc as [Hlo Hhi].
  apply Qltb_lt in Hlo, Hhi. split; [apply truncate_nonneg; done|].
  destruct (Qlt_le_dec f 0) as [Hneg|Hpos].
  - rewrite truncate_small_neg by done. reflexivity.
  - rewrite truncate_floor by done.
    pose proof (Qfloor_le f) as Hfl.
    assert (Hz : (inject_Z (Qfloor f) < inject_Z size_t_modulus)%Q) by lra.
    rewrite <- Zlt_Qlt in Hz. done.
Qed.

Lemma indexOf_range c size v : indexOf c size = Done v -> (0 <= v < size_t_modulus)%Z.
Proof.
  unfold indexOf. destruct (_ =? _)%Z; [discriminate|]. apply to_size_t_nonneg.
Qed.

Lemma to_size_t_Done f v : to_size_t f = Done v -> v = truncate f /\ (-1 < f)%Q.
Proof.
  unfold to_size_t. destruct (_ && _) eqn:Hc; [|discriminate].
  intros [= <-]. apply andb_prop in Hc as [Hlo _]. apply Qltb_lt in Hlo. done.
Qed.

Lemma truncate_inject (z : Z) : truncate (inject_Z z) = z.
Proof. unfold truncate, inject_Z. simpl. apply Z.quot_1_r. Qed.

Lemma truncate_below (f : Q) (k : Z) : (0 < k)%Z -> -1 < f -> f < inject_Z k -> (truncate f < k)%Z.
Proof.
  intros Hk Hlo Hhi. destruct (Qlt_le_dec f 0) as [Hneg|Hpos].
  - rewrite truncate_small_neg by done. done.
  - rewrite truncate_floor by done. pose proof (Qfloor_le f) as Hf.
    assert (H : inject_Z (Qfloor f) < inject_Z k) by lra.
    rewrite <- Zlt_Qlt in H. done.
Qed.

Lemma indexOf_Done (c : Q) (size v : Z) :
  indexOf c size = Done v ->
  size <> 0%Z /\ v = truncate (fdiv c (of_integer size)) /\ -1 < fdiv c (of_integer size).
Proof.
  unfold indexOf. destruct (Z.eqb_spec size 0) as [|Hne]; [discriminate|].
  intros H. apply to_size_t_Done in H. tauto.
Qed.

(** The quotient by a cell size, as [indexOf] computes it. *)
Lemma fdiv_cell_size (x : Q) (w : Z) :
  (0 < w <= 2 ^ 24)%Z -> fdiv x (of_integer w) = to_float (x / inject_Z w).
Proof.
  intros Hw. unfold fdiv, to_float. apply rnd_proper.
  rewrite (to_float_integer w) by lia. reflexivity.
Qed.

(** At or above a multiple of the cell size the quotient is at least the
    multiplier: rounding is monotone. *)
Lemma fdiv_above_multiple (x : Q) (w k : Z) :
  (0 < w <= 2 ^ 24)%Z -> (Z.abs k <= 2 ^ 24)%Z ->
  inject_Z (k * w) <= x -> inject_Z k <= fdiv x (of_integer w).
Proof.
  intros Hw Hk Hx. rewrite fdiv_cell_size by done.
  rewrite <- (to_float_id (inject_Z k)) by (apply is_float_integer; done).
  apply to_float_mono. apply (Qdiv_cell x w k); [lia|done].
Qed.

(** A float coordinate of a world of at most [2^24] falls in the cell of its
    exact quotient: the rounding of the division does not move it. *)
Lemma indexOf_exact (x : Q) (w i : Z) :
  is_float x -> (0 < w)%Z -> (0 <= i)%Z -> ((i + 1) * w <= 2 ^ 24)%Z ->
  inject_Z (i * w) <= x -> x < inject_Z ((i + 1) * w) ->
  indexOf x w = Done i.
Proof.
  intros Hx Hw Hi HK Hlo Hhi.
  assert (Hw24 : (0 < w <= 2 ^ 24)%Z) by nia.
  pose proof (fdiv_above_multiple x w i Hw24 ltac:(nia) Hlo) as Hge.
  pose proof (fdiv_below_multiple x w (i + 1) Hx Hw ltac:(lia) HK Hhi) as Hlt.
  unfold indexOf. destruct (Z.eqb_spec w 0) as [|_]; [lia|].
  set (f := fdiv x (of_integer w)) in *.
  assert (H0 : 0 <= inject_Z i) by (change 0 with (inject_Z 0); rewrite <- Zle_Qle; done).
  assert (Hmax : inject_Z (i + 1) <= inject_Z size_t_modulus).
  { rewrite <- Zle_Qle. unfold size_t_modulus. nia. }
  unfold to_size_t.
  destruct (Qltb (-1) f) eqn:E1; [|apply Qltb_false in E1; lra].
  destruct (Qltb f (inject_Z size_t_modulus)) eqn:E2; [|apply Qltb_false in E2; lra].
  simpl. f_equal. rewrite truncate_floor by lra.
  apply Qfloor_iff. split; done.
Qed.

(** Conversely, the cell a float coordinate is put in tells where the
    coordinate is. *)
Lemma indexOf_below (x : Q) (w i : Z) :
  (0 < w <= 2 ^ 24)%Z -> (i + 1 <= 2 ^ 24)%Z ->
  indexOf x w = Done i -> x < inject_Z ((i + 1) * w).
Proof.
  intros Hw Hi Hidx. pose proof (indexOf_range _ _ _ Hidx) as [Hi0 _].
  apply indexOf_Done in Hidx as (_ & Heq & Hlo).
  destruct (Qlt_le_dec x (inject_Z ((i + 1) * w))) as [|Hge]; [done|exfalso].
  assert (Hk : (Z.abs (i + 1) <= 2 ^ 24)%Z) by lia.
  pose proof (fdiv_above_multiple x w (i + 1) Hw Hk Hge) as H.
  assert (Hpos : -1 < inject_Z (i + 1)).
  { apply Qlt_le_trans with 0; [reflexivity|].
    change 0 with (inject_Z 0). rewrite <- Zle_Qle. lia. }
  pose proof (truncate_mono _ _ Hpos H) as Hm.
  rewrite truncate_inject in Hm. lia.
Qed.

Lemma indexOf_above (x : Q) (w i : Z) :
  is_float x -> (0 < w)%Z -> (1 <= i)%Z -> (i * w <= 2 ^ 24)%Z ->
  indexOf x w = Done i -> inject_Z (i * w) <= x.
Proof.
  intros Hx Hw Hi HK Hidx. apply indexOf_Done in Hidx as (_ & Heq & Hlo).
  destruct (Qlt_le_dec x (inject_Z (i * w))) as [Hlt|]; [exfalso|done].
  pose proof (fdiv_below_multiple x w i Hx Hw ltac:(lia) HK Hlt) as H.
  pose proof (truncate_below _ i ltac:(lia) Hlo H). lia.
Qed.

(** ** The distance test of the lattice *)

Lemma square_ge (r d : Q) : 0 <= r -> (r <= d \/ d <= - r) -> r * r <= d * d.
Proof. intros Hr [H|H]; nra. Qed.

(** A difference of at least the radius fails the test on its own. *)
Lemma fmul_fsub_far (a b r : Q) :
  is_float r -> 0 <= r -> (r <= a - b \/ a - b <= - r) ->
  fmul r r <= fmul (fsub a b) (fsub a b).
Proof.
  intros Hf Hr Hfar. unfold fmul. apply to_float_mono. apply square_ge; [done|].
  unfold fsub. destruct Hfar as [H|H].
  - left. rewrite <- (to_float_id r Hf). apply to_float_mono. done.
  - right. assert (Hn : is_float (- r)) by (apply representable_opp; done).
    rewrite <- (to_float_id (- r) Hn). apply to_float_mono. done.
Qed.

Lemma fmul_square_nonneg (d : Q) : 0 <= fmul d d.
Proof. unfold fmul. apply rnd_nonneg. nra. Qed.

Lemma fadd_ge_l (a b : Q) : is_float a -> 0 <= b -> a <= fadd a b.
Proof.
  intros Ha Hb. unfold fadd. rewrite <- (to_float_id a Ha) at 1.
  apply to_float_mono. lra.
Qed.

Lemma fadd_ge_r (a b : Q) : is_float b -> 0 <= a -> b <= fadd a b.
Proof.
  intros Hb Ha. unfold fadd. rewrite <- (to_float_id b Hb) at 1.
  apply to_float_mono. lra.
Qed.

(** A boid that passes the test of [query] is closer to the centre than the
    radius on each axis. *)
Lemma test_within_axis (bx by_ cx cy r : Q) :
  is_float r -> 0 <= r ->
  Qltb (fadd (fmul (fsub bx cx) (fsub bx cx)) (fmul (fsub by_ cy) (fsub by_ cy)))
       (fmul r r) = true ->
  (- r < bx - cx /\ bx - cx < r) /\ (- r < by_ - cy /\ by_ - cy < r).
Proof.
  intros Hf Hr Htest. apply Qltb_lt in Htest.
  assert (Hx : ~ (r <= bx - cx \/ bx - cx <= - r)).
  { intros Hfar. pose proof (fmul_fsub_far bx cx r Hf Hr Hfar) as H1.
    pose proof (fadd_ge_l (fmul (fsub bx cx) (fsub bx cx)) (fmul (fsub by_ cy) (fsub by_ cy))
                  (to_float_is_float _) (fmul_square_nonneg _)) as H2.
    lra. }
  assert (Hy : ~ (r <= by_ - cy \/ by_ - cy <= - r)).
  { intros Hfar. pose proof (fmul_fsub_far by_ cy r Hf Hr Hfar) as H1.
    pose proof (fadd_ge_r (fmul (fsub bx cx) (fsub bx cx)) (fmul (fsub by_ cy) (fsub by_ cy))
                  (to_float_is_float _) (fmul_square_nonneg _)) as H2.
    lra. }
  split; split; apply Qnot_le_lt; intros H; (apply Hx || apply Hy); tauto.
Qed.

(** Two float coordinates less than one cell size apart, the first in a world
    of at most [2^24], fall in the same cell or in adjacent cells. *)
Lemma cells_adjacent (w : Z) (bx cx : Q) (ib ic : Z) :
  is_float bx -> is_float cx -> (0 < w)%Z -> ((ib + 2) * w <= 2 ^ 24)%Z ->
  indexOf bx w = Done ib -> indexOf cx w = Done ic ->
  bx - cx < inject_Z w -> cx - bx < inject_Z w ->
  (ib - 1 <= ic <= ib + 1)%Z.
Proof.
  intros Hb Hc Hw HK Hib Hic H1 H2.
  pose proof (indexOf_range _ _ _ Hib) as [Hib0 _].
  pose proof (indexOf_range _ _ _ Hic) as [Hic0 _].
  assert (Hw24 : (0 < w <= 2 ^ 24)%Z) by nia.
  pose proof (indexOf_below bx w ib Hw24 ltac:(nia) Hib) as Hbhi.
  apply indexOf_Done in Hic as (_ & -> & Hlo).
  split.
  - destruct (Z.le_gt_cases ib 1) as [Hsmall|Hbig].
    + pose proof (truncate_nonneg _ Hlo). lia.
    + pose proof (indexOf_above bx w ib Hb Hw ltac:(lia) ltac:(nia) Hib) as Hblo.
      assert (Hcx : inject_Z ((ib - 1) * w) <= cx).
      { rewrite inject_Z_mult in *. unfold Z.sub. rewrite inject_Z_plus.
        change (inject_Z (- (1))) with (-1). lra. }
      pose proof (fdiv_above_multiple cx w (ib - 1) Hw24 ltac:(nia) Hcx) as Hge.
      assert (Hpos : -1 < inject_Z (ib - 1)).
      { apply Qlt_le_trans with 0; [reflexivity|].
        change 0 with (inject_Z 0). rewrite <- Zle_Qle. lia. }
      pose proof (truncate_mono _ _ Hpos Hge) as Hm. rewrite truncate_inject in Hm. done.
  - assert (Hcx : cx < inject_Z ((ib + 2) * w)).
    { rewrite inject_Z_mult in *. rewrite !inject_Z_plus in *.
      change (inject_Z 2) with 2. change (inject_Z 1) with 1 in Hbhi. lra. }
    pose proof (fdiv_below_multiple cx w (ib + 2) Hc Hw ltac:(lia) HK Hcx) as Hlt.
    pose proof (truncate_below _ (ib + 2) ltac:(lia) Hlo Hlt). lia.
Qed.

(** A float coordinate of a world of at most [2^24], [0 <= v < n * w], falls
    in one of the [n] cells. *)
Lemma indexOf_in_world (v : Q) (w n : Z) :
  is_float v -> (0 < w)%Z -> (0 < n)%Z -> (n * w <= 2 ^ 24)%Z ->
  0 <= v -> v < inject_Z (n * w) ->
  exists i, indexOf v w = Done i /\ (0 <= i < n)%Z.
Proof.
  intros Hf Hw Hn HK Hlo Hhi.
  destruct (Qdiv_cell v w 0 Hw) as [Hz _]. destruct (Qdiv_cell v w n Hw) as [_ Hup].
  change (inject_Z 0) with 0 in Hz. change (inject_Z (0 * w)) with 0 in Hz.
  apply Hz in Hlo. apply Hup in Hhi.
  set (q := v / inject_Z w) in *.
  assert (Hi : (0 <= Qfloor q < n)%Z).
  { split.
    - pose proof (Qfloor_resp_le _ _ Hlo) as H0. exact H0.
    - pose proof (Qfloor_le q) as Hfl.
      assert (Hlt : inject_Z (Qfloor q) < inject_Z n) by lra.
      rewrite <- Zlt_Qlt in Hlt. done. }
  exists (Qfloor q). split; [|done].
  pose proof (proj1 (Qfloor_iff q (Qfloor q)) eq_refl) as [Flo Fhi].
  apply indexOf_exact; [done|done|lia|nia| |].
  - apply (Qdiv_cell v w (Qfloor q) Hw). done.
  - apply (Qdiv_cell v w (Qfloor q + 1) Hw). done.
Qed.

Lemma fdiv_opp (v w : Q) : fdiv (- v) w == - fdiv v w.
Proof.
  unfold fdiv, to_float. rewrite <- rnd_opp.
  rewrite (rnd_proper 24 (-149) (- v / w) (- (v / w))); [reflexivity|].
  unfold Qdiv. ring.
Qed.

(** From one cell size below zero on, the conversion is undefined. *)
Lemma indexOf_below_world (v : Q) (w : Z) :
  (0 < w <= 2 ^ 24)%Z -> v <= - inject_Z w -> indexOf v w = Undefined BadFloatToIndex.
Proof.
  intros Hw Hv. unfold indexOf. destruct (Z.eqb_spec w 0) as [|_]; [lia|].
  assert (Hf : fdiv v (of_integer w) <= -1).
  { rewrite fdiv_cell_size by done.
    change (-1) with (inject_Z (-1)).
    rewrite <- (to_float_id (inject_Z (-1))) by (apply is_float_integer; vm_compute; discriminate).
    apply to_float_mono. apply Qle_shift_div_r; [apply inject_Z_pos; lia|].
    change (inject_Z (-1)) with (-1). lra. }
  unfold to_size_t. destruct (Qltb (-1) _) eqn:E; [apply Qltb_lt in E; lra|reflexivity].
Qed.

(** The cell of a float coordinate under the conversion to [size_t], which
    rounds towards zero: cell [i] is one cell size wide, and cell 0 also takes
    the coordinates less than one cell size below zero. *)
Lemma indexOf_cell (v : Q) (w i : Z) :
  is_float v -> (0 < w)%Z -> (0 <= i)%Z -> ((i + 1) * w <= 2 ^ 24)%Z ->
  indexOf v w = Done i
  <-> (inject_Z (i * w) <= v /\ v < inject_Z ((i + 1) * w))
      \/ (i = 0%Z /\ - inject_Z w < v /\ v < 0).
Proof.
  intros Hf Hw Hi HK. assert (Hw24 : (0 < w <= 2 ^ 24)%Z) by nia.
  split.
  - intros Hidx. pose proof (indexOf_below v w i Hw24 ltac:(nia) Hidx) as Hhi.
    destruct (Z.eq_dec i 0%Z) as [->|Hne].
    + destruct (Qlt_le_dec v 0) as [Hneg|Hpos]; [right|left; split; done].
      split; [done|]. split; [|done].
      destruct (Qlt_le_dec (- inject_Z w) v) as [|Hle]; [done|].
      rewrite (indexOf_below_world v w Hw24 Hle) in Hidx. discriminate.
    + left. split; [|done]. apply indexOf_above; [done|done|lia|nia|done].
  - intros [[Hlo Hhi]|(-> & Hlo & Hhi)]; [apply indexOf_exact; done|].
    assert (Hneg : is_float (- v)) by (apply representable_opp; done).
    pose proof (fdiv_below_multiple (- v) w 1 Hneg Hw ltac:(lia) ltac:(lia)) as Hup.
    rewrite Z.mul_1_l in Hup. specialize (Hup ltac:(lra)).
    rewrite fdiv_opp in Hup. change (inject_Z 1) with 1 in Hup.
    assert (Hnp : fdiv v (of_integer w) <= 0).
    { rewrite fdiv_cell_size by done. apply rnd_nonpos.
      apply Qle_shift_div_r; [apply inject_Z_pos; done|]. lra. }
    unfold indexOf. destruct (Z.eqb_spec w 0) as [|_]; [lia|].
    set (f := fdiv v (of_integer w)) in *.
    unfold to_size_t.
    destruct (Qltb (-1) f) eqn:E1; [|apply Qltb_false in E1; lra].
    destruct (Qltb f (inject_Z size_t_modulus)) eqn:E2;
      [|apply Qltb_false in E2; assert (0 < inject_Z size_t_modulus) by reflexivity; lra].
    simpl. f_equal.
    destruct (Qlt_le_dec f 0) as [Hlt|Hge].
    + apply truncate_small_neg; lra.
    + rewrite truncate_floor by done. apply Qfloor_iff. change (inject_Z (0 + 1)) with 1.
      change (inject_Z 0) with 0. split; lra.
Qed.

(** The floor of the rounded quotient, for a float coordinate that is not
    negative: the cell of the exact quotient. *)
Lemma floor_fdiv_cell (v : Q) (w i : Z) :
  is_float v -> (0 < w)%Z -> (0 <= i)%Z -> ((i + 1) * w <= 2 ^ 24)%Z -> 0 <= v ->
  Qfloor (fdiv v (of_integer w)) = i
  <-> inject_Z (i * w) <= v /\ v < inject_Z ((i + 1) * w).
Proof.
  intros Hf Hw Hi HK Hv. assert (Hw24 : (0 < w <= 2 ^ 24)%Z) by nia.
  rewrite Qfloor_iff. split.
  - intros [Hlo Hhi]. split.
    + destruct (Z.eq_dec i 0%Z) as [->|Hne]; [done|].
      destruct (Qlt_le_dec v (inject_Z (i * w))) as [Hlt|]; [exfalso|done].
      pose proof (fdiv_below_multiple v w i Hf Hw ltac:(lia) ltac:(nia) Hlt). lra.
    + destruct (Qlt_le_dec v (inject_Z ((i + 1) * w))) as [|Hge]; [done|exfalso].
      pose proof (fdiv_above_multiple v w (i + 1) Hw24 ltac:(nia) Hge). lra.
  - intros [Hlo Hhi]. split.
    + apply fdiv_above_multiple; [done|nia|done].
    + apply fdiv_below_multiple; [done|done|lia|done|done].
Qed.
End CellFacts.

(** ** BinLattice: insertion and the 3 x 3 scan *)

Module LatticeFacts.
Import BinLattice Scenario RoundingFacts CellFacts.

Section Insertion.
Variables WIDTH HEIGHT BINS BIN_SIZE : Z.

(** No step of [addBoid] raises an error. *)
Lemma obind_not_Raise {A B : Type} (m : outcome A) (k : A -> outcome B) e :
  (forall e', m <> Raise e') -> (forall a e', k a <> Raise e') -> obind m k <> Raise e.
Proof.
  intros Hm Hk. destruct m as [a|e0|f]; simpl; [apply Hk| |discriminate].
  exfalso. apply (Hm e0). reflexivity.
Qed.

Lemma read_not_Raise {A : Type} f (l : list A) i e : read f l i <> Raise e.
Proof. unfold read. destruct (l !! i); discriminate. Qed.

Lemma to_size_t_not_Raise f e : to_size_t f <> Raise e.
Proof. unfold to_size_t. destruct (_ && _); discriminate. Qed.

Lemma indexOf_not_Raise c size e : indexOf c size <> Raise e.
Proof. unfold indexOf. destruct (_ =? _)%Z; [discriminate|apply to_size_t_not_Raise]. Qed.

Lemma deref_not_Raise boids ptr e : deref boids ptr <> Raise e.
Proof. destruct ptr; simpl; [apply read_not_Raise|discriminate]. Qed.

Lemma addBoid_not_Raise boids boid lattice e :
  addBoid WIDTH HEIGHT BINS boids boid lattice <> Raise e.
Proof.
  unfold addBoid.
  apply obind_not_Raise; [intros; apply deref_not_Raise|]. intros b ?.
  apply obind_not_Raise; [intros; apply indexOf_not_Raise|]. intros xI ?.
  apply obind_not_Raise; [intros; apply indexOf_not_Raise|]. intros yI ?.
  apply obind_not_Raise; [intros; apply read_not_Raise|]. intros row ?.
  apply obind_not_Raise; [intros; apply read_not_Raise|]. intros bin ?.
  destruct (_ <? _); discriminate.
Qed.

(** C3, as amended.  [addBoid] never raises an error, [CapacityExceeded]
    included.  When the boid's position maps to a bin of the lattice that
    holds fewer than [BIN_SIZE] boids, the pointer is stored in the bin's next
    free slot, inside the array, the bin's count grows by one, and every
    other bin is unchanged. *)
Theorem addBoid_within_capacity (boids : list Boid) (boid : BoidPtr)
    (lattice : Lattice) (b : Boid) (xIndex yIndex : Z) (row : list Bin) (bin : Bin) :
  deref boids boid = Done b ->
  xIndexOf WIDTH BINS (position b) = Done xIndex ->
  yIndexOf HEIGHT BINS (position b) = Done yIndex ->
  lattice !! Z.to_nat xIndex = Some row ->
  row !! Z.to_nat yIndex = Some bin ->
  length (first bin) = Z.to_nat BIN_SIZE ->
  (Z.of_nat (second bin) < BIN_SIZE)%Z ->
  (forall e, addBoid WIDTH HEIGHT BINS boids boid lattice <> Raise e)
  /\ exists lattice',
       addBoid WIDTH HEIGHT BINS boids boid lattice = Done lattice'
       /\ binAt lattice' xIndex yIndex
          = Done (mkBin (<[second bin := boid]> (first bin)) (S (second bin)))
       /\ (<[second bin := boid]> (first bin)) !! second bin = Some boid
       /\ length (<[second bin := boid]> (first bin)) = Z.to_nat BIN_SIZE
       /\ forall x' y', (x' <> xIndex \/ y' <> yIndex) -> (0 <= x')%Z -> (0 <= y')%Z ->
            binAt lattice' x' y' = binAt lattice x' y'.
Proof.
  intros Hb Hx Hy Hrow Hbin Hlen Hcap.
  split; [intros e; apply addBoid_not_Raise|].
  assert (Hlt : second bin < length (first bin)) by lia.
  eexists. split; [|split; [|split; [|split]]].
  - unfold addBoid. rewrite Hb. simpl. rewrite Hx. simpl. rewrite Hy. simpl.
    unfold read. rewrite Hrow. simpl. rewrite Hbin. simpl.
    destruct (Nat.ltb_spec (second bin) (length (first bin))); [reflexivity|lia].
  - unfold binAt, read.
    rewrite list_lookup_insert_eq by (eapply lookup_lt_Some; exact Hrow). simpl.
    rewrite list_lookup_insert_eq by (eapply lookup_lt_Some; exact Hbin). reflexivity.
  - apply list_lookup_insert_eq. done.
  - rewrite length_insert. done.
  - intros x' y' Hne Hx' Hy'. unfold binAt, read.
    destruct (decide (Z.to_nat x' = Z.to_nat xIndex)) as [Hxe|Hxne].
    + rewrite Hxe.
      rewrite list_lookup_insert_eq by (eapply lookup_lt_Some; exact Hrow).
      rewrite Hrow. simpl.
      assert (0 <= xIndex)%Z by (apply indexOf_range in Hx; lia).
      assert (0 <= yIndex)%Z by (apply indexOf_range in Hy; lia).
      rewrite list_lookup_insert_ne by lia. reflexivity.
    + rewrite list_lookup_insert_ne by lia. reflexivity.
Qed.
End Insertion.

(** C3, as amended, on the first insertion into the lattice of main.cpp. *)
Lemma addBoid_within_capacity_witness :
  exists lattice',
    addBoid WINDOW_WIDTH WINDOW_HEIGHT NUMBER_BINS [at_ 500 500] (Some 0) emptyLattice
    = Done lattice'
    /\ binAt lattice' 10 10 = Done (mkBin (<[0 := Some 0]> (replicate 100 None)) 1).
Proof.
  destruct (addBoid_within_capacity WINDOW_WIDTH WINDOW_HEIGHT NUMBER_BINS MAX_BOIDS_PER_BIN
              [at_ 500 500] (Some 0) emptyLattice (at_ 500 500) 10 10
              (replicate 20 (mkBin (replicate 100 None) 0))
              (mkBin (replicate 100 None) 0)
              eq_refl
              ltac:(vm_compute; reflexivity)
              ltac:(vm_compute; reflexivity)
              ltac:(vm_compute; reflexivity)
              ltac:(vm_compute; reflexivity)
              eq_refl
              ltac:(vm_compute; reflexivity))
    as [_ (lattice' & Hadd & Hbin & _)].
  exists lattice'. split; [exact Hadd|exact Hbin].
Defined.



(** *** The lattice after the frame loop, and what the query returns *)


Section Grid.
Variables WIDTH HEIGHT BINS BIN_SIZE : Z.


(** The constructed lattice is well formed, and [addBoid] keeps it so. *)
Lemma create_wellFormed boids :
  (0 <= BIN_SIZE)%Z -> wellFormed WIDTH HEIGHT BINS BIN_SIZE boids 0 (create BINS BIN_SIZE).
Proof.
  intros HB. unfold create. split.
  - apply length_replicate.
  - intros i row Hrow. apply lookup_replicate in Hrow as [-> _]. apply length_replicate.
  - intros i j bin Hbin. unfold binOf in Hbin.
    destruct (replicate _ _ !! i) as [row|] eqn:Hrow; [|discriminate].
    apply lookup_replicate in Hrow as [-> _].
    apply lookup_replicate in Hbin as [-> _]. simpl. rewrite length_replicate. lia.
  - intros i j bin k ptr Hbin Hk. unfold binOf in Hbin.
    destruct (replicate _ _ !! i) as [row|] eqn:Hrow; [|discriminate].
    apply lookup_replicate in Hrow as [-> _].
    apply lookup_replicate in Hbin as [-> _]. simpl in Hk. lia.
  - intros a Ha. lia.
Qed.

Lemma addBoid_Done_inv boids ptr (lattice lattice' : Lattice) :
  addBoid WIDTH HEIGHT BINS boids ptr lattice = Done lattice' ->
  exists b xi yi row bin,
    deref boids ptr = Done b
    /\ xIndexOf WIDTH BINS (position b) = Done xi
    /\ yIndexOf HEIGHT BINS (position b) = Done yi
    /\ lattice !! Z.to_nat xi = Some row
    /\ row !! Z.to_nat yi = Some bin
    /\ second bin < length (first bin)
    /\ lattice' = <[Z.to_nat xi := <[Z.to_nat yi :=
                     mkBin (<[second bin := ptr]> (first bin)) (S (second bin))]> row]> lattice.
Proof.
  unfold addBoid. intros Hadd.
  destruct (deref boids ptr) as [b| |] eqn:Hb; simpl in Hadd; try discriminate.
  destruct (xIndexOf WIDTH BINS (position b)) as [xi| |] eqn:Hx; simpl in Hadd; try discriminate.
  destruct (yIndexOf HEIGHT BINS (position b)) as [yi| |] eqn:Hy; simpl in Hadd; try discriminate.
  unfold read in Hadd.
  destruct (lattice !! Z.to_nat xi) as [row|] eqn:Hrow; simpl in Hadd; try discriminate.
  destruct (row !! Z.to_nat yi) as [bin|] eqn:Hbin; simpl in Hadd; try discriminate.
  destruct (Nat.ltb_spec (second bin) (length (first bin))); [|discriminate].
  injection Hadd as <-. exists b, xi, yi, row, bin. done.
Qed.

Lemma binOf_insert (lattice : Lattice) X Y row bin' i j :
  lattice !! X = Some row -> Y < length row ->
  binOf (<[X := <[Y := bin']> row]> lattice) i j
  = if decide (i = X /\ j = Y) then Some bin' else binOf lattice i j.
Proof.
  intros Hrow HY. unfold binOf.
  assert (HX : X < length lattice) by (eapply lookup_lt_Some; exact Hrow).
  destruct (decide (i = X)) as [->|Hi].
  - rewrite list_lookup_insert_eq by done. rewrite Hrow.
    destruct (decide (j = Y)) as [->|Hj].
    + rewrite list_lookup_insert_eq by done.
      destruct (decide (X = X /\ Y = Y)) as [|[]]; done.
    + rewrite list_lookup_insert_ne by done.
      destruct (decide (X = X /\ j = Y)) as [[]|]; done.
  - rewrite list_lookup_insert_ne by done.
    destruct (decide (i = X /\ j = Y)) as [[]|]; done.
Qed.

Lemma addBoid_wellFormed boids n (lattice lattice' : Lattice) :
  wellFormed WIDTH HEIGHT BINS BIN_SIZE boids n lattice ->
  addBoid WIDTH HEIGHT BINS boids (Some n) lattice = Done lattice' ->
  wellFormed WIDTH HEIGHT BINS BIN_SIZE boids (S n) lattice'.
Proof.
  intros Hwf Hadd.
  apply addBoid_Done_inv in Hadd
    as (b & xi & yi & row & bin & Hb & Hx & Hy & Hrow & Hbin & Hlt & ->).
  simpl in Hb. unfold read in Hb.
  destruct (boids !! n) as [b'|] eqn:Hn; [|discriminate]. injection Hb as ->.
  assert (HY : Z.to_nat yi < length row) by (eapply lookup_lt_Some; exact Hbin).
  assert (Hxi : (0 <= xi)%Z) by (apply indexOf_range in Hx; lia).
  assert (Hyi : (0 <= yi)%Z) by (apply indexOf_range in Hy; lia).
  assert (Hold : binOf lattice (Z.to_nat xi) (Z.to_nat yi) = Some bin)
    by (unfold binOf; rewrite Hrow; done).
  destruct Hwf as [Hrows Hcols Hcap Hsound Hcomplete].
  split.
  - rewrite length_insert. done.
  - intros i r Hr. destruct (decide (i = Z.to_nat xi)) as [->|Hi].
    + rewrite list_lookup_insert_eq in Hr by (eapply lookup_lt_Some; exact Hrow).
      injection Hr as <-. rewrite length_insert. eapply Hcols. exact Hrow.
    + rewrite list_lookup_insert_ne in Hr by done. eapply Hcols. exact Hr.
  - intros i j bin0 Hbin0. rewrite binOf_insert in Hbin0 by done.
    destruct (decide _) as [[-> ->]|_]; [|eapply Hcap; exact Hbin0].
    injection Hbin0 as <-. simpl. rewrite length_insert.
    destruct (Hcap _ _ _ Hold) as [Hlen _]. split; [done|lia].
  - intros i j bin0 k ptr Hbin0 Hk Hptr. rewrite binOf_insert in Hbin0 by done.
    destruct (decide _) as [[-> ->]|_].
    + injection Hbin0 as <-. simpl in Hk, Hptr.
      destruct (decide (k = second bin)) as [->|Hne].
      * rewrite list_lookup_insert_eq in Hptr by done. injection Hptr as <-.
        exists n, b. rewrite !Z2Nat.id by done. repeat split; (done || lia).
      * rewrite list_lookup_insert_ne in Hptr by done.
        destruct (Hsound _ _ _ k ptr Hold ltac:(lia) Hptr) as (a & b0 & ? & ? & ? & ? & ?).
        exists a, b0. repeat split; (done || lia).
    + destruct (Hsound _ _ _ k ptr Hbin0 Hk Hptr) as (a & b0 & ? & ? & ? & ? & ?).
      exists a, b0. repeat split; (done || lia).
  - intros a Ha. destruct (decide (a = n)) as [->|Hne].
    + exists b, (Z.to_nat xi), (Z.to_nat yi),
        (mkBin (<[second bin := Some n]> (first bin)) (S (second bin))), (second bin).
      rewrite !Z2Nat.id by done. rewrite binOf_insert by done.
      destruct (decide _) as [_|[]]; [|done]. simpl.
      rewrite list_lookup_insert_eq by done. repeat split; (done || lia).
    + destruct (Hcomplete a ltac:(lia)) as (b0 & i & j & bin0 & k & Hb0 & Hx0 & Hy0 & Hbin0 & Hk & Hptr).
      destruct (decide (i = Z.to_nat xi /\ j = Z.to_nat yi)) as [[-> ->]|Hij].
      * rewrite Hold in Hbin0. injection Hbin0 as <-.
        exists b0, (Z.to_nat xi), (Z.to_nat yi),
          (mkBin (<[second bin := Some n]> (first bin)) (S (second bin))), k.
        rewrite binOf_insert by done.
        destruct (decide _) as [_|[]]; [|done]. simpl.
        rewrite list_lookup_insert_ne by lia. repeat split; (done || lia).
      * exists b0, i, j, bin0, k. rewrite binOf_insert by done.
        destruct (decide _) as [|_]; [done|]. repeat split; done.
Qed.

Lemma addBoids_wellFormed boids m : forall s (lattice lattice' : Lattice),
  wellFormed WIDTH HEIGHT BINS BIN_SIZE boids s lattice ->
  addBoids WIDTH HEIGHT BINS boids (seq s m) lattice = Done lattice' ->
  wellFormed WIDTH HEIGHT BINS BIN_SIZE boids (s + m) lattice'.
Proof.
  induction m as [|m IH]; intros s lattice lattice' Hwf Hadd.
  - simpl in Hadd. injection Hadd as <-. rewrite Nat.add_0_r. done.
  - unfold addBoids in *. simpl in Hadd.
    destruct (addBoid WIDTH HEIGHT BINS boids (Some s) lattice) as [l1| |] eqn:H1;
      simpl in Hadd; try discriminate.
    replace (s + S m) with (S s + m) by lia.
    eapply IH; [|exact Hadd]. eapply addBoid_wellFormed; eassumption.
Qed.
End Grid.


Arguments deref : simpl never.

Section GridQuery.
Variables WIDTH HEIGHT BINS BIN_SIZE : Z.
Hypothesis BINS_pos : (0 < BINS <= size_t_modulus)%Z.

(** The cells scanned are cells of the lattice, and every cell of the lattice
    next to the centre cell is among them. *)
Lemma neighbour_range index d : (0 <= neighbour BINS index d < BINS)%Z.
Proof.
  unfold neighbour, clamp.
  assert (Hm : ((BINS - 1) mod size_t_modulus = BINS - 1)%Z)
    by (apply Z.mod_small; lia).
  rewrite Hm.
  pose proof (Z.mod_pos_bound (index + d) size_t_modulus ltac:(reflexivity)) as Hv.
  destruct (Z.ltb_spec ((index + d) mod size_t_modulus) 0); [lia|].
  destruct (Z.ltb_spec (BINS - 1) ((index + d) mod size_t_modulus)); lia.
Qed.

Lemma neighbour_id index d :
  (0 <= index + d < BINS)%Z -> neighbour BINS index d = (index + d)%Z.
Proof.
  intros Hr. unfold neighbour, clamp.
  rewrite (Z.mod_small (BINS - 1)) by lia.
  rewrite (Z.mod_small (index + d)) by lia.
  destruct (Z.ltb_spec (index + d) 0); [lia|].
  destruct (Z.ltb_spec (BINS - 1) (index + d)); lia.
Qed.

Lemma scannedCells_range xi yi cell :
  In cell (scannedCells BINS xi yi) ->
  (0 <= fst cell < BINS)%Z /\ (0 <= snd cell < BINS)%Z.
Proof.
  unfold scannedCells. simpl. intros Hin.
  repeat (destruct Hin as [<-|Hin]; [simpl; split; apply neighbour_range|]).
  destruct Hin.
Qed.

Lemma scannedCells_near xi yi i j :
  (0 <= i < BINS)%Z -> (0 <= j < BINS)%Z ->
  (xi - 1 <= i <= xi + 1)%Z -> (yi - 1 <= j <= yi + 1)%Z ->
  In (i, j) (scannedCells BINS xi yi).
Proof.
  intros Hi Hj Hx Hy. unfold scannedCells. simpl.
  assert (Hdx : i = (xi + -1)%Z \/ i = (xi + 0)%Z \/ i = (xi + 1)%Z) by lia.
  assert (Hdy : j = (yi + -1)%Z \/ j = (yi + 0)%Z \/ j = (yi + 1)%Z) by lia.
  destruct Hdx as [-> | [-> | ->]], Hdy as [-> | [-> | ->]];
    rewrite <- (neighbour_id xi _ Hi), <- (neighbour_id yi _ Hj); auto 12.
Qed.

(** The innermost loop returns the pointers in use that pass the test, as
    long as the result array has room for them. *)
Lemma scanBin_closed boids pos rsq bin fuel : forall i result,
  i + fuel <= length (first bin) ->
  (forall k ptr, i <= k < i + fuel -> first bin !! k = Some ptr ->
     exists b, deref boids ptr = Done b) ->
  (Z.of_nat (length result) + Z.of_nat fuel <= MaxQuerySize BIN_SIZE)%Z ->
  scanBin BIN_SIZE boids pos rsq bin fuel i result
  = Done (result ++ List.filter (within boids pos rsq) (take fuel (drop i (first bin)))).
Proof.
  induction fuel as [|fuel IH]; intros i result Hlen Hok Hcap; simpl.
  - rewrite app_nil_r. reflexivity.
  - destruct (lookup_lt_is_Some_2 (first bin) i ltac:(lia)) as [ptr Hptr].
    unfold read. rewrite Hptr. simpl.
    destruct (Hok i ptr ltac:(lia) Hptr) as [b Hb]. rewrite Hb. simpl.
    assert (Hw : within boids pos rsq ptr
                 = Qltb (fadd (fmul (fsub (x (boid_position b)) (x pos))
                                    (fsub (x (boid_position b)) (x pos)))
                              (fmul (fsub (y (boid_position b)) (y pos))
                                    (fsub (y (boid_position b)) (y pos))))
                     rsq)
      by (unfold within; rewrite Hb; reflexivity).
    rewrite (drop_S _ _ _ Hptr). simpl. rewrite Hw.
    destruct (Qltb _ rsq).
    + destruct (Z.ltb_spec (Z.of_nat (length result)) (MaxQuerySize BIN_SIZE)); [|lia].
      rewrite IH.
      * rewrite <- app_assoc. reflexivity.
      * lia.
      * intros k p Hk. apply Hok. lia.
      * rewrite length_app. simpl. lia.
    + rewrite IH; [reflexivity|lia| |lia]. intros k p Hk. apply Hok. lia.
Qed.
End GridQuery.

Section GridTheorem.
Variables WIDTH HEIGHT BINS BIN_SIZE : Z.
Hypothesis BINS_range : (0 < BINS <= size_t_modulus)%Z.
Hypothesis BIN_SIZE_nonneg : (0 <= BIN_SIZE)%Z.

Lemma binAt_binOf (lattice : Lattice) i j bin :
  binOf lattice (Z.to_nat i) (Z.to_nat j) = Some bin -> binAt lattice i j = Done bin.
Proof.
  unfold binOf, binAt, read. intros Hb.
  destruct (lattice !! Z.to_nat i) as [row|]; [|discriminate]. simpl. rewrite Hb. reflexivity.
Qed.

Lemma wellFormed_binOf boids n (lattice : Lattice) i j :
  wellFormed WIDTH HEIGHT BINS BIN_SIZE boids n lattice ->
  i < Z.to_nat BINS -> j < Z.to_nat BINS -> exists bin, binOf lattice i j = Some bin.
Proof.
  intros Hwf Hi Hj. unfold binOf.
  destruct (lookup_lt_is_Some_2 lattice i) as [row Hrow].
  { rewrite (wf_rows _ _ _ _ _ _ _ Hwf). done. }
  rewrite Hrow. apply lookup_lt_is_Some_2.
  rewrite (wf_cols _ _ _ _ _ _ _ Hwf i row Hrow). done.
Qed.

Lemma scanCell_length boids n (lattice : Lattice) pos rsq cell :
  wellFormed WIDTH HEIGHT BINS BIN_SIZE boids n lattice ->
  (Z.of_nat (length (scanCell boids lattice pos rsq cell)) <= BIN_SIZE)%Z.
Proof.
  intros Hwf. unfold scanCell.
  destruct (binOf _ _ _) as [bin|] eqn:Hbin; [|simpl; lia].
  destruct (wf_cap _ _ _ _ _ _ _ Hwf _ _ _ Hbin) as [Hlen Hsec].
  pose proof (filter_length_le (within boids pos rsq) (take (second bin) (first bin))) as Hf.
  rewrite length_take in Hf. lia.
Qed.

(** The nine scans append what each cell contributes: 9 bins of at most
    [BIN_SIZE] pointers fit in [MaxQuerySize]. *)
Lemma forEach_scan boids n (lattice : Lattice) pos rsq cells :
  wellFormed WIDTH HEIGHT BINS BIN_SIZE boids n lattice ->
  (forall cell, In cell cells -> (0 <= fst cell < BINS)%Z /\ (0 <= snd cell < BINS)%Z) ->
  forall result,
    (Z.of_nat (length result) + Z.of_nat (length cells) * BIN_SIZE
     <= MaxQuerySize BIN_SIZE)%Z ->
    forEach cells
      (fun result cell =>
         let* bin := binAt lattice (fst cell) (snd cell) in
         scanBin BIN_SIZE boids pos rsq bin (second bin) 0 result)
      result
    = Done (result ++ concat (map (scanCell boids lattice pos rsq) cells)).
Proof.
  intros Hwf. induction cells as [|cell cells IH]; intros Hrange result Hcap.
  - simpl. rewrite app_nil_r. reflexivity.
  - destruct (Hrange cell (or_introl eq_refl)) as [Hx Hy].
    destruct (wellFormed_binOf boids n lattice (Z.to_nat (fst cell)) (Z.to_nat (snd cell)) Hwf)
      as [bin Hbin]; [lia|lia|].
    destruct (wf_cap _ _ _ _ _ _ _ Hwf _ _ _ Hbin) as [Hlen Hsec].
    pose proof (scanCell_length boids n lattice pos rsq cell Hwf) as Hcell.
    simpl in Hcap |- *. rewrite (binAt_binOf _ _ _ _ Hbin). simpl.
    rewrite (scanBin_closed BIN_SIZE); [| lia | | nia].
    + rewrite drop_0.
      assert (Hsc : scanCell boids lattice pos rsq cell
                    = List.filter (within boids pos rsq) (take (second bin) (first bin)))
        by (unfold scanCell; rewrite Hbin; reflexivity).
      rewrite <- Hsc. simpl. rewrite IH.
      * rewrite <- app_assoc. reflexivity.
      * intros c Hc. apply Hrange. right. done.
      * rewrite length_app. nia.
    + intros k ptr Hk Hptr.
      destruct (wf_sound _ _ _ _ _ _ _ Hwf _ _ _ k ptr Hbin ltac:(lia) Hptr)
        as (a & b & -> & _ & Hb & _).
      exists b. unfold deref, read. rewrite Hb. reflexivity.
Qed.

(** What the scanned cells contribute, as a set.  The world is at most
    [2^24] wide and high, one more column and row included, so that the
    quotient of a coordinate by the cell size is not rounded across a cell
    boundary; the positions and the radius are float values; the radius is at
    most the cell size.  Then a pointer is contributed exactly when it points
    to one of the boids added so far that passes the test of [query]: a boid
    that passes the test is less than the radius away on each axis, and so in
    a cell next to the centre cell. *)
Lemma scan_members boids n (lattice : Lattice) centre radius xIndex yIndex :
  (0 < WIDTH / BINS)%Z -> (0 < HEIGHT / BINS)%Z ->
  ((BINS + 1) * (WIDTH / BINS) <= 2 ^ 24)%Z -> ((BINS + 1) * (HEIGHT / BINS) <= 2 ^ 24)%Z ->
  Forall (fun b => is_float2 (position b)) boids -> is_float2 centre -> is_float radius ->
  wellFormed WIDTH HEIGHT BINS BIN_SIZE boids n lattice ->
  (0 <= radius)%Q ->
  (radius <= inject_Z (WIDTH / BINS))%Q -> (radius <= inject_Z (HEIGHT / BINS))%Q ->
  xIndexOf WIDTH BINS centre = Done xIndex ->
  yIndexOf HEIGHT BINS centre = Done yIndex ->
  forall ptr,
    In ptr (concat (map (scanCell boids lattice centre (fmul radius radius))
                      (scannedCells BINS xIndex yIndex)))
    <-> exists a, ptr = Some a /\ a < n
          /\ within boids centre (fmul radius radius) (Some a) = true.
Proof.
  intros Hw Hh Hww Hwh Hfb [Hfcx Hfcy] Hfr Hwf Hr Hrw Hrh Hx Hy ptr.
  rewrite in_concat. split.
  - intros (l & Hl & Hin). apply in_map_iff in Hl as (cell & <- & Hcell).
    unfold scanCell in Hin.
    destruct (binOf _ _ _) as [bin|] eqn:Hbin; [|destruct Hin].
    apply filter_In in Hin as [Hin Hwithin].
    apply list_elem_of_In, elem_of_take in Hin as (k & Hk & Hlt).
    destruct (wf_sound _ _ _ _ _ _ _ Hwf _ _ _ k ptr Hbin Hlt Hk)
      as (a & b & -> & Ha & Hb & _).
    exists a. done.
  - intros (a & -> & Ha & Hwithin).
    destruct (wf_complete _ _ _ _ _ _ _ Hwf a Ha)
      as (b & i & j & bin & k & Hb & Hbx & Hby & Hbin & Hk & Hptr).
    exists (scanCell boids lattice centre (fmul radius radius) (Z.of_nat i, Z.of_nat j)).
    split.
    + apply in_map.
      assert (Hi : i < Z.to_nat BINS).
      { rewrite <- (wf_rows _ _ _ _ _ _ _ Hwf). unfold binOf in Hbin.
        destruct (lattice !! i) eqn:Hrow; [|discriminate]. eapply lookup_lt_Some. exact Hrow. }
      assert (Hj : j < Z.to_nat BINS).
      { unfold binOf in Hbin. destruct (lattice !! i) as [row|] eqn:Hrow; [|discriminate].
        rewrite <- (wf_cols _ _ _ _ _ _ _ Hwf i row Hrow). eapply lookup_lt_Some. exact Hbin. }
      assert (Hfloat : is_float2 (position b))
        by (apply (Forall_lookup_1 _ _ _ _ Hfb Hb)).
      destruct Hfloat as [Hfbx Hfby].
      unfold within, deref, read in Hwithin. rewrite Hb in Hwithin.
      apply (test_within_axis _ _ _ _ _ Hfr Hr) in Hwithin as [[Hx1 Hx2] [Hy1 Hy2]].
      unfold xIndexOf in Hx, Hbx. unfold yIndexOf in Hy, Hby.
      assert (Hiw : ((Z.of_nat i + 2) * (WIDTH / BINS) <= 2 ^ 24)%Z) by nia.
      assert (Hjh : ((Z.of_nat j + 2) * (HEIGHT / BINS) <= 2 ^ 24)%Z) by nia.
      assert (Hcx : (Z.of_nat i - 1 <= xIndex <= Z.of_nat i + 1)%Z).
      { apply (cells_adjacent (WIDTH / BINS) _ _ _ _ Hfbx Hfcx Hw Hiw Hbx Hx);
          unfold position, Boid_Positioned; clear - Hx1 Hx2 Hrw; lra. }
      assert (Hcy : (Z.of_nat j - 1 <= yIndex <= Z.of_nat j + 1)%Z).
      { apply (cells_adjacent (HEIGHT / BINS) _ _ _ _ Hfby Hfcy Hh Hjh Hby Hy);
          unfold position, Boid_Positioned; clear - Hy1 Hy2 Hrh; lra. }
      apply (scannedCells_near BINS BINS_range); lia.
    + unfold scanCell. simpl. rewrite !Nat2Z.id, Hbin.
      apply filter_In. split.
      * apply list_elem_of_In, elem_of_take. exists k. done.
      * done.
Qed.

(** X1.  The part of C1 that holds.  The world, one more column and row
    included, is at most [2^24] wide and high; the positions of the boids,
    the centre and the radius are float values; the boids of the store are
    added by the frame loop, every insertion being in range and within
    capacity; the radius is non-negative and at most the cell size on both
    axes; the centre converts to cell indices.  Then [query] answers, and a
    pointer is in its result exactly when it points to a boid of the store
    that passes the distance test of [query], the test being computed in
    single precision as [query] computes it: the nine cells hide no boid that
    a scan of the whole store would report, and show none that it would not.
    How often a pointer is reported is not stated. *)
Theorem lattice_query_set_exact (boids : list Boid) (lattice : Lattice)
    (centre : float2) (radius : float) (xIndex yIndex : Z) :
  (0 < WIDTH / BINS)%Z -> (0 < HEIGHT / BINS)%Z ->
  ((BINS + 1) * (WIDTH / BINS) <= 2 ^ 24)%Z -> ((BINS + 1) * (HEIGHT / BINS) <= 2 ^ 24)%Z ->
  Forall (fun b => is_float2 (position b)) boids -> is_float2 centre -> is_float radius ->
  addBoids WIDTH HEIGHT BINS boids (seq 0 (length boids)) (create BINS BIN_SIZE)
    = Done lattice ->
  (0 <= radius)%Q ->
  (radius <= inject_Z (WIDTH / BINS))%Q -> (radius <= inject_Z (HEIGHT / BINS))%Q ->
  xIndexOf WIDTH BINS centre = Done xIndex ->
  yIndexOf HEIGHT BINS centre = Done yIndex ->
  exists result,
    query WIDTH HEIGHT BINS BIN_SIZE boids lattice centre radius = Done result
    /\ forall ptr, In ptr result <->
         exists a, ptr = Some a
           /\ within boids centre (fmul radius radius) (Some a) = true.
Proof.
  intros Hw Hh Hww Hwh Hfb Hfc Hfr Hadd Hr Hrw Hrh Hx Hy.
  assert (Hwf : wellFormed WIDTH HEIGHT BINS BIN_SIZE boids (length boids) lattice).
  { apply (addBoids_wellFormed _ _ _ _ boids (length boids) 0 _ _
             (create_wellFormed _ _ _ _ boids BIN_SIZE_nonneg) Hadd). }
  unfold query. rewrite Hx, Hy.
  change (obind (Done xIndex) ?k) with (k xIndex). cbv beta.
  change (obind (Done yIndex) ?k) with (k yIndex). cbv beta.
  rewrite (forEach_scan boids (length boids) lattice centre _ _ Hwf).
  2: { intros cell Hc. apply (scannedCells_range BINS BINS_range xIndex yIndex). done. }
  2: { unfold scannedCells, MaxQuerySize. simpl. lia. }
  eexists. split; [reflexivity|]. rewrite app_nil_l. intros ptr.
  rewrite (scan_members boids (length boids) lattice centre radius xIndex yIndex
             Hw Hh Hww Hwh Hfb Hfc Hfr Hwf Hr Hrw Hrh Hx Hy ptr).
  split.
  - intros (a & -> & _ & Hwi). exists a. done.
  - intros (a & -> & Hwi). exists a. split; [done|]. split; [|done].
    unfold within, deref, read in Hwi.
    destruct (boids !! a) eqn:Hb; [|discriminate]. eapply lookup_lt_Some. exact Hb.
Qed.
End GridTheorem.

(** At index 0 the neighbour at offset -1 is the last index: the unsigned sum
    wraps around before it is clamped. *)
Lemma neighbour_wraps_below_zero (BINS : Z) :
  (0 < BINS <= size_t_modulus)%Z -> neighbour BINS 0 (-1) = (BINS - 1)%Z.
Proof.
  intros HB. unfold neighbour, clamp.
  rewrite (Z.mod_small (BINS - 1)) by lia.
  change ((0 + -1) mod size_t_modulus)%Z with (size_t_modulus - 1)%Z.
  destruct (Z.ltb_spec (size_t_modulus - 1) 0) as [Hneg|_];
    [unfold size_t_modulus in Hneg; lia|].
  destruct (Z.ltb_spec (BINS - 1) (size_t_modulus - 1)); lia.
Qed.

(** At the last index the neighbour at offset 1 is the last index again. *)
Lemma neighbour_repeats_last_cell (BINS : Z) :
  (0 < BINS < size_t_modulus)%Z ->
  neighbour BINS (BINS - 1) 1 = neighbour BINS (BINS - 1) 0.
Proof.
  intros HB. unfold neighbour, clamp.
  rewrite (Z.mod_small (BINS - 1)) by lia.
  rewrite (Z.mod_small (BINS - 1 + 1)) by lia.
  rewrite (Z.mod_small (BINS - 1 + 0)) by lia.
  destruct (Z.ltb_spec (BINS - 1 + 1) 0), (Z.ltb_spec (BINS - 1 + 0) 0); try lia.
  destruct (Z.ltb_spec (BINS - 1) (BINS - 1 + 1)), (Z.ltb_spec (BINS - 1) (BINS - 1 + 0)); lia.
Qed.

(** Beyond the last index the centre cell of a query is the last cell, while
    [addBoid] indexes the lattice with the index as it is. *)
Lemma neighbour_clamps_centre (BINS index : Z) :
  (0 < BINS)%Z -> (BINS <= index < size_t_modulus)%Z ->
  neighbour BINS index 0 = (BINS - 1)%Z.
Proof.
  intros HB Hi. unfold neighbour, clamp.
  rewrite (Z.mod_small (BINS - 1)) by lia.
  rewrite (Z.mod_small (index + 0)) by lia.
  destruct (Z.ltb_spec (index + 0) 0); [lia|].
  destruct (Z.ltb_spec (BINS - 1) (index + 0)); lia.
Qed.

Lemma addBoid_outside_lattice (WIDTH HEIGHT BINS : Z) (boids : list Boid)
    (boid : BoidPtr) (lattice : Lattice) (b : Boid) (xIndex yIndex : Z) :
  deref boids boid = Done b ->
  xIndexOf WIDTH BINS (position b) = Done xIndex ->
  yIndexOf HEIGHT BINS (position b) = Done yIndex ->
  length lattice = Z.to_nat BINS ->
  (BINS <= xIndex)%Z ->
  addBoid WIDTH HEIGHT BINS boids boid lattice = Undefined LatticeOutOfRange.
Proof.
  intros Hb Hx Hy Hlen Hout. unfold addBoid.
  rewrite Hb. simpl. rewrite Hx. simpl. rewrite Hy. simpl.
  unfold read. rewrite lookup_ge_None_2; [reflexivity|].
  unfold xIndexOf in Hx. apply indexOf_range in Hx. lia.
Qed.

(** The points with integer coordinates up to [2^24] are float positions. *)
Lemma pt_is_float (px py : Z) :
  (Z.abs px <= 2 ^ 24)%Z -> (Z.abs py <= 2 ^ 24)%Z -> is_float2 (pt px py).
Proof. intros Hx Hy. split; apply is_float_integer; done. Qed.

(** X1 on the scenario of the specification: the boid at (500, 500) is found
    from (525, 500) with the radius 50. *)
Lemma lattice_query_set_exact_witness :
  exists result,
    query WINDOW_WIDTH WINDOW_HEIGHT NUMBER_BINS MAX_BOIDS_PER_BIN
      [at_ 500 500] oneBoidLattice (pt 525 500) 50%Q = Done result
    /\ In (Some 0) result.
Proof.
  destruct (lattice_query_set_exact WINDOW_WIDTH WINDOW_HEIGHT NUMBER_BINS MAX_BOIDS_PER_BIN
              ltac:(vm_compute; split; [reflexivity|discriminate])
              ltac:(vm_compute; discriminate)
              [at_ 500 500] oneBoidLattice (pt 525 500) 50%Q 10 10
              ltac:(vm_compute; reflexivity)
              ltac:(vm_compute; reflexivity)
              ltac:(vm_compute; discriminate)
              ltac:(vm_compute; discriminate)
              ltac:(repeat constructor; apply (pt_is_float 500 500); vm_compute; discriminate)
              ltac:(apply (pt_is_float 525 500); vm_compute; discriminate)
              ltac:(apply (is_float_integer 50); vm_compute; discriminate)
              ltac:(vm_compute; reflexivity)
              ltac:(vm_compute; discriminate)
              ltac:(vm_compute; discriminate)
              ltac:(vm_compute; discriminate)
              ltac:(vm_compute; reflexivity)
              ltac:(vm_compute; reflexivity))
    as (result & Hquery & Hin).
  exists result. split; [exact Hquery|].
  apply Hin. exists 0. split; [reflexivity|]. vm_compute. reflexivity.
Defined.

(** *** The lattice of main.cpp *)

(** The scenario of the specification: one boid at (500, 500). *)
Example scenario_centre : queryAll [at_ 500 500] (pt 500 500) 10%Q = Done [Some 0].
Proof. vm_compute. reflexivity. Qed.
Example scenario_far : queryAll [at_ 500 500] (pt 0 0) 10%Q = Done [].
Proof. vm_compute. reflexivity. Qed.
Example scenario_near : queryAll [at_ 500 500] (pt 525 500) 50%Q = Done [Some 0].
Proof. vm_compute. reflexivity. Qed.

(** C1 at its failing input.  One boid at (975, 500), in the last column of
    the lattice of main.cpp; the query centred on it with radius 10 (below the
    cell size 50) reports it twice. *)
Theorem lattice_query_reports_edge_boid_twice :
  queryAll [at_ 975 500] (pt 975 500) 10%Q = Done [Some 0; Some 0].
Proof. vm_compute. reflexivity. Qed.

(** C4 at its failing input.  A query centred at (10, 500), in column 0,
    scans column 19 instead of clamping to column 0: with a radius that
    reaches everywhere it finds the boid at (990, 500) on the opposite side
    and misses the one at (110, 500), two columns away. *)
Theorem lattice_query_wraps_at_low_edge :
  xIndexOf WINDOW_WIDTH NUMBER_BINS (pt 10 500) = Done 0%Z
  /\ scannedCells NUMBER_BINS 0 10
     = [(19, 9); (19, 10); (19, 11); (0, 9); (0, 10); (0, 11); (1, 9); (1, 10); (1, 11)]%Z
  /\ queryAll [at_ 990 500; at_ 110 500] (pt 10 500) 1000%Q = Done [Some 0].
Proof. vm_compute. repeat split; reflexivity. Qed.

(** C9 at its failing input.  For the position (1010, 500), right of the
    world: [addBoid] indexes column 20, outside the lattice, while [query]
    clamps its centre cell to column 19 and answers (the boid at (990, 500)
    of column 19 is found, once for each of the three clamped columns). *)
Theorem lattice_insert_and_query_differ_out_of_bounds :
  xIndexOf WINDOW_WIDTH NUMBER_BINS (pt 1010 500) = Done 20%Z
  /\ yIndexOf WINDOW_HEIGHT NUMBER_BINS (pt 1010 500) = Done 10%Z
  /\ fill [at_ 1010 500] [0] emptyLattice = Undefined LatticeOutOfRange
  /\ scannedCells NUMBER_BINS 20 10 !! 4 = Some (19, 10)%Z
  /\ queryAll [at_ 990 500] (pt 1010 500) 50%Q = Done [Some 0; Some 0; Some 0].
Proof. vm_compute. repeat split; reflexivity. Qed.


(** C3, as stated, fails: with the bin of cell (10, 10) holding its 100
    boids, adding one more raises nothing; the write goes past the end of the
    bin's array. *)
Lemma addBoid_full_bin_is_unchecked :
  (exists l bin,
      fill crowd (seq 0 100) emptyLattice = Done l
      /\ binAt l 10 10 = Done bin
      /\ second bin = 100
      /\ length (first bin) = 100
      /\ addBoid WINDOW_WIDTH WINDOW_HEIGHT NUMBER_BINS crowd (Some 100) l
         = Undefined BinOutOfRange).
Proof.
  eexists. eexists. split; [vm_compute; reflexivity|].
  split; [vm_compute; reflexivity|].
  vm_compute. repeat split; reflexivity.
Qed.
End LatticeFacts.

(** * Further facts: the rest of the code *)

(** ** Comparisons and cells of a coordinate *)


(** ** BinLattice: the frame loop *)

Module FrameFacts.
Import BinLattice Scenario RoundingFacts CellFacts LatticeFacts.

(** *** Shape *)

Lemma hasShape_spec (BINS BIN_SIZE : Z) (lattice : Lattice) :
  hasShape BINS BIN_SIZE lattice = true ->
  length lattice = Z.to_nat BINS
  /\ (forall i row, lattice !! i = Some row -> length row = Z.to_nat BINS)
  /\ (forall i j bin, binOf lattice i j = Some bin ->
        length (first bin) = Z.to_nat BIN_SIZE).
Proof.
  unfold hasShape. rewrite andb_true_iff, Nat.eqb_eq, forallb_forall.
  intros [Hlen Hrows]. split; [done|]. split.
  - intros i row Hrow. apply list_elem_of_lookup_2, list_elem_of_In, Hrows in Hrow.
    apply andb_true_iff in Hrow as [Hrow _]. apply Nat.eqb_eq in Hrow. done.
  - intros i j bin Hbin. unfold binOf in Hbin.
    destruct (lattice !! i) as [row|] eqn:Hrow; [|discriminate].
    apply list_elem_of_lookup_2, list_elem_of_In, Hrows in Hrow.
    apply andb_true_iff in Hrow as [_ Hbins]. rewrite forallb_forall in Hbins.
    apply list_elem_of_lookup_2, list_elem_of_In, Hbins in Hbin.
    apply Nat.eqb_eq in Hbin. done.
Qed.

Lemma binOf_clear (lattice : Lattice) i j :
  binOf (clear lattice) i j = (fun bin => mkBin (first bin) 0) <$> binOf lattice i j.
Proof.
  unfold binOf, clear. rewrite list_lookup_fmap.
  destruct (lattice !! i) as [row|]; [|reflexivity]. simpl.
  rewrite list_lookup_fmap. reflexivity.
Qed.

(** A cleared lattice is the lattice of a frame into which no boid has been
    added yet, whatever it held before. *)
Lemma clear_wellFormed (WIDTH HEIGHT BINS BIN_SIZE : Z) boids (lattice : Lattice) :
  hasShape BINS BIN_SIZE lattice = true ->
  wellFormed WIDTH HEIGHT BINS BIN_SIZE boids 0 (clear lattice).
Proof.
  intros Hshape. apply hasShape_spec in Hshape as (Hrows & Hcols & Hcap). split.
  - unfold clear. rewrite length_map. done.
  - intros i row Hrow. unfold clear in Hrow. rewrite list_lookup_fmap in Hrow.
    destruct (lattice !! i) as [row0|] eqn:Hrow0; [|discriminate].
    injection Hrow as <-. rewrite length_map. eapply Hcols. exact Hrow0.
  - intros i j bin Hbin. rewrite binOf_clear in Hbin.
    destruct (binOf lattice i j) as [bin0|] eqn:Hbin0; [|discriminate].
    injection Hbin as <-. simpl. split; [eapply Hcap; exact Hbin0|lia].
  - intros i j bin k ptr Hbin Hk. rewrite binOf_clear in Hbin.
    destruct (binOf lattice i j) as [bin0|]; [|discriminate].
    injection Hbin as <-. simpl in Hk. lia.
  - intros a Ha. lia.
Qed.

(** With no boid added, no slot is in use. *)
Lemma wellFormed_0_second (WIDTH HEIGHT BINS BIN_SIZE : Z) boids (lattice : Lattice) i j bin :
  wellFormed WIDTH HEIGHT BINS BIN_SIZE boids 0 lattice ->
  binOf lattice i j = Some bin -> second bin = 0.
Proof.
  intros Hwf Hbin.
  destruct (wf_cap _ _ _ _ _ _ _ Hwf _ _ _ Hbin) as [_ Hsec].
  destruct (second bin) as [|k] eqn:Hs; [reflexivity|exfalso].
  destruct (lookup_lt_is_Some_2 (first bin) 0 ltac:(lia)) as [ptr Hptr].
  destruct (wf_sound _ _ _ _ _ _ _ Hwf _ _ _ 0 ptr Hbin ltac:(lia) Hptr)
    as (a & b & _ & Ha & _). lia.
Qed.

Section Frame.
Variables WIDTH HEIGHT BINS BIN_SIZE : Z.
Hypothesis BINS_range : (0 < BINS <= size_t_modulus)%Z.
Hypothesis BIN_SIZE_nonneg : (0 <= BIN_SIZE)%Z.

(** The query of a well-formed lattice returns what the nine cells
    contribute. *)
Lemma query_scan boids n (lattice : Lattice) centre radius xIndex yIndex :
  wellFormed WIDTH HEIGHT BINS BIN_SIZE boids n lattice ->
  xIndexOf WIDTH BINS centre = Done xIndex ->
  yIndexOf HEIGHT BINS centre = Done yIndex ->
  query WIDTH HEIGHT BINS BIN_SIZE boids lattice centre radius
  = Done (concat (map (scanCell boids lattice centre (fmul radius radius))
                    (scannedCells BINS xIndex yIndex))).
Proof.
  intros Hwf Hx Hy. unfold query. rewrite Hx, Hy.
  change (obind (Done xIndex) ?k) with (k xIndex). cbv beta.
  change (obind (Done yIndex) ?k) with (k yIndex). cbv beta.
  rewrite (forEach_scan WIDTH HEIGHT BINS BIN_SIZE BINS_range BIN_SIZE_nonneg boids n lattice centre _ _ Hwf).
  - reflexivity.
  - intros cell Hc. apply (scannedCells_range BINS BINS_range xIndex yIndex). done.
  - unfold scannedCells, MaxQuerySize. simpl. lia.
Qed.

(** X4. After [clear] every query whose centre converts to cell indices
    answers with an empty result, whatever the lattice held and whatever the
    store holds: [clear] only resets the counts, and the pointers it leaves in
    the arrays are not read. *)
Theorem query_after_clear_is_empty (boids : list Boid) (lattice : Lattice)
    (centre : float2) (radius : float) (xIndex yIndex : Z) :
  hasShape BINS BIN_SIZE lattice = true ->
  xIndexOf WIDTH BINS centre = Done xIndex ->
  yIndexOf HEIGHT BINS centre = Done yIndex ->
  query WIDTH HEIGHT BINS BIN_SIZE boids (clear lattice) centre radius = Done [].
Proof.
  intros Hshape Hx Hy.
  pose proof (clear_wellFormed WIDTH HEIGHT BINS BIN_SIZE boids lattice Hshape) as Hwf.
  rewrite (query_scan boids 0 _ _ _ _ _ Hwf Hx Hy). f_equal.
  induction (scannedCells BINS xIndex yIndex) as [|cell cells IH]; [reflexivity|].
  simpl. rewrite IH, app_nil_r. unfold scanCell.
  destruct (binOf _ _ _) as [bin|] eqn:Hbin; [|reflexivity].
  rewrite (wellFormed_0_second _ _ _ _ _ _ _ _ _ Hwf Hbin). reflexivity.
Qed.

(** *** A lattice that is used again answers as a new one *)

Lemma sameLattice_lookup (l1 l2 : Lattice) i :
  sameLattice l1 l2 ->
  match l1 !! i, l2 !! i with
  | Some r1, Some r2 => Forall2 sameInUse r1 r2
  | None, None => True
  | _, _ => False
  end.
Proof.
  intros Hs. destruct (l1 !! i) as [r1|] eqn:H1.
  - destruct (Forall2_lookup_l _ _ _ _ _ Hs H1) as (r2 & -> & Hr). done.
  - apply lookup_ge_None in H1. rewrite (Forall2_length _ _ _ Hs) in H1.
    apply lookup_ge_None in H1. rewrite H1. done.
Qed.

Lemma sameRow_lookup (r1 r2 : list Bin) j :
  Forall2 sameInUse r1 r2 ->
  match r1 !! j, r2 !! j with
  | Some b1, Some b2 => sameInUse b1 b2
  | None, None => True
  | _, _ => False
  end.
Proof.
  intros Hs. destruct (r1 !! j) as [b1|] eqn:H1.
  - destruct (Forall2_lookup_l _ _ _ _ _ Hs H1) as (b2 & -> & Hb). done.
  - apply lookup_ge_None in H1. rewrite (Forall2_length _ _ _ Hs) in H1.
    apply lookup_ge_None in H1. rewrite H1. done.
Qed.

(** [addBoid] keeps two lattices the same in their slots in use. *)
Lemma addBoid_sameLattice boids ptr (l1 l2 : Lattice) :
  sameLattice l1 l2 ->
  agree sameLattice (addBoid WIDTH HEIGHT BINS boids ptr l1)
                    (addBoid WIDTH HEIGHT BINS boids ptr l2).
Proof.
  intros Hs. unfold addBoid.
  destruct (deref boids ptr) as [b|e|f]; simpl; [|done|done].
  destruct (xIndexOf WIDTH BINS (position b)) as [xi|e|f]; simpl; [|done|done].
  destruct (yIndexOf HEIGHT BINS (position b)) as [yi|e|f]; simpl; [|done|done].
  unfold read.
  pose proof (sameLattice_lookup l1 l2 (Z.to_nat xi) Hs) as Hrow.
  destruct (l1 !! Z.to_nat xi) as [r1|] eqn:H1, (l2 !! Z.to_nat xi) as [r2|] eqn:H2;
    simpl; try done.
  pose proof (sameRow_lookup r1 r2 (Z.to_nat yi) Hrow) as Hbin.
  destruct (r1 !! Z.to_nat yi) as [b1|] eqn:H3, (r2 !! Z.to_nat yi) as [b2|] eqn:H4;
    simpl; try done.
  destruct Hbin as (Hsec & Hlen & Htake). rewrite <- Hsec, <- Hlen.
  destruct (Nat.ltb_spec (second b1) (length (first b1))) as [Hlt|Hge]; simpl; [|done].
  apply Forall2_insert; [done|]. apply Forall2_insert; [done|].
  split; [done|]. simpl. split; [rewrite !length_insert; done|].
  rewrite (take_S_r _ _ ptr) by (apply list_lookup_insert_eq; done).
  rewrite (take_S_r _ _ ptr) by (apply list_lookup_insert_eq; lia).
  rewrite !take_insert_ge by done. rewrite Htake, Hsec. reflexivity.
Qed.

Lemma addBoids_sameLattice boids addrs : forall (l1 l2 : Lattice),
  sameLattice l1 l2 ->
  agree sameLattice (addBoids WIDTH HEIGHT BINS boids addrs l1)
                    (addBoids WIDTH HEIGHT BINS boids addrs l2).
Proof.
  unfold addBoids. induction addrs as [|a addrs IH]; intros l1 l2 Hs; simpl; [done|].
  pose proof (addBoid_sameLattice boids (Some a) l1 l2 Hs) as Hstep.
  destruct (addBoid WIDTH HEIGHT BINS boids (Some a) l1) as [l1'|e1|f1],
           (addBoid WIDTH HEIGHT BINS boids (Some a) l2) as [l2'|e2|f2];
    simpl in *; try done.
  apply IH. done.
Qed.

(** The innermost loop only reads the slots it is asked to scan. *)
Lemma scanBin_same boids pos rsq (b1 b2 : Bin) fuel : forall i result,
  (forall k, i <= k < i + fuel -> first b1 !! k = first b2 !! k) ->
  scanBin BIN_SIZE boids pos rsq b1 fuel i result
  = scanBin BIN_SIZE boids pos rsq b2 fuel i result.
Proof.
  induction fuel as [|fuel IH]; intros i result Hk; simpl; [reflexivity|].
  unfold read. rewrite <- (Hk i) by lia.
  destruct (first b1 !! i) as [ptr|]; simpl; [|reflexivity].
  destruct (deref boids ptr) as [b|e|f]; simpl; [|reflexivity|reflexivity].
  rewrite !(IH (S i)) by (intros k Hr; apply Hk; lia). reflexivity.
Qed.

Lemma forEach_same {A S : Type} (l : list A) (f g : S -> A -> outcome S) :
  (forall s a, f s a = g s a) -> forall s, forEach l f s = forEach l g s.
Proof.
  intros Hfg. induction l as [|a l IH]; intros s; simpl; [reflexivity|].
  rewrite Hfg. destruct (g s a); simpl; [apply IH|reflexivity|reflexivity].
Qed.

(** [query] only reads the slots in use. *)
Lemma query_sameLattice boids (l1 l2 : Lattice) centre radius :
  sameLattice l1 l2 ->
  query WIDTH HEIGHT BINS BIN_SIZE boids l1 centre radius
  = query WIDTH HEIGHT BINS BIN_SIZE boids l2 centre radius.
Proof.
  intros Hs. unfold query.
  destruct (xIndexOf WIDTH BINS centre) as [xi|e|f]; cbn [obind]; [|reflexivity|reflexivity].
  destruct (yIndexOf HEIGHT BINS centre) as [yi|e|f]; cbn [obind]; [|reflexivity|reflexivity].
  apply forEach_same. intros result cell. unfold binAt, read.
  pose proof (sameLattice_lookup l1 l2 (Z.to_nat (fst cell)) Hs) as Hrow.
  destruct (l1 !! Z.to_nat (fst cell)) as [r1|], (l2 !! Z.to_nat (fst cell)) as [r2|];
    simpl; try done.
  pose proof (sameRow_lookup r1 r2 (Z.to_nat (snd cell)) Hrow) as Hbin.
  destruct (r1 !! Z.to_nat (snd cell)) as [b1|], (r2 !! Z.to_nat (snd cell)) as [b2|];
    simpl; try done.
  destruct Hbin as (Hsec & Hlen & Htake). rewrite <- Hsec.
  apply scanBin_same. intros k Hk.
  rewrite <- (lookup_take_lt (first b1) (second b1) k) by lia.
  rewrite <- (lookup_take_lt (first b2) (second b1) k) by lia.
  rewrite Htake, Hsec. reflexivity.
Qed.

(** A cleared lattice is a constructed lattice, as far as the slots in use
    go. *)
Lemma clear_sameLattice (lattice : Lattice) :
  hasShape BINS BIN_SIZE lattice = true ->
  sameLattice (clear lattice) (create BINS BIN_SIZE).
Proof.
  intros Hshape. apply hasShape_spec in Hshape as (Hrows & Hcols & Hcap).
  unfold sameLattice, clear, create.
  apply Forall2_same_length_lookup_2.
  { rewrite length_map, length_replicate. done. }
  intros i r1 r2 H1 H2. rewrite list_lookup_fmap in H1.
  destruct (lattice !! i) as [row|] eqn:Hrow; [|discriminate].
  injection H1 as <-. apply lookup_replicate in H2 as [-> _].
  apply Forall2_same_length_lookup_2.
  { rewrite length_map, length_replicate. eapply Hcols. exact Hrow. }
  intros j b1 b2 H1 H2. rewrite list_lookup_fmap in H1.
  destruct (row !! j) as [bin|] eqn:Hbin; [|discriminate].
  injection H1 as <-. apply lookup_replicate in H2 as [-> _].
  split; [reflexivity|]. simpl. split; [|reflexivity].
  rewrite length_replicate. apply (Hcap i j). unfold binOf. rewrite Hrow. done.
Qed.

(** X5. A frame run on a lattice that earlier frames have used answers every
    query as the same frame run on a newly constructed lattice does, faults
    included: the pointers that [clear] leaves behind in the arrays are never
    observed. *)
Theorem reused_lattice_answers_as_new (boids : list Boid) (lattice : Lattice)
    (centre : float2) (radius : float) :
  hasShape BINS BIN_SIZE lattice = true ->
  (let* l := frame WIDTH HEIGHT BINS boids lattice in
   query WIDTH HEIGHT BINS BIN_SIZE boids l centre radius)
  = (let* l := frame WIDTH HEIGHT BINS boids (create BINS BIN_SIZE) in
     query WIDTH HEIGHT BINS BIN_SIZE boids l centre radius).
Proof.
  intros Hshape. unfold frame.
  assert (Hs : sameLattice (clear lattice) (clear (create BINS BIN_SIZE))).
  { assert (Hc : clear (create BINS BIN_SIZE) = create BINS BIN_SIZE).
    { unfold clear, create. rewrite fmap_replicate. f_equal.
      rewrite fmap_replicate. reflexivity. }
    rewrite Hc. apply clear_sameLattice. done. }
  pose proof (addBoids_sameLattice boids (seq 0 (length boids)) _ _ Hs) as Hadd.
  destruct (addBoids WIDTH HEIGHT BINS boids (seq 0 (length boids)) (clear lattice))
    as [l1|e1|f1],
    (addBoids WIDTH HEIGHT BINS boids (seq 0 (length boids)) (clear (create BINS BIN_SIZE)))
    as [l2|e2|f2]; simpl in *; try done; try congruence.
  apply query_sameLattice. done.
Qed.

(** *** Every boid is stored once *)

Lemma bind_insert_Permutation {A B : Type} (f : A -> list B) (l : list A) i a a' p :
  l !! i = Some a -> f a' ≡ₚ p :: f a ->
  (<[i := a']> l) ≫= f ≡ₚ p :: (l ≫= f).
Proof.
  intros Hi Hf.
  assert (Hlt : i < length l) by (eapply lookup_lt_Some; exact Hi).
  rewrite insert_take_drop by done.
  rewrite <- (take_drop_middle l i a Hi) at 3.
  rewrite !bind_app, !bind_cons, Hf. simpl.
  rewrite <- Permutation_middle. reflexivity.
Qed.

Lemma addBoid_slotsInUse boids ptr (lattice lattice' : Lattice) :
  addBoid WIDTH HEIGHT BINS boids ptr lattice = Done lattice' ->
  slotsInUse lattice' ≡ₚ ptr :: slotsInUse lattice.
Proof.
  intros Hadd. apply addBoid_Done_inv in Hadd
    as (b & xi & yi & row & bin & _ & _ & _ & Hrow & Hbin & Hlt & ->).
  unfold slotsInUse.
  apply (bind_insert_Permutation _ _ _ row); [done|].
  apply (bind_insert_Permutation _ _ _ bin); [done|]. simpl.
  rewrite (take_S_r _ _ ptr) by (apply list_lookup_insert_eq; done).
  rewrite take_insert_ge by done.
  rewrite <- Permutation_cons_append. reflexivity.
Qed.

Lemma addBoids_slotsInUse boids addrs : forall (lattice lattice' : Lattice),
  addBoids WIDTH HEIGHT BINS boids addrs lattice = Done lattice' ->
  slotsInUse lattice' ≡ₚ (Some <$> addrs) ++ slotsInUse lattice.
Proof.
  unfold addBoids. induction addrs as [|a addrs IH]; intros lattice lattice' Hadd.
  - simpl in Hadd. injection Hadd as <-. reflexivity.
  - simpl in Hadd.
    destruct (addBoid WIDTH HEIGHT BINS boids (Some a) lattice) as [l1| |] eqn:H1;
      simpl in Hadd; try discriminate.
    rewrite (IH _ _ Hadd), (addBoid_slotsInUse _ _ _ _ H1). simpl.
    rewrite <- Permutation_middle. reflexivity.
Qed.

Lemma clear_slotsInUse (lattice : Lattice) : slotsInUse (clear lattice) = [].
Proof.
  apply elem_of_nil_inv. intros ptr Hptr. unfold slotsInUse, clear in Hptr.
  apply list_elem_of_bind in Hptr as (row & Hptr & Hrow).
  apply list_elem_of_bind in Hptr as (bin & Hptr & Hbin).
  apply list_elem_of_fmap in Hrow as (row0 & -> & _).
  apply list_elem_of_fmap in Hbin as (bin0 & -> & _).
  simpl in Hptr. apply elem_of_nil in Hptr. done.
Qed.

Lemma frame_census (boids : list Boid) (lattice lattice' : Lattice) :
  frame WIDTH HEIGHT BINS boids lattice = Done lattice' ->
  slotsInUse lattice' ≡ₚ Some <$> seq 0 (length boids).
Proof.
  unfold frame. intros Hadd.
  rewrite (addBoids_slotsInUse _ _ _ _ Hadd), clear_slotsInUse, app_nil_r.
  reflexivity.
Qed.

(** X6. After a frame the slots in use of the lattice hold the pointer to each
    boid of the store exactly once: no boid is dropped or stored twice, and
    the counts of the bins add up to the number of boids. *)
Theorem frame_stores_each_boid_once (boids : list Boid) (lattice lattice' : Lattice) :
  frame WIDTH HEIGHT BINS boids lattice = Done lattice' ->
  slotsInUse lattice' ≡ₚ Some <$> seq 0 (length boids)
  /\ NoDup (slotsInUse lattice')
  /\ length (slotsInUse lattice') = length boids.
Proof.
  intros Hframe. pose proof (frame_census boids lattice lattice' Hframe) as Hperm.
  split; [exact Hperm|]. split.
  - rewrite Hperm. apply NoDup_fmap_2; [apply _|apply NoDup_seq].
  - rewrite Hperm, length_fmap, length_seq. reflexivity.
Qed.

(** *** The frame loop answers when no cell is overfull *)

Lemma cellCount_take_S boids s b i j :
  boids !! s = Some b ->
  cellCount WIDTH HEIGHT BINS (take (S s) boids) i j
  = cellCount WIDTH HEIGHT BINS (take s boids) i j
    + (if decide (cellOf WIDTH HEIGHT BINS b = Some (i, j)) then 1 else 0).
Proof.
  intros Hb. unfold cellCount. rewrite (take_S_r _ _ _ Hb), filter_app, length_app.
  f_equal. rewrite filter_cons, filter_nil. destruct (decide _); reflexivity.
Qed.

Lemma cellCount_take_le boids s i j :
  cellCount WIDTH HEIGHT BINS (take s boids) i j <= cellCount WIDTH HEIGHT BINS boids i j.
Proof.
  unfold cellCount. rewrite <- (take_drop s boids) at 2.
  rewrite filter_app, length_app. lia.
Qed.

Lemma addBoids_succeeds boids m : forall s (lattice : Lattice),
  (0 < WIDTH / BINS)%Z -> (0 < HEIGHT / BINS)%Z ->
  (BINS * (WIDTH / BINS) <= 2 ^ 24)%Z -> (BINS * (HEIGHT / BINS) <= 2 ^ 24)%Z ->
  (forall b, In b boids ->
     is_float2 (position b)
     /\ (0 <= x (position b))%Q /\ (x (position b) < inject_Z (BINS * (WIDTH / BINS)))%Q
     /\ (0 <= y (position b))%Q /\ (y (position b) < inject_Z (BINS * (HEIGHT / BINS)))%Q) ->
  (forall i j, (Z.of_nat (cellCount WIDTH HEIGHT BINS boids i j) <= BIN_SIZE)%Z) ->
  s + m <= length boids ->
  wellFormed WIDTH HEIGHT BINS BIN_SIZE boids s lattice ->
  (forall i j bin, binOf lattice i j = Some bin ->
     second bin = cellCount WIDTH HEIGHT BINS (take s boids) (Z.of_nat i) (Z.of_nat j)) ->
  exists lattice',
    addBoids WIDTH HEIGHT BINS boids (seq s m) lattice = Done lattice'
    /\ forall i j bin, binOf lattice' i j = Some bin ->
         second bin
         = cellCount WIDTH HEIGHT BINS (take (s + m) boids) (Z.of_nat i) (Z.of_nat j).
Proof.
  induction m as [|m IH]; intros s lattice Hw Hh Hww Hwh Hworld Hcap Hlen Hwf Hcount.
  - exists lattice. split; [reflexivity|]. rewrite Nat.add_0_r. done.
  - destruct (lookup_lt_is_Some_2 boids s ltac:(lia)) as [b Hb].
    destruct (Hworld b) as ([Hfx Hfy] & Hx0 & Hx1 & Hy0 & Hy1).
    { apply list_elem_of_In. eapply list_elem_of_lookup_2. exact Hb. }
    destruct (indexOf_in_world _ (WIDTH / BINS) BINS Hfx Hw ltac:(lia) Hww Hx0 Hx1)
      as (xi & Hxi & Hxr).
    destruct (indexOf_in_world _ (HEIGHT / BINS) BINS Hfy Hh ltac:(lia) Hwh Hy0 Hy1)
      as (yi & Hyi & Hyr).
    fold (xIndexOf WIDTH BINS (position b)) in Hxi.
    fold (yIndexOf HEIGHT BINS (position b)) in Hyi.
    assert (Hcell : cellOf WIDTH HEIGHT BINS b = Some (xi, yi))
      by (unfold cellOf; rewrite Hxi, Hyi; reflexivity).
    destruct (wellFormed_binOf _ _ _ _ _ _ _ (Z.to_nat xi) (Z.to_nat yi) Hwf)
      as [bin Hbin]; [lia|lia|].
    pose proof (Hcount _ _ _ Hbin) as Hsec. rewrite !Z2Nat.id in Hsec by lia.
    destruct (wf_cap _ _ _ _ _ _ _ Hwf _ _ _ Hbin) as [Hsize _].
    pose proof (cellCount_take_S boids s b xi yi Hb) as Hstep.
    rewrite Hcell in Hstep. destruct (decide (Some (xi, yi) = Some (xi, yi))); [|done].
    pose proof (cellCount_take_le boids (S s) xi yi) as Hle.
    pose proof (Hcap xi yi) as Hc.
    assert (Hlt : second bin < length (first bin)) by lia.
    unfold binOf in Hbin.
    destruct (lattice !! Z.to_nat xi) as [row|] eqn:Hrow; [|discriminate].
    assert (Hadd : addBoid WIDTH HEIGHT BINS boids (Some s) lattice
                   = Done (<[Z.to_nat xi := <[Z.to_nat yi :=
                        mkBin (<[second bin := Some s]> (first bin)) (S (second bin))]> row]>
                        lattice)).
    { unfold addBoid, deref, read. rewrite Hb. cbn [obind]. rewrite Hxi. cbn [obind].
      rewrite Hyi. cbn [obind]. rewrite Hrow. cbn [obind]. rewrite Hbin. cbn [obind].
      destruct (Nat.ltb_spec (second bin) (length (first bin))); [reflexivity|lia]. }
    destruct (IH (S s) _ Hw Hh Hww Hwh Hworld Hcap ltac:(lia)
                (addBoid_wellFormed _ _ _ _ _ _ _ _ Hwf Hadd)) as (lattice' & Hrest & Hfinal).
    + intros i j bin0 Hbin0.
      rewrite binOf_insert in Hbin0 by (done || (eapply lookup_lt_Some; exact Hbin)).
      destruct (decide (i = Z.to_nat xi /\ j = Z.to_nat yi)) as [[-> ->]|Hne].
      * injection Hbin0 as <-. simpl. rewrite !Z2Nat.id by lia. lia.
      * rewrite (cellCount_take_S boids s b _ _ Hb), Hcell.
        destruct (decide (Some (xi, yi) = Some (Z.of_nat i, Z.of_nat j))) as [Heq|_].
        -- exfalso. injection Heq as -> ->. apply Hne. rewrite !Nat2Z.id. done.
        -- rewrite Nat.add_0_r. apply Hcount. done.
    + exists lattice'. split.
      * unfold addBoids in *. simpl. rewrite Hadd. cbn [obind]. exact Hrest.
      * intros i j bin0 Hbin0. replace (s + S m) with (S s + m) by lia.
        apply Hfinal. done.
Qed.

(** X7. In a world that the cells cover up to [2^24] at most, with every
    boid at a float position inside the part of the world that the cells
    cover ([BINS] cells of [WIDTH / BINS] by [HEIGHT / BINS], which is the
    whole world when [BINS] divides both sizes) and no cell holding more than
    [BIN_SIZE] boids, the frame runs to its end without any undefined access,
    and every bin then counts the boids of its cell.  The bound on the world
    keeps the rounding of the quotient from moving a coordinate into the next
    cell, and so out of the lattice from its last cell. *)
Theorem frame_succeeds_within_capacity (boids : list Boid) (lattice : Lattice) :
  (0 < WIDTH / BINS)%Z -> (0 < HEIGHT / BINS)%Z ->
  (BINS * (WIDTH / BINS) <= 2 ^ 24)%Z -> (BINS * (HEIGHT / BINS) <= 2 ^ 24)%Z ->
  hasShape BINS BIN_SIZE lattice = true ->
  (forall b, In b boids ->
     is_float2 (position b)
     /\ (0 <= x (position b))%Q /\ (x (position b) < inject_Z (BINS * (WIDTH / BINS)))%Q
     /\ (0 <= y (position b))%Q /\ (y (position b) < inject_Z (BINS * (HEIGHT / BINS)))%Q) ->
  (forall i j, (Z.of_nat (cellCount WIDTH HEIGHT BINS boids i j) <= BIN_SIZE)%Z) ->
  exists lattice',
    frame WIDTH HEIGHT BINS boids lattice = Done lattice'
    /\ forall i j bin, binOf lattice' i j = Some bin ->
         second bin = cellCount WIDTH HEIGHT BINS boids (Z.of_nat i) (Z.of_nat j).
Proof.
  intros Hw Hh Hww Hwh Hshape Hworld Hcap. unfold frame.
  pose proof (clear_wellFormed WIDTH HEIGHT BINS BIN_SIZE boids lattice Hshape) as Hwf.
  destruct (addBoids_succeeds boids (length boids) 0 (clear lattice) Hw Hh Hww Hwh Hworld Hcap
              ltac:(lia) Hwf) as (lattice' & Hadd & Hcount).
  - intros i j bin Hbin. rewrite (wellFormed_0_second _ _ _ _ _ _ _ _ _ Hwf Hbin).
    reflexivity.
  - exists lattice'. split; [done|]. intros i j bin Hbin.
    rewrite (Hcount _ _ _ Hbin). simpl. rewrite firstn_all. reflexivity.
Qed.

(** *** Away from the edges every boid in reach is reported once *)

(** The slots in use of one bin are among the slots in use of the lattice. *)
Lemma slotsInUse_bin (lattice : Lattice) i j bin :
  binOf lattice i j = Some bin ->
  exists before after,
    slotsInUse lattice = before ++ take (second bin) (first bin) ++ after.
Proof.
  unfold binOf. intros Hbin.
  destruct (lattice !! i) as [row|] eqn:Hrow; [|discriminate].
  assert (Heq : slotsInUse lattice
                = slotsInUse (take i lattice
                              ++ (take j row ++ bin :: drop (S j) row) :: drop (S i) lattice)).
  { rewrite (take_drop_middle row j bin Hbin), (take_drop_middle lattice i row Hrow).
    reflexivity. }
  rewrite Heq. unfold slotsInUse.
  rewrite !bind_app, !bind_cons, !bind_app, !bind_cons.
  exists ((take i lattice ≫= λ row, row ≫= λ bin, take (second bin) (first bin))
          ++ (take j row ≫= λ bin, take (second bin) (first bin))).
  exists ((drop (S j) row ≫= λ bin, take (second bin) (first bin))
          ++ (drop (S i) lattice ≫= λ row, row ≫= λ bin, take (second bin) (first bin))).
  rewrite <- !app_assoc. reflexivity.
Qed.

Lemma slotsInUse_bin_NoDup (lattice : Lattice) i j bin :
  NoDup (slotsInUse lattice) -> binOf lattice i j = Some bin ->
  NoDup (take (second bin) (first bin)).
Proof.
  intros Hnd Hbin. destruct (slotsInUse_bin lattice i j bin Hbin) as (l1 & l2 & Heq).
  rewrite Heq in Hnd. apply NoDup_app in Hnd as (_ & _ & Hnd).
  apply NoDup_app in Hnd as (Hnd & _). done.
Qed.

Lemma concat_map_NoDup {A B : Type} (f : A -> list B) (l : list A) :
  NoDup l -> (forall a, In a l -> NoDup (f a)) ->
  (forall a a' x, In a l -> In a' l -> In x (f a) -> In x (f a') -> a = a') ->
  NoDup (concat (map f l)).
Proof.
  induction 1 as [|a l Ha Hl IH]; intros Hf Hdis; simpl; [constructor|].
  apply NoDup_app. split; [apply Hf; left; done|]. split.
  - intros x Hx Hin. apply list_elem_of_In, in_concat in Hin as (k & Hk & Hxk).
    apply in_map_iff in Hk as (a' & <- & Ha').
    apply Ha. rewrite (Hdis a a' x); [apply list_elem_of_In; done|left; done|right; done| |done].
    apply list_elem_of_In. done.
  - apply IH.
    + intros a' Ha'. apply Hf. right. done.
    + intros a1 a2 x H1 H2. apply Hdis; right; done.
Qed.

(** The pointers the scanned cells contribute are distinct when the cells
    are. *)
Lemma scan_NoDup boids n (lattice : Lattice) centre rsq cells :
  wellFormed WIDTH HEIGHT BINS BIN_SIZE boids n lattice ->
  NoDup (slotsInUse lattice) ->
  NoDup cells ->
  (forall cell, In cell cells -> (0 <= fst cell)%Z /\ (0 <= snd cell)%Z) ->
  NoDup (concat (map (scanCell boids lattice centre rsq) cells)).
Proof.
  intros Hwf Hnd Hcells Hrange. apply concat_map_NoDup; [done| |].
  - intros cell _. unfold scanCell.
    destruct (binOf _ _ _) as [bin|] eqn:Hbin; [|constructor].
    apply NoDup_ListNoDup, List.NoDup_filter, NoDup_ListNoDup.
    eapply slotsInUse_bin_NoDup; eassumption.
  - intros c1 c2 ptr Hc1 Hc2 H1 H2. unfold scanCell in H1, H2.
    destruct (binOf lattice (Z.to_nat c1.1) (Z.to_nat c1.2)) as [b1|] eqn:Hb1; [|destruct H1].
    destruct (binOf lattice (Z.to_nat c2.1) (Z.to_nat c2.2)) as [b2|] eqn:Hb2; [|destruct H2].
    apply filter_In in H1 as [H1 _]. apply filter_In in H2 as [H2 _].
    apply list_elem_of_In, elem_of_take in H1 as (k1 & Hk1 & Hlt1).
    apply list_elem_of_In, elem_of_take in H2 as (k2 & Hk2 & Hlt2).
    destruct (wf_sound _ _ _ _ _ _ _ Hwf _ _ _ k1 ptr Hb1 Hlt1 Hk1)
      as (a1 & e1 & -> & _ & He1 & Hx1 & Hy1).
    destruct (wf_sound _ _ _ _ _ _ _ Hwf _ _ _ k2 _ Hb2 Hlt2 Hk2)
      as (a2 & e2 & [= <-] & _ & He2 & Hx2 & Hy2).
    rewrite He1 in He2. injection He2 as <-.
    rewrite Hx1 in Hx2. rewrite Hy1 in Hy2.
    injection Hx2 as Hx2. injection Hy2 as Hy2.
    destruct (Hrange c1 Hc1), (Hrange c2 Hc2).
    destruct c1 as [i1 j1], c2 as [i2 j2]. simpl in *. f_equal; lia.
Qed.

(** Away from the edges the nine scanned cells are nine different cells. *)
Lemma scannedCells_interior_NoDup xIndex yIndex :
  (1 <= xIndex)%Z -> (xIndex + 1 < BINS)%Z ->
  (1 <= yIndex)%Z -> (yIndex + 1 < BINS)%Z ->
  NoDup (scannedCells BINS xIndex yIndex).
Proof.
  intros Hx1 Hx2 Hy1 Hy2. unfold scannedCells. simpl.
  rewrite !(neighbour_id BINS BINS_range) by lia.
  repeat (apply NoDup_cons; split;
          [rewrite ?elem_of_cons, elem_of_nil; intros Hin;
           repeat (destruct Hin as [Hin|Hin]; [injection Hin; lia|]); done|]).
  apply NoDup_nil. done.
Qed.

(** X8. In a world of at most [2^24], one more column and row included, with
    the boids, the centre and the radius float values: when the centre of the
    query lies in a cell that is not on the edge of the lattice, and the
    radius is at most the cell size, the result of the query after a frame is
    a permutation of the pointers to the boids of the store that pass the
    distance test of [query], computed in single precision as [query]
    computes it: each of them is reported, and reported once, as by a scan of
    the whole store. *)
Theorem interior_query_reports_each_once (boids : list Boid) (lattice0 lattice : Lattice)
    (centre : float2) (radius : float) (xIndex yIndex : Z) :
  (0 < WIDTH / BINS)%Z -> (0 < HEIGHT / BINS)%Z ->
  ((BINS + 1) * (WIDTH / BINS) <= 2 ^ 24)%Z -> ((BINS + 1) * (HEIGHT / BINS) <= 2 ^ 24)%Z ->
  Forall (fun b => is_float2 (position b)) boids -> is_float2 centre -> is_float radius ->
  hasShape BINS BIN_SIZE lattice0 = true ->
  frame WIDTH HEIGHT BINS boids lattice0 = Done lattice ->
  (0 <= radius)%Q ->
  (radius <= inject_Z (WIDTH / BINS))%Q -> (radius <= inject_Z (HEIGHT / BINS))%Q ->
  xIndexOf WIDTH BINS centre = Done xIndex ->
  yIndexOf HEIGHT BINS centre = Done yIndex ->
  (1 <= xIndex)%Z -> (xIndex + 1 < BINS)%Z ->
  (1 <= yIndex)%Z -> (yIndex + 1 < BINS)%Z ->
  exists result,
    query WIDTH HEIGHT BINS BIN_SIZE boids lattice centre radius = Done result
    /\ result ≡ₚ Some <$> addressesWithin boids centre (fmul radius radius).
Proof.
  intros Hw Hh Hww Hwh Hfb Hfc Hfr Hshape Hframe Hr Hrw Hrh Hx Hy Hx1 Hx2 Hy1 Hy2.
  assert (Hwf : wellFormed WIDTH HEIGHT BINS BIN_SIZE boids (length boids) lattice).
  { apply (addBoids_wellFormed _ _ _ _ boids (length boids) 0 _ _
             (clear_wellFormed WIDTH HEIGHT BINS BIN_SIZE boids lattice0 Hshape) Hframe). }
  assert (Hnd : NoDup (slotsInUse lattice)).
  { rewrite (frame_census boids lattice0 lattice Hframe).
    apply NoDup_fmap_2; [apply _|apply NoDup_seq]. }
  rewrite (query_scan boids (length boids) lattice centre radius xIndex yIndex Hwf Hx Hy).
  eexists. split; [reflexivity|].
  apply NoDup_Permutation.
  - apply scan_NoDup with (n := length boids); [done|done| |].
    + apply scannedCells_interior_NoDup; done.
    + intros cell Hc.
      destruct (scannedCells_range BINS BINS_range xIndex yIndex cell Hc). lia.
  - apply NoDup_fmap_2; [apply _|]. unfold addressesWithin.
    apply NoDup_ListNoDup, List.NoDup_filter, NoDup_ListNoDup, NoDup_seq.
  - intros ptr. rewrite list_elem_of_In.
    rewrite (scan_members WIDTH HEIGHT BINS BIN_SIZE BINS_range
               boids (length boids) lattice centre radius xIndex yIndex
               Hw Hh Hww Hwh Hfb Hfc Hfr Hwf Hr Hrw Hrh Hx Hy ptr).
    rewrite list_elem_of_fmap. unfold addressesWithin. split.
    + intros (a & -> & Ha & Hwi). exists a. split; [done|].
      apply list_elem_of_In, filter_In. split; [apply in_seq; lia|done].
    + intros (a & -> & Hin). apply list_elem_of_In, filter_In in Hin as [Hin Hwi].
      apply in_seq in Hin. exists a. split; [done|]. split; [lia|done].
Qed.

(** *** How far a query reaches *)

(** A scanned index is the centre's index moved by the offset, or the last
    index, where the clamp and the wrap-around below zero send the neighbours
    that fall outside the lattice, or index 0 when the sum wraps around at
    [2^64]. *)
Lemma neighbour_cases index d :
  (0 <= index < size_t_modulus)%Z -> (-1 <= d <= 1)%Z ->
  neighbour BINS index d = (index + d)%Z
  \/ neighbour BINS index d = (BINS - 1)%Z
  \/ (neighbour BINS index d = 0%Z /\ index = (size_t_modulus - 1)%Z).
Proof.
  intros Hi Hd. unfold neighbour, clamp.
  rewrite (Z.mod_small (BINS - 1)) by lia.
  pose proof (Z.mod_pos_bound (index + d) size_t_modulus ltac:(reflexivity)) as Hm.
  destruct (Z.ltb_spec ((index + d) mod size_t_modulus) 0); [lia|].
  destruct (Z.ltb_spec (BINS - 1) ((index + d) mod size_t_modulus));
    [right; left; reflexivity|].
  destruct (Z_lt_le_dec (index + d) 0) as [Hneg|Hpos].
  - right. left. assert (index = 0 /\ d = -1)%Z as [-> ->] by lia.
    change ((0 + -1) mod size_t_modulus)%Z with (size_t_modulus - 1)%Z in *. lia.
  - destruct (Z_lt_le_dec (index + d) size_t_modulus) as [Hlt|Hge].
    + left. apply Z.mod_small. lia.
    + right. right. assert (index + d = size_t_modulus)%Z as Heq by lia.
      rewrite Heq, Z.mod_same by discriminate. lia.
Qed.

Lemma scannedCells_cases xIndex yIndex cell :
  (0 <= xIndex < size_t_modulus)%Z -> (0 <= yIndex < size_t_modulus)%Z ->
  In cell (scannedCells BINS xIndex yIndex) ->
  ((xIndex - 1 <= fst cell <= xIndex + 1)%Z \/ fst cell = (BINS - 1)%Z
   \/ (fst cell = 0%Z /\ xIndex = (size_t_modulus - 1)%Z))
  /\ ((yIndex - 1 <= snd cell <= yIndex + 1)%Z \/ snd cell = (BINS - 1)%Z
      \/ (snd cell = 0%Z /\ yIndex = (size_t_modulus - 1)%Z)).
Proof.
  intros Hx Hy. unfold scannedCells. simpl. intros Hin.
  repeat (destruct Hin as [<-|Hin];
          [cbn [fst snd]; split;
           match goal with
           | |- context [neighbour BINS ?index ?d] =>
               let Hd := fresh in
               assert (Hd : (-1 <= d <= 1)%Z) by lia;
               first [ pose proof (neighbour_cases index d Hx Hd)
                     | pose proof (neighbour_cases index d Hy Hd) ]; lia
           end|]).
  destruct Hin.
Qed.

(** X9. Whatever the radius, a query after a frame only reports boids stored
    in the cells it scans: the column of a reported boid is within one of the
    column of the centre, or is the last column (or column 0, for a centre
    whose column is [2^64 - 1]), and so is its row. A boid closer than the
    radius and two cells away is not reported: the radius has to be at most
    the cell size for the result to be complete. *)
Theorem query_reaches_adjacent_cells_only (boids : list Boid) (lattice0 lattice : Lattice)
    (centre : float2) (radius : float) (xIndex yIndex : Z) :
  hasShape BINS BIN_SIZE lattice0 = true ->
  frame WIDTH HEIGHT BINS boids lattice0 = Done lattice ->
  xIndexOf WIDTH BINS centre = Done xIndex ->
  yIndexOf HEIGHT BINS centre = Done yIndex ->
  exists result,
    query WIDTH HEIGHT BINS BIN_SIZE boids lattice centre radius = Done result
    /\ forall a b, In (Some a) result -> boids !! a = Some b ->
         exists i j,
           xIndexOf WIDTH BINS (position b) = Done i
           /\ yIndexOf HEIGHT BINS (position b) = Done j
           /\ ((xIndex - 1 <= i <= xIndex + 1)%Z \/ i = (BINS - 1)%Z
               \/ (i = 0%Z /\ xIndex = (size_t_modulus - 1)%Z))
           /\ ((yIndex - 1 <= j <= yIndex + 1)%Z \/ j = (BINS - 1)%Z
               \/ (j = 0%Z /\ yIndex = (size_t_modulus - 1)%Z)).
Proof.
  intros Hshape Hframe Hx Hy.
  assert (Hwf : wellFormed WIDTH HEIGHT BINS BIN_SIZE boids (length boids) lattice).
  { apply (addBoids_wellFormed _ _ _ _ boids (length boids) 0 _ _
             (clear_wellFormed WIDTH HEIGHT BINS BIN_SIZE boids lattice0 Hshape) Hframe). }
  rewrite (query_scan boids (length boids) lattice centre radius xIndex yIndex Hwf Hx Hy).
  eexists. split; [reflexivity|]. intros a b Hin Hb.
  apply in_concat in Hin as (l & Hl & Hin). apply in_map_iff in Hl as (cell & <- & Hcell).
  unfold scanCell in Hin.
  destruct (binOf _ _ _) as [bin|] eqn:Hbin; [|destruct Hin].
  apply filter_In in Hin as [Hin _].
  apply list_elem_of_In, elem_of_take in Hin as (k & Hk & Hlt).
  destruct (wf_sound _ _ _ _ _ _ _ Hwf _ _ _ k _ Hbin Hlt Hk)
    as (a' & b' & [= <-] & _ & Hb' & Hbx & Hby).
  rewrite Hb in Hb'. injection Hb' as <-.
  destruct (scannedCells_range BINS BINS_range xIndex yIndex cell Hcell) as [Hcx Hcy].
  rewrite Z2Nat.id in Hbx, Hby by lia.
  exists (fst cell), (snd cell). split; [done|]. split; [done|].
  apply scannedCells_cases; [| |done].
  - unfold xIndexOf in Hx. apply (indexOf_range _ _ _ Hx).
  - unfold yIndexOf in Hy. apply (indexOf_range _ _ _ Hy).
Qed.
End Frame.

(** *** The cell of a position *)

(** X10. The column (and the row) that [addBoid] and [query] compute for a
    position whose coordinates are floats, in a lattice whose cells up to
    the one named end within [2^24]: column [i] takes the coordinates from
    [i] cell sizes up to [i + 1] cell sizes, and column 0 also takes the
    coordinates less than one cell size below zero, the conversion rounding
    towards zero; from one cell size below zero on the conversion is
    undefined.  Within [2^24] the rounded quotient never crosses a cell
    boundary; beyond it does. *)
Theorem cell_index_of_position (WIDTH HEIGHT BINS : Z) (p : float2) (i j : Z) :
  is_float2 p ->
  (0 < WIDTH / BINS)%Z -> (0 < HEIGHT / BINS)%Z ->
  (0 <= i)%Z -> (0 <= j)%Z ->
  ((i + 1) * (WIDTH / BINS) <= 2 ^ 24)%Z -> ((j + 1) * (HEIGHT / BINS) <= 2 ^ 24)%Z ->
  (xIndexOf WIDTH BINS p = Done i
   <-> ((inject_Z (i * (WIDTH / BINS)) <= x p)%Q
        /\ (x p < inject_Z ((i + 1) * (WIDTH / BINS)))%Q)
       \/ (i = 0%Z /\ (- inject_Z (WIDTH / BINS) < x p)%Q /\ (x p < 0)%Q))
  /\ (yIndexOf HEIGHT BINS p = Done j
      <-> ((inject_Z (j * (HEIGHT / BINS)) <= y p)%Q
           /\ (y p < inject_Z ((j + 1) * (HEIGHT / BINS)))%Q)
          \/ (j = 0%Z /\ (- inject_Z (HEIGHT / BINS) < y p)%Q /\ (y p < 0)%Q))
  /\ ((x p <= - inject_Z (WIDTH / BINS))%Q ->
      xIndexOf WIDTH BINS p = Undefined BadFloatToIndex)
  /\ ((y p <= - inject_Z (HEIGHT / BINS))%Q ->
      yIndexOf HEIGHT BINS p = Undefined BadFloatToIndex).
Proof.
  intros [Hfx Hfy] Hw Hh Hi Hj HI HJ. unfold xIndexOf, yIndexOf.
  split; [apply indexOf_cell; done|].
  split; [apply indexOf_cell; done|].
  split; intros Hlow; apply indexOf_below_world; (done || nia).
Qed.

(** Column 0 of the lattice of main.cpp takes x = -10. *)
Lemma cell_index_of_position_witness :
  xIndexOf WINDOW_WIDTH NUMBER_BINS (pt (-10) 500) = Done 0%Z.
Proof.
  apply (cell_index_of_position WINDOW_WIDTH WINDOW_HEIGHT NUMBER_BINS (pt (-10) 500) 0 10).
  - apply pt_is_float; vm_compute; discriminate.
  - reflexivity.
  - reflexivity.
  - discriminate.
  - discriminate.
  - vm_compute. discriminate.
  - vm_compute. discriminate.
  - right. vm_compute. split; [reflexivity|]. split; reflexivity.
Defined.

(** *** The theorems on the lattice of main.cpp *)

Lemma BINS_main : (0 < NUMBER_BINS <= size_t_modulus)%Z.
Proof. vm_compute. split; [reflexivity|discriminate]. Qed.

Lemma BIN_SIZE_main : (0 <= MAX_BOIDS_PER_BIN)%Z.
Proof. vm_compute. discriminate. Qed.

(** The lattice that held the boid at (500, 500) answers nothing once
    cleared. *)
Lemma query_after_clear_is_empty_witness :
  second <$> binOf oneBoidLattice 10 10 = Some 1
  /\ query WINDOW_WIDTH WINDOW_HEIGHT NUMBER_BINS MAX_BOIDS_PER_BIN
       [at_ 500 500] (clear oneBoidLattice) (pt 500 500) 50%Q = Done [].
Proof.
  split; [vm_compute; reflexivity|].
  apply (query_after_clear_is_empty WINDOW_WIDTH WINDOW_HEIGHT NUMBER_BINS MAX_BOIDS_PER_BIN
           BINS_main BIN_SIZE_main [at_ 500 500] oneBoidLattice (pt 500 500) 50%Q 10 10).
  - vm_compute. reflexivity.
  - vm_compute. reflexivity.
  - vm_compute. reflexivity.
Defined.

(** A frame over the boid at (100, 100), run on the lattice that held the
    boid at (500, 500) and run on a new lattice. *)
Lemma reused_lattice_answers_as_new_witness :
  (let* l := frame WINDOW_WIDTH WINDOW_HEIGHT NUMBER_BINS [at_ 100 100] oneBoidLattice in
   query WINDOW_WIDTH WINDOW_HEIGHT NUMBER_BINS MAX_BOIDS_PER_BIN
     [at_ 100 100] l (pt 500 500) 50%Q)
  = (let* l := frame WINDOW_WIDTH WINDOW_HEIGHT NUMBER_BINS [at_ 100 100] emptyLattice in
     query WINDOW_WIDTH WINDOW_HEIGHT NUMBER_BINS MAX_BOIDS_PER_BIN
       [at_ 100 100] l (pt 500 500) 50%Q).
Proof.
  apply (reused_lattice_answers_as_new WINDOW_WIDTH WINDOW_HEIGHT NUMBER_BINS
           MAX_BOIDS_PER_BIN [at_ 100 100] oneBoidLattice (pt 500 500) 50%Q).
  vm_compute. reflexivity.
Defined.

(** After the frame over one boid, one slot is in use. *)
Lemma frame_stores_each_boid_once_witness :
  frame WINDOW_WIDTH WINDOW_HEIGHT NUMBER_BINS [at_ 500 500] emptyLattice
  = Done oneBoidLattice
  /\ length (slotsInUse oneBoidLattice) = 1.
Proof.
  assert (Hframe : frame WINDOW_WIDTH WINDOW_HEIGHT NUMBER_BINS [at_ 500 500] emptyLattice
                   = Done oneBoidLattice) by (vm_compute; reflexivity).
  split; [exact Hframe|].
  apply (frame_stores_each_boid_once WINDOW_WIDTH WINDOW_HEIGHT NUMBER_BINS
           [at_ 500 500] emptyLattice oneBoidLattice Hframe).
Defined.

Lemma cellCount_le_length (WIDTH HEIGHT BINS : Z) boids i j :
  cellCount WIDTH HEIGHT BINS boids i j <= length boids.
Proof. unfold cellCount. apply length_filter. Qed.

(** The frame over the boid at (500, 500) runs to its end. *)
Lemma frame_succeeds_within_capacity_witness :
  exists lattice',
    frame WINDOW_WIDTH WINDOW_HEIGHT NUMBER_BINS [at_ 500 500] emptyLattice = Done lattice'
    /\ forall i j bin, binOf lattice' i j = Some bin ->
         second bin
         = cellCount WINDOW_WIDTH WINDOW_HEIGHT NUMBER_BINS [at_ 500 500]
             (Z.of_nat i) (Z.of_nat j).
Proof.
  apply (frame_succeeds_within_capacity WINDOW_WIDTH WINDOW_HEIGHT NUMBER_BINS
           MAX_BOIDS_PER_BIN BINS_main [at_ 500 500] emptyLattice).
  - reflexivity.
  - reflexivity.
  - vm_compute. discriminate.
  - vm_compute. discriminate.
  - vm_compute. reflexivity.
  - intros b [<-|[]]. split; [apply pt_is_float; vm_compute; discriminate|].
    vm_compute. repeat split; discriminate || reflexivity.
  - intros i j.
    pose proof (cellCount_le_length WINDOW_WIDTH WINDOW_HEIGHT NUMBER_BINS [at_ 500 500] i j)
      as Hle. simpl in Hle. unfold MAX_BOIDS_PER_BIN. lia.
Defined.

(** The boid at (500, 500) is reported once from (525, 500), a cell of the
    interior. *)
Lemma interior_query_reports_each_once_witness :
  exists result,
    query WINDOW_WIDTH WINDOW_HEIGHT NUMBER_BINS MAX_BOIDS_PER_BIN
      [at_ 500 500] oneBoidLattice (pt 525 500) 50%Q = Done result
    /\ result ≡ₚ [Some 0].
Proof.
  apply (interior_query_reports_each_once WINDOW_WIDTH WINDOW_HEIGHT NUMBER_BINS
           MAX_BOIDS_PER_BIN BINS_main BIN_SIZE_main
           [at_ 500 500] emptyLattice oneBoidLattice (pt 525 500) 50%Q 10 10).
  - reflexivity.
  - reflexivity.
  - vm_compute. discriminate.
  - vm_compute. discriminate.
  - repeat constructor; apply is_float_integer; vm_compute; discriminate.
  - apply pt_is_float; vm_compute; discriminate.
  - apply (is_float_integer 50). vm_compute. discriminate.
  - vm_compute. reflexivity.
  - vm_compute. reflexivity.
  - vm_compute. discriminate.
  - vm_compute. discriminate.
  - vm_compute. discriminate.
  - vm_compute. reflexivity.
  - vm_compute. reflexivity.
  - lia.
  - vm_compute. reflexivity.
  - lia.
  - vm_compute. reflexivity.
Defined.

(** With the radius 100 of main.cpp the boid at (615, 525), 90 away from
    (525, 525) and two columns over, is not reported. *)
Lemma query_reaches_adjacent_cells_only_witness :
  within [at_ 615 525] (pt 525 525) (100 * 100)%Q (Some 0) = true
  /\ exists result,
       query WINDOW_WIDTH WINDOW_HEIGHT NUMBER_BINS MAX_BOIDS_PER_BIN
         [at_ 615 525] farBoidLattice (pt 525 525) 100%Q = Done result
       /\ ~ In (Some 0) result.
Proof.
  split; [vm_compute; reflexivity|].
  destruct (query_reaches_adjacent_cells_only WINDOW_WIDTH WINDOW_HEIGHT NUMBER_BINS
              MAX_BOIDS_PER_BIN BINS_main BIN_SIZE_main
              [at_ 615 525] emptyLattice farBoidLattice (pt 525 525) 100%Q 10 10
              ltac:(vm_compute; reflexivity) ltac:(vm_compute; reflexivity)
              ltac:(vm_compute; reflexivity) ltac:(vm_compute; reflexivity))
    as (result & Hquery & Hcells).
  exists result. split; [exact Hquery|]. intros Hin.
  destruct (Hcells 0 (at_ 615 525) Hin eq_refl) as (i & j & Hi & _ & Hcol & _).
  vm_compute in Hi. injection Hi as <-.
  unfold NUMBER_BINS, size_t_modulus in Hcol. lia.
Defined.
End FrameFacts.

(** ** SpatialHashing and Collection: what the queries return *)

Module QueryFacts.
Import SpatialHashing RoundingFacts CellFacts HashFacts CollectionFacts.

Opaque tableSize.

(** *** The indices of a bucket *)

Lemma filter_ext_elem_of {A : Type} (P Q : A -> Prop)
    `{forall x, Decision (P x)} `{forall x, Decision (Q x)} (l : list A) :
  (forall x, x ∈ l -> (P x <-> Q x)) -> filter P l = filter Q l.
Proof.
  induction l as [|a l IH]; intros Hext; [reflexivity|].
  rewrite !filter_cons.
  assert (Ha : P a <-> Q a) by (apply Hext; left).
  rewrite IH by (intros x Hx; apply Hext; right; done).
  destruct (decide (P a)), (decide (Q a)); tauto || reflexivity.
Qed.

Lemma index_filter_snoc (ks : list nat) k b :
  filter (λ j, (ks ++ [k]) !! j = Some b) (seq 0 (length (ks ++ [k])))
  = filter (λ j, ks !! j = Some b) (seq 0 (length ks))
    ++ (if decide (k = b) then [length ks] else []).
Proof.
  rewrite length_app. simpl. rewrite Nat.add_1_r, seq_S, filter_app. simpl. f_equal.
  - apply filter_ext_elem_of. intros j Hj. apply elem_of_seq in Hj.
    rewrite lookup_app_l by lia. reflexivity.
  - rewrite filter_cons, filter_nil.
    rewrite lookup_app_r, Nat.sub_diag by lia. simpl.
    destruct (decide (Some k = Some b)) as [Heq|Hne]; destruct (decide (k = b)) as [Heq'|Hne'];
      congruence || reflexivity.
Qed.

Lemma index_filter_length (ks : list nat) b :
  length (filter (λ j, ks !! j = Some b) (seq 0 (length ks))) = cnt b ks.
Proof.
  induction ks as [|k ks IH] using rev_ind; [reflexivity|].
  rewrite index_filter_snoc, length_app, IH, cnt_app, cnt_cons, cnt_nil.
  destruct (decide (k = b)); simpl; lia.
Qed.

Lemma index_filter_lookup (ks : list nat) b j :
  ks !! j = Some b ->
  filter (λ j, ks !! j = Some b) (seq 0 (length ks)) !! cnt b (take j ks) = Some j.
Proof.
  induction ks as [|k ks IH] using rev_ind; intros Hj; [done|].
  rewrite index_filter_snoc.
  destruct (decide (j < length ks)) as [Hlt|Hge].
  - rewrite lookup_app_l in Hj by done.
    rewrite take_app_le by lia.
    rewrite lookup_app_l; [apply IH; done|].
    rewrite index_filter_length. apply cnt_take_lt. done.
  - assert (j = length ks) as ->.
    { apply lookup_lt_Some in Hj. rewrite length_app in Hj. simpl in Hj. lia. }
    rewrite lookup_app_r, Nat.sub_diag in Hj by lia. injection Hj as ->.
    rewrite take_app_length.
    rewrite lookup_app_r; rewrite index_filter_length; [|lia].
    rewrite Nat.sub_diag. destruct (decide (b = b)); done.
Qed.

Section Buckets.
Context {T : Type} `{Positioned T}.

Lemma keysOf_length (els : list T) : length (keysOf els) = length els.
Proof. unfold keysOf. apply length_map. Qed.

Lemma bucketIndices_length (els : list T) b :
  length (bucketIndices els b) = cnt b (keysOf els).
Proof.
  unfold bucketIndices. rewrite <- keysOf_length. apply index_filter_length.
Qed.

(** After [update], the slots of a bucket hold the indices of the elements
    that hash to it, in increasing order. *)
Lemma update_bucketSlots_indices shuffle (s : t T) b :
  b < tableSize ->
  bucketSlots (update shuffle s) b = bucketIndices (elements s) b.
Proof.
  intros Hb. apply (list_eq_same_length _ _ (cnt b (keysOf (elements s)))).
  - apply bucketIndices_length.
  - apply update_bucketSlots_length. done.
  - intros k h h' Hk Hh Hh'.
    destruct (update_bucketSlots_lookup shuffle s b k h Hb Hh) as (e & He & Hbe & Hcnt).
    assert (Hkey : keysOf (elements s) !! h = Some b).
    { unfold keysOf. rewrite list_lookup_fmap, He. simpl. congruence. }
    pose proof (index_filter_lookup _ _ _ Hkey) as Hidx.
    rewrite keysOf_length, Hcnt in Hidx. unfold bucketIndices in Hh'. congruence.
Qed.

Lemma matches_update shuffle (s : t T) pred h :
  matches (update shuffle s) pred h = matches s pred h.
Proof. unfold matches. rewrite update_elements. reflexivity. Qed.

Lemma query_indices shuffle (s : t T) (q : T) pred m :
  query (update shuffle s) q pred m
  = Done (List.filter (matches s pred)
            (take m (bucketIndices (elements s) (bucketOf q)))).
Proof.
  rewrite query_update, update_bucketSlots_indices by apply bucketOf_lt.
  f_equal. apply List.filter_ext. intros h. apply matches_update.
Qed.

Lemma List_filter_sublist {A : Type} (f : A -> bool) (l : list A) :
  List.filter f l `sublist_of` l.
Proof.
  induction l as [|a l IH]; simpl; [constructor|].
  destruct (f a); [apply sublist_skip|apply sublist_cons]; done.
Qed.

Lemma List_filter_sublist_mono {A : Type} (f : A -> bool) (l1 l2 : list A) :
  l1 `sublist_of` l2 -> List.filter f l1 `sublist_of` List.filter f l2.
Proof.
  induction 1 as [|a l1 l2 _ IH|a l1 l2 _ IH]; simpl; [constructor| |].
  - destruct (f a); [apply sublist_skip|]; done.
  - destruct (f a); [apply sublist_cons|]; done.
Qed.

(** X11. After [update], [query] returns the indices of the elements of the
    bucket of the query position, in increasing order, cut after the first
    [maxClosest] of them and then filtered by the predicate: the references
    come in insertion order, each at most once, and all refer to stored
    elements. *)
Theorem hash_query_in_insertion_order (shuffle : list nat -> list nat) (s : t T)
    (q : T) (pred : T -> bool) (maxClosest : nat) :
  exists r,
    query (update shuffle s) q pred maxClosest = Done r
    /\ r = List.filter (matches s pred)
             (take maxClosest (bucketIndices (elements s) (bucketOf q)))
    /\ r `sublist_of` seq 0 (length (elements s))
    /\ NoDup r.
Proof.
  eexists. split; [apply query_indices|]. split; [reflexivity|].
  assert (Hsub : List.filter (matches s pred)
                   (take maxClosest (bucketIndices (elements s) (bucketOf q)))
                 `sublist_of` seq 0 (length (elements s))).
  { etransitivity; [apply List_filter_sublist|].
    etransitivity; [apply sublist_take|]. apply sublist_filter. }
  split; [exact Hsub|]. eapply sublist_NoDup; [apply NoDup_seq|exact Hsub].
Qed.

(** X12. [query] only looks at the bucket of the query position: a stored
    element that hashes to another bucket is never returned, whatever the
    predicate says of it and however close it is. *)
Theorem hash_query_misses_other_buckets (shuffle : list nat -> list nat) (s : t T)
    (q b : T) (j : nat) (pred : T -> bool) (maxClosest : nat) :
  elements s !! j = Some b ->
  bucketOf b <> bucketOf q ->
  exists r, query (update shuffle s) q pred maxClosest = Done r /\ ~ In j r.
Proof.
  intros Hj Hne. rewrite query_indices. eexists. split; [reflexivity|].
  intros Hin. apply filter_In in Hin as [Hin _].
  apply list_elem_of_In, elem_of_take in Hin as (k & Hk & _).
  apply list_elem_of_lookup_2 in Hk. unfold bucketIndices in Hk.
  apply list_elem_of_filter in Hk as [Hkey _].
  unfold keysOf in Hkey. rewrite list_lookup_fmap, Hj in Hkey. simpl in Hkey.
  congruence.
Qed.

(** *** An index without elements *)

(** X13. [update] on an index that holds no element (after [clear], or before
    the first [insert]) leaves every pivot at 0 and the hashtable empty, and
    every query then answers with an empty result. *)
Theorem hash_update_of_empty_index (shuffle : list nat -> list nat) (s : t T)
    (w h : Z) (q : T) (pred : T -> bool) (maxClosest : nat) :
  pivots (update shuffle (clear s)) = replicate (S tableSize) 0
  /\ hashtable (update shuffle (clear s)) = []
  /\ query (update shuffle (clear s)) q pred maxClosest = Done []
  /\ query (update shuffle (create w h)) q pred maxClosest = Done [].
Proof.
  assert (Hempty : forall s0 : t T, elements s0 = [] ->
            pivots (update shuffle s0) = replicate (S tableSize) 0
            /\ hashtable (update shuffle s0) = []
            /\ query (update shuffle s0) q pred maxClosest = Done []).
  { intros s0 Hs0. destruct (update_spec shuffle s0) as (Hpv & Hlen & _).
    rewrite Hs0 in Hpv, Hlen. split; [|split].
    - rewrite Hpv.
      assert (Hzero : forall n i, map (λ b, below b (keysOf (@nil T))) (seq i n)
                                  = replicate n 0).
      { induction n as [|n IH]; intros i; [reflexivity|].
        simpl. f_equal. apply IH. }
      apply Hzero.
    - apply nil_length_inv. done.
    - rewrite query_indices, Hs0. unfold bucketIndices. simpl.
      destruct maxClosest; reflexivity. }
  destruct (Hempty (clear s) eq_refl) as (H1 & H2 & H3).
  destruct (Hempty (create w h) eq_refl) as (_ & _ & H4).
  split; [exact H1|]. split; [exact H2|]. split; [exact H3|exact H4].
Qed.

(** *** The same elements in the linear collection *)

Lemma matchIndices_filter (pred : T -> bool) (els : list T) : forall i,
  Collection.matchIndices pred els i
  = List.filter (fun j => from_option pred false (els !! (j - i))) (seq i (length els)).
Proof.
  induction els as [|e els IH]; intros i; [reflexivity|].
  simpl. rewrite Nat.sub_diag. simpl. rewrite IH.
  assert (Hext : List.filter (fun j => from_option pred false (els !! (j - S i)))
                   (seq (S i) (length els))
                 = List.filter (fun j => from_option pred false ((e :: els) !! (j - i)))
                     (seq (S i) (length els))).
  { apply List.filter_ext_in. intros j Hj. apply in_seq in Hj.
    replace (j - i) with (S (j - S i)) by lia. reflexivity. }
  rewrite Hext. destruct (pred e); reflexivity.
Qed.

Lemma Collection_insertAll_elements (P : list T) (c : Collection.t T) :
  Collection.elements (Collection.insertAll P c) = Collection.elements c ++ P.
Proof.
  revert c. induction P as [|e P IH]; intros c; simpl.
  - rewrite app_nil_r. reflexivity.
  - unfold Collection.insertAll in *. simpl. rewrite IH. simpl.
    rewrite <- app_assoc. reflexivity.
Qed.

(** X14. With the same elements inserted in the same order, what
    [SpatialHashing::query] returns after [update] is a sublist of what
    [Collection::query] returns with the same predicate and a cap that does
    not cut the scan: the hash returns no element the linear scan does not
    return, and returns them in the same order. *)
Theorem hash_query_sublist_of_collection (shuffle : list nat -> list nat) (P : list T)
    (w h : Z) (q : T) (pred : T -> bool) (maxClosest : nat) :
  exists r,
    query (update shuffle (insertAll P (create w h))) q pred maxClosest = Done r
    /\ r `sublist_of`
         Collection.query (Collection.insertAll P Collection.create) pred (length P).
Proof.
  rewrite query_indices. eexists. split; [reflexivity|].
  rewrite Collection_query_closed, Collection_insertAll_elements.
  rewrite insertAll_elements. simpl.
  rewrite matchIndices_filter.
  rewrite (take_ge (List.filter _ (seq 0 (length P)))).
  2: { etransitivity; [apply sublist_length, List_filter_sublist|].
       rewrite length_seq. done. }
  assert (Hext : List.filter (fun j => from_option pred false (P !! (j - 0))) (seq 0 (length P))
                 = List.filter (matches (insertAll P (create w h)) pred) (seq 0 (length P))).
  { apply List.filter_ext. intros j. unfold matches.
    rewrite insertAll_elements, Nat.sub_0_r. reflexivity. }
  rewrite Hext. apply List_filter_sublist_mono.
  etransitivity; [apply sublist_take|]. unfold bucketIndices. apply sublist_filter.
Qed.

(** X16. Insert and query round trip of the linear collection: looking up the
    references that [query] returns gives the first [maxClosest] elements, in
    insertion order, of those inserted that satisfy the predicate. *)
Theorem collection_insert_query_round_trip (P : list T) (pred : T -> bool)
    (maxClosest : nat) :
  omap (fun j => P !! j)
    (Collection.query (Collection.insertAll P Collection.create) pred maxClosest)
  = take maxClosest (List.filter pred P).
Proof.
  rewrite Collection_query_closed, Collection_insertAll_elements. simpl.
  assert (Hrefs : forall (els : list T) i,
            Forall2 (fun j e => i <= j /\ els !! (j - i) = Some e)
              (Collection.matchIndices pred els i) (List.filter pred els)).
  { induction els as [|e els IH]; intros i; simpl; [constructor|].
    assert (Htail : Forall2 (fun j e0 => i <= j /\ (e :: els) !! (j - i) = Some e0)
                      (Collection.matchIndices pred els (S i)) (List.filter pred els)).
    { eapply Forall2_impl; [apply IH|]. intros j e0 [Hle Hl]. split; [lia|].
      replace (j - i) with (S (j - S i)) by lia. done. }
    destruct (pred e); [constructor|]; [|done|done].
    split; [lia|]. rewrite Nat.sub_diag. reflexivity. }
  apply omap_lookup_Forall2. apply Forall2_take.
  eapply Forall2_impl; [apply (Hrefs P 0)|].
  intros j e [_ Hl]. rewrite Nat.sub_0_r in Hl. done.
Qed.

(** X17. The range overload of the earlier revision of [Collection] is the
    predicate query with [Contains(range)]. *)
Theorem collection_range_query_is_contains_query (c : Collection.t T) (range : Boxf)
    (maxClosest : nat) :
  Collection.queryRange c range maxClosest
  = Collection.query c (Contains range) maxClosest.
Proof.
  unfold Collection.queryRange, Collection.query.
  generalize 0 at 1 3 as i. generalize 0 as count. generalize (@nil nat) as result.
  induction (Collection.elements c) as [|e els IH]; intros result count i; [reflexivity|].
  simpl. unfold Contains at 1.
  destruct (contains range (position e)); [|apply IH].
  destruct (maxClosest <=? count); [reflexivity|apply IH].
Qed.
End Buckets.

Transparent tableSize.

(** X15.  [getCellCoordinates] on a position whose coordinates are floats
    and not negative, for a cell that ends within [2^24]: the cell [(i, j)]
    is the square of side [cellSize] whose lowest corner is
    [(i * cellSize, j * cellSize)]; and every cell coordinate, negative or
    not, is given a bucket of the pivot table. *)
Theorem cell_coordinates_floor (pos : float2) (i j : Z) :
  is_float2 pos -> (0 <= x pos)%Q -> (0 <= y pos)%Q ->
  (0 <= i)%Z -> (0 <= j)%Z ->
  ((i + 1) * cellSize <= 2 ^ 24)%Z -> ((j + 1) * cellSize <= 2 ^ 24)%Z ->
  (getCellCoordinates pos = mkVector2 i j
   <-> (inject_Z (i * cellSize) <= x pos)%Q /\ (x pos < inject_Z ((i + 1) * cellSize))%Q
       /\ (inject_Z (j * cellSize) <= y pos)%Q /\ (y pos < inject_Z ((j + 1) * cellSize))%Q)
  /\ forall i' j' : Z, getCellIndex (mkVector2 i' j') < tableSize.
Proof.
  intros [Hfx Hfy] Hx0 Hy0 Hi Hj HI HJ.
  split.
  - unfold getCellCoordinates, floor.
    pose proof (floor_fdiv_cell (x pos) cellSize i Hfx ltac:(reflexivity) Hi HI Hx0) as Hx.
    pose proof (floor_fdiv_cell (y pos) cellSize j Hfy ltac:(reflexivity) Hj HJ Hy0) as Hy.
    assert (Hint : forall z k : Z, (0 <= k)%Z -> (k + 1 <= 2 ^ 24)%Z ->
                     to_int32 z = k <-> z = k).
    { intros z k Hk0 Hk. unfold to_int32.
      destruct (_ && _)%Z eqn:E; [done|].
      apply andb_false_iff in E. split; [lia|]. intros ->. exfalso.
      destruct E as [E|E]; [apply Z.leb_gt in E|apply Z.ltb_ge in E]; lia. }
    assert (Hci : (i + 1 <= 2 ^ 24)%Z) by (unfold cellSize in HI; lia).
    assert (Hcj : (j + 1 <= 2 ^ 24)%Z) by (unfold cellSize in HJ; lia).
    split.
    + intros [= Hi' Hj'].
      apply (proj1 (Hint _ _ Hi Hci)) in Hi'. apply (proj1 (Hint _ _ Hj Hcj)) in Hj'.
      apply Hx in Hi'. apply Hy in Hj'. tauto.
    + intros (H1 & H2 & H3 & H4).
      f_equal; [apply (proj2 (Hint _ _ Hi Hci)), Hx|apply (proj2 (Hint _ _ Hj Hcj)), Hy]; done.
  - intros i' j'. unfold getCellIndex, tableSize. apply Z2Nat.inj_lt.
    + apply Z.mod_pos_bound. reflexivity.
    + discriminate.
    + apply Z.mod_pos_bound. reflexivity.
Qed.

(** The body at (325, 875) is in the cell (6, 17). *)
Lemma cell_coordinates_floor_witness :
  getCellCoordinates (mkVector2 325%Q 875%Q : float2) = mkVector2 6%Z 17%Z.
Proof.
  apply (cell_coordinates_floor (mkVector2 325%Q 875%Q : float2) 6 17).
  - split; [apply (is_float_integer 325)|apply (is_float_integer 875)];
      vm_compute; discriminate.
  - discriminate.
  - discriminate.
  - discriminate.
  - discriminate.
  - vm_compute. discriminate.
  - vm_compute. discriminate.
  - vm_compute. repeat split; discriminate || reflexivity.
Defined.

(** Below zero and far from the origin the rounding and the conversion to
    [int] show: the least negative float is put in the cell 0, its quotient
    rounding to zero, and the coordinate [2^40] in the cell [-2^31]. *)
Lemma cell_of_least_negative :
  getCellCoordinates (mkVector2 (- (2 ^ (-149)))%Q 0%Q : float2) = mkVector2 0%Z 0%Z.
Proof. vm_compute. reflexivity. Qed.

Lemma cell_of_far_coordinate :
  getCellCoordinates (mkVector2 (2 ^ 40)%Q 0%Q : float2) = mkVector2 (- 2 ^ 31)%Z 0%Z.
Proof. vm_compute. reflexivity. Qed.

(** Two bodies two units apart on either side of the line [x = 50]: the
    [Distance] query of radius 50 around the first does not return the
    second. *)
Lemma hash_query_misses_other_buckets_witness :
  Distance (position (Body_at 49 25)) 50%Q (Body_at 51 25) = true
  /\ exists r,
       query (Scenario.hashOf [Body_at 49 25; Body_at 51 25]) (Body_at 49 25)
         (Distance (position (Body_at 49 25)) 50%Q) 2 = Done r
       /\ ~ In 1 r.
Proof.
  split; [vm_compute; reflexivity|].
  apply (hash_query_misses_other_buckets (fun l => l)
           (insertAll [Body_at 49 25; Body_at 51 25] (create 1000 1000))
           (Body_at 49 25) (Body_at 51 25) 1).
  - reflexivity.
  - vm_compute. lia.
Defined.
End QueryFacts.

(** ** Geometry: boxes and the predicate objects in floating point *)

Module BoxFacts.
Import RoundingFacts DistanceFacts CellFacts BoxOps.
Local Open Scope Q_scope.

(** *** The span of a box on one axis *)

(** The interval [[min a r, max a r)] that [contains], [intersects] and
    [intersection] compute on each axis, [r] being the far edge as computed. *)
Lemma span_cases (a r : Q) :
  (a <= r /\ Qmin a r == a /\ Qmax a r == r)
  \/ (r < a /\ Qmin a r == r /\ Qmax a r == a).
Proof.
  destruct (Qlt_le_dec r a) as [Hneg|Hpos].
  - right. split; [done|]. split; [apply Q.min_r|apply Q.max_l]; lra.
  - left. split; [done|]. split; [apply Q.min_l|apply Q.max_r]; lra.
Qed.

Lemma Qle_bool_le (a b : Q) : Qle_bool a b = true <-> a <= b.
Proof. apply Qle_bool_iff. Qed.

(** [contains] as a proposition. *)
Lemma contains_spec (b : Box) (p : float2) :
  contains b p = true
  <-> Qmin (left b) (fadd (left b) (width b)) <= x p
      /\ x p < Qmax (left b) (fadd (left b) (width b))
      /\ Qmin (top b) (fadd (top b) (height b)) <= y p
      /\ y p < Qmax (top b) (fadd (top b) (height b)).
Proof.
  unfold contains. rewrite !andb_true_iff, !Qle_bool_le, !Qltb_lt. tauto.
Qed.

(** A computed value is exact when the exact value is a [float]. *)
Lemma to_float_exact (q v : Q) : q == v -> is_float v -> to_float q == v.
Proof.
  intros E Hv. unfold to_float. rewrite (rnd_proper 24 (-149) q v E). apply to_float_id. done.
Qed.

(** *** The disc and the square *)





Section PredicateFacts.
Context {T : Type} `{Positioned T}.


End PredicateFacts.


(** When an edge of the square rounds, the disc can stick out: around
    [(1 + 2^-23, 0)] with the radius [2^-23 + 3 * 2^-26] the left edge rounds
    down to [1 - 2^-24] and the right edge to [1 + 2^-22], and the element at
    [(1 + 2^-22, 0)], which [Distance] accepts, is on that edge. *)
Lemma distance_outside_contains_around :
  let point : Vector2f := mkVector2 (1 + 2 ^ (-23)) 0 in
  let radius : float := 2 ^ (-23) + 3 * 2 ^ (-26) in
  let el := Body_at (1 + 2 ^ (-22)) 0 in
  is_float2 point /\ is_float radius /\ is_float2 (position el)
  /\ Distance point radius el = true
  /\ ContainsAround point radius el = false.
Proof.
  cbv zeta. split; [|split; [|split]].
  - split; [exists (2 ^ 23 + 1)%Z, (-23)%Z|exists 0%Z, 0%Z]; vm_compute; repeat split; discriminate.
  - exists 11%Z, (-26)%Z. vm_compute. repeat split; discriminate.
  - split; [exists (2 ^ 22 + 1)%Z, (-22)%Z|exists 0%Z, 0%Z]; vm_compute; repeat split; discriminate.
  - vm_compute. split; reflexivity.
Qed.

(** *** Boxes of whole numbers *)

Lemma integral_weaken (n m : Z) (q : Q) : (n <= m)%Z -> integral n q -> integral m q.
Proof. intros Hnm (z & Hq & Hz). exists z. split; [done|lia]. Qed.

Lemma integral_proper (n : Z) (p q : Q) : p == q -> integral n p -> integral n q.
Proof. intros Hpq (z & Hq & Hz). exists z. split; [|done]. rewrite <- Hpq. done. Qed.

Lemma integral_is_float (n : Z) (q : Q) : (n <= 2 ^ 24)%Z -> integral n q -> is_float q.
Proof.
  intros Hn (z & Hq & Hz).
  apply (representable_proper _ _ (inject_Z z)); [symmetry; done|].
  apply is_float_integer. lia.
Qed.

Lemma integral_add (n m : Z) (a b : Q) :
  integral n a -> integral m b -> integral (n + m) (a + b).
Proof.
  intros (za & Ha & Hza) (zb & Hb & Hzb). exists (za + zb)%Z.
  split; [rewrite inject_Z_plus, Ha, Hb; reflexivity|lia].
Qed.

Lemma integral_sub (n m : Z) (a b : Q) :
  integral n a -> integral m b -> integral (n + m) (a - b).
Proof.
  intros (za & Ha & Hza) (zb & Hb & Hzb). exists (za - zb)%Z.
  split; [|lia]. unfold Z.sub. rewrite inject_Z_plus, inject_Z_opp, Ha, Hb. reflexivity.
Qed.

Lemma integral_min (n : Z) (a b : Q) : integral n a -> integral n b -> integral n (Qmin a b).
Proof.
  intros Ha Hb. destruct (Q.min_spec a b) as [[_ E]|[_ E]];
    [apply (integral_proper n a)|apply (integral_proper n b)]; done || (symmetry; done).
Qed.

Lemma integral_max (n : Z) (a b : Q) : integral n a -> integral n b -> integral n (Qmax a b).
Proof.
  intros Ha Hb. destruct (Q.max_spec a b) as [[_ E]|[_ E]];
    [apply (integral_proper n b)|apply (integral_proper n a)]; done || (symmetry; done).
Qed.

(** Sums and differences of whole numbers that stay within [2^24] are
    computed exactly. *)
Lemma fadd_integral (n m : Z) (a b : Q) :
  (n + m <= 2 ^ 24)%Z -> integral n a -> integral m b ->
  fadd a b == a + b /\ integral (n + m) (fadd a b).
Proof.
  intros Hnm Ha Hb. pose proof (integral_add n m a b Ha Hb) as Hs.
  assert (E : fadd a b == a + b).
  { apply to_float_exact; [reflexivity|]. apply (integral_is_float (n + m)); done. }
  split; [done|]. apply (integral_proper _ (a + b)); [symmetry; done|done].
Qed.

Lemma fsub_integral (n m : Z) (a b : Q) :
  (n + m <= 2 ^ 24)%Z -> integral n a -> integral m b ->
  fsub a b == a - b /\ integral (n + m) (fsub a b).
Proof.
  intros Hnm Ha Hb. pose proof (integral_sub n m a b Ha Hb) as Hs.
  assert (E : fsub a b == a - b).
  { apply to_float_exact; [reflexivity|]. apply (integral_is_float (n + m)); done. }
  split; [done|]. apply (integral_proper _ (a - b)); [symmetry; done|done].
Qed.

(** One axis of [intersection] on whole numbers: the new interval holds the
    values both intervals hold. *)
Lemma intersection_axis (l1 w1 l2 w2 v : Q) :
  integral (2 ^ 22) l1 -> integral (2 ^ 22) w1 ->
  integral (2 ^ 22) l2 -> integral (2 ^ 22) w2 ->
  let lo1 := Qmin l1 (fadd l1 w1) in
  let hi1 := Qmax l1 (fadd l1 w1) in
  let lo2 := Qmin l2 (fadd l2 w2) in
  let hi2 := Qmax l2 (fadd l2 w2) in
  let nl := Qmax lo1 lo2 in
  let nw := fsub (Qmin hi1 hi2) nl in
  (0 <= nw ->
     (Qmin nl (fadd nl nw) <= v /\ v < Qmax nl (fadd nl nw))
     <-> (lo1 <= v /\ v < hi1 /\ lo2 <= v /\ v < hi2))
  /\ (nw < 0 -> ~ (lo1 <= v /\ v < hi1 /\ lo2 <= v /\ v < hi2)).
Proof.
  intros Hl1 Hw1 Hl2 Hw2 lo1 hi1 lo2 hi2 nl nw.
  assert (H23 : (2 ^ 22 + 2 ^ 22 = 2 ^ 23)%Z) by reflexivity.
  assert (H24 : (2 ^ 23 + 2 ^ 23 = 2 ^ 24)%Z) by reflexivity.
  destruct (fadd_integral _ _ l1 w1 ltac:(rewrite H23; discriminate) Hl1 Hw1) as [_ Hr1].
  destruct (fadd_integral _ _ l2 w2 ltac:(rewrite H23; discriminate) Hl2 Hw2) as [_ Hr2].
  rewrite H23 in Hr1, Hr2.
  assert (Hl1' : integral (2 ^ 23) l1) by (apply (integral_weaken (2 ^ 22)); [discriminate|done]).
  assert (Hl2' : integral (2 ^ 23) l2) by (apply (integral_weaken (2 ^ 22)); [discriminate|done]).
  assert (Hnl : integral (2 ^ 23) nl) by (apply integral_max; apply integral_min; done).
  assert (Hhm : integral (2 ^ 23) (Qmin hi1 hi2)) by (apply integral_min; apply integral_max; done).
  destruct (fsub_integral _ _ _ nl ltac:(rewrite H24; discriminate) Hhm Hnl) as [Hnw _].
  fold nw in Hnw.
  assert (Hr : fadd nl nw == Qmin hi1 hi2).
  { apply to_float_exact; [rewrite Hnw; ring|].
    apply (integral_is_float (2 ^ 23)); [discriminate|done]. }
  clearbody nw. clear Hnl Hhm Hr1 Hr2 Hl1' Hl2' H23 H24.
  unfold nl in *. clear nl.
  destruct (Q.max_spec lo1 lo2) as [[? Hmx]|[? Hmx]];
  destruct (Q.min_spec hi1 hi2) as [[? Hmn]|[? Hmn]];
  (split; [intros Hpos|intros Hneg; lra]);
  destruct (span_cases (Qmax lo1 lo2) (fadd (Qmax lo1 lo2) nw))
    as [(Hw & Hmin & Hmax)|(Hw & Hmin & Hmax)]; try lra;
  rewrite Hmin, Hmax; lra.
Qed.

Lemma contains_zero_box (p : float2) : contains (mkBox 0 0 0 0) p = false.
Proof.
  apply not_true_is_false. rewrite contains_spec. cbn [left top width height].
  change (fadd 0 0) with 0. intros (H1 & H2 & _).
  destruct (span_cases 0 0) as [(Hw & Hmin & Hmax)|(Hw & Hmin & Hmax)];
    rewrite Hmin in H1; rewrite Hmax in H2; lra.
Qed.

(** X19. On boxes whose members are whole numbers of magnitude at most
    [2^22], [intersection] is the set intersection: a point is in the box it
    returns exactly when it is in both boxes, for boxes of any sign of width
    and height; when the boxes share no point the zero box it returns holds
    none.  Without the bound the width of the result is a rounded
    difference and a common point can be lost (see
    [intersection_loses_point]). *)
Theorem intersection_contains_common_points (a b : Box) (p : float2) :
  integral_box a -> integral_box b ->
  contains (intersection a b) p = contains a p && contains b p.
Proof.
  intros (Hal & Hat & Haw & Hah) (Hbl & Hbt & Hbw & Hbh).
  apply eq_true_iff_eq. rewrite andb_true_iff.
  rewrite (contains_spec a), (contains_spec b).
  unfold intersection.
  destruct (intersection_axis (left a) (width a) (left b) (width b) (x p) Hal Haw Hbl Hbw)
    as [Hx Hx'].
  destruct (intersection_axis (top a) (height a) (top b) (height b) (y p) Hat Hah Hbt Hbh)
    as [Hy Hy'].
  set (minX := Qmin (left a) (fadd (left a) (width a))) in *.
  set (maxX := Qmax (left a) (fadd (left a) (width a))) in *.
  set (minY := Qmin (top a) (fadd (top a) (height a))) in *.
  set (maxY := Qmax (top a) (fadd (top a) (height a))) in *.
  set (minX2 := Qmin (left b) (fadd (left b) (width b))) in *.
  set (maxX2 := Qmax (left b) (fadd (left b) (width b))) in *.
  set (minY2 := Qmin (top b) (fadd (top b) (height b))) in *.
  set (maxY2 := Qmax (top b) (fadd (top b) (height b))) in *.
  cbv zeta in *.
  destruct (Qltb (fsub (Qmin maxX maxX2) (Qmax minX minX2)) 0) eqn:Hw.
  - apply Qltb_lt in Hw. simpl. rewrite contains_zero_box. split; [discriminate|].
    intros [(? & ? & ? & ?) (? & ? & ? & ?)]. exfalso. apply (Hx' Hw). done.
  - apply Qltb_false in Hw.
    destruct (Qltb (fsub (Qmin maxY maxY2) (Qmax minY minY2)) 0) eqn:Hh.
    + apply Qltb_lt in Hh. simpl. rewrite contains_zero_box. split; [discriminate|].
      intros [(? & ? & ? & ?) (? & ? & ? & ?)]. exfalso. apply (Hy' Hh). done.
    + apply Qltb_false in Hh. simpl.
      rewrite contains_spec. cbn [left top width height].
      specialize (Hx Hw). specialize (Hy Hh). tauto.
Qed.

Lemma integral_box_intro (l t w h : Z) :
  (Z.abs l <= 2 ^ 22)%Z -> (Z.abs t <= 2 ^ 22)%Z ->
  (Z.abs w <= 2 ^ 22)%Z -> (Z.abs h <= 2 ^ 22)%Z ->
  integral_box (mkBox (inject_Z l) (inject_Z t) (inject_Z w) (inject_Z h)).
Proof.
  intros Hl Ht Hw Hh. repeat split;
    [exists l|exists t|exists w|exists h]; (split; [reflexivity|done]).
Qed.

(** The point (7, 7) is in the boxes of side 10 at (0, 0) and at (5, 5), and
    in their intersection. *)
Lemma intersection_contains_common_points_witness :
  contains (intersection (mkBox 0 0 10 10) (mkBox 5 5 10 10)) (mkVector2 7 7) = true
  /\ contains (intersection (mkBox 0 0 10 10) (mkBox 5 5 10 10)) (mkVector2 7 7)
     = contains (mkBox 0 0 10 10) (mkVector2 7 7) && contains (mkBox 5 5 10 10) (mkVector2 7 7).
Proof.
  split; [vm_compute; reflexivity|].
  apply (intersection_contains_common_points (mkBox 0 0 10 10) (mkBox 5 5 10 10) (mkVector2 7 7)).
  - apply (integral_box_intro 0 0 10 10); vm_compute; discriminate.
  - apply (integral_box_intro 5 5 10 10); vm_compute; discriminate.
Defined.

(** Where the difference of two edges rounds, [intersection] loses a common
    point: the box from -1 to 1 and the box from [-3 * 2^-26] to 2 both hold
    [(1 - 2^-24, 0)]; the width of their intersection, [1 + 3 * 2^-26],
    rounds to 1, and its right edge, [1 - 3 * 2^-26], to [1 - 2^-24]. *)
Lemma intersection_loses_point :
  let a := mkBox (-1) (-1) 2 2 in
  let b := mkBox (- (3 * 2 ^ (-26))) (-1) 2 2 in
  let p : float2 := mkVector2 (1 - 2 ^ (-24)) 0 in
  is_float (left b) /\ is_float2 p
  /\ contains a p = true /\ contains b p = true
  /\ contains (intersection a b) p = false.
Proof.
  cbv zeta. split; [|split].
  - exists (-3)%Z, (-26)%Z. vm_compute. repeat split; discriminate.
  - split; [exists (2 ^ 24 - 1)%Z, (-24)%Z|exists 0%Z, 0%Z]; vm_compute; repeat split; discriminate.
  - vm_compute. repeat split; reflexivity.
Qed.

(** *** Boxes that share a point *)




End BoxFacts.

(** ** Geometry: the zones of a box and the position helpers *)

Module GeometryFacts.
Import BoxOps Vector2Ops.



(** One axis of [constrain]. *)
Lemma constrain_axis (v lo hi : Q) :
  (lo <= hi)%Q ->
  let c1 := if Qltb v lo then lo else v in
  let c := if Qltb hi c1 then hi else c1 in
  (lo <= c)%Q /\ (c <= hi)%Q
  /\ (let d1 := if Qltb c lo then lo else c in if Qltb hi d1 then hi else d1) = c
  /\ ((lo <= v)%Q -> (v <= hi)%Q -> c = v).
Proof.
  intros Hle. cbv zeta.
  qcase v lo.
  - qcase hi lo; [exfalso; lra|].
    split; [lra|]. split; [lra|]. split; [|intros; exfalso; lra].
    qcase lo lo; [exfalso; lra|]. qcase hi lo; [exfalso; lra|]. reflexivity.
  - qcase hi v.
    + split; [lra|]. split; [lra|]. split; [|intros; exfalso; lra].
      qcase hi lo; [exfalso; lra|]. qcase hi hi; [exfalso; lra|]. reflexivity.
    + split; [lra|]. split; [lra|]. split; [|reflexivity].
      qcase v lo; [exfalso; lra|]. qcase hi v; [exfalso; lra|]. reflexivity.
Qed.

(** X23. [constrain] with a proper rectangle ([left <= right],
    [top <= bottom]) returns a point of the rectangle, leaves a point of the
    rectangle as it is, and constraining twice is constraining once. *)
Theorem constrain_into_rectangle (v : float2) (left top right bottom : float) :
  (left <= right)%Q -> (top <= bottom)%Q ->
  let c := constrain v left top right bottom in
  ((left <= x c)%Q /\ (x c <= right)%Q /\ (top <= y c)%Q /\ (y c <= bottom)%Q)
  /\ constrain c left top right bottom = c
  /\ ((left <= x v)%Q /\ (x v <= right)%Q /\ (top <= y v)%Q /\ (y v <= bottom)%Q -> c = v).
Proof.
  intros Hlr Htb c. unfold c, constrain. destruct v as [vx vy].
  cbv zeta. cbn [x y].
  destruct (constrain_axis vx left right Hlr) as (Hx1 & Hx2 & Hx3 & Hx4).
  destruct (constrain_axis vy top bottom Htb) as (Hy1 & Hy2 & Hy3 & Hy4).
  cbv zeta in *.
  split; [tauto|]. split.
  - f_equal; [exact Hx3|exact Hy3].
  - intros (? & ? & ? & ?). f_equal; [apply Hx4|apply Hy4]; done.
Qed.

Lemma constrain_into_rectangle_witness :
  constrain (mkVector2 (-5)%Q 50%Q) 0%Q 0%Q 100%Q 40%Q = mkVector2 0%Q 40%Q
  /\ constrain (constrain (mkVector2 (-5)%Q 50%Q) 0%Q 0%Q 100%Q 40%Q) 0%Q 0%Q 100%Q 40%Q
     = constrain (mkVector2 (-5)%Q 50%Q) 0%Q 0%Q 100%Q 40%Q.
Proof.
  split; [vm_compute; reflexivity|].
  apply (constrain_into_rectangle (mkVector2 (-5)%Q 50%Q) 0%Q 0%Q 100%Q 40%Q);
    vm_compute; discriminate.
Defined.



(** X25. [toroidal_distance2] never exceeds the plain squared distance, and is
    the plain squared distance when neither difference exceeds half the world
    size. Only a positive difference is ever wrapped. *)
Theorem toroidal_distance2_at_most_plain (v other : float2) (width height : float) :
  (0 <= width)%Q -> (0 <= height)%Q ->
  (toroidal_distance2 v other width height <= distanceSquared v other)%Q
  /\ ((x v - x other <= width / 2)%Q -> (y v - y other <= height / 2)%Q ->
      toroidal_distance2 v other width height = distanceSquared v other).
Proof.
  intros Hw Hh. unfold toroidal_distance2, distanceSquared. halves.
  set (dx := (x v - x other)%Q). set (dy := (y v - y other)%Q).
  destruct (Qltb (width * (1 # 2)) dx) eqn:H1; destruct (Qltb (height * (1 # 2)) dy) eqn:H2;
    rewrite ?Qltb_lt, ?Qltb_false in *.
  all: split; [nra|intros; try reflexivity; exfalso; lra].
Qed.

Lemma toroidal_distance2_at_most_plain_witness :
  (toroidal_distance2 (mkVector2 90%Q 0%Q) (mkVector2 10%Q 0%Q) 100%Q 100%Q == 400)%Q
  /\ (distanceSquared (mkVector2 90%Q 0%Q) (mkVector2 10%Q 0%Q) == 6400)%Q
  /\ (toroidal_distance2 (mkVector2 90%Q 0%Q) (mkVector2 10%Q 0%Q) 100%Q 100%Q
      <= distanceSquared (mkVector2 90%Q 0%Q) (mkVector2 10%Q 0%Q))%Q.
Proof.
  split; [vm_compute; reflexivity|]. split; [vm_compute; reflexivity|].
  apply (toroidal_distance2_at_most_plain (mkVector2 90%Q 0%Q) (mkVector2 10%Q 0%Q) 100%Q 100%Q);
    vm_compute; discriminate.
Defined.
End GeometryFacts.

(** ** FpsCounter: what is reported *)

Module FpsFacts.
Import FpsCounter.

Lemma create_ordered (now interval : float) : ordered (create now interval).
Proof. unfold ordered, create. simpl. repeat split; (reflexivity || discriminate). Qed.

(** One [update]: the state stays ordered, and the callback gets a minimum,
    a current value and a maximum in that order. *)
Lemma update_ordered (now : float) (s s' : t) call :
  ordered s -> update now s = Some (s', call) ->
  ordered s'
  /\ forall c, call = Some c -> (0 < c.1.1)%Q /\ (c.1.1 <= c.1.2)%Q /\ (c.1.2 <= c.2)%Q.
Proof.
  intros (Hmin & Hmax & Hsmin & Hs). unfold update.
  qcase 0%Q (now - clock s)%Q; [|discriminate].
  assert (Hact : (0 < 1 / (now - clock s))%Q).
  { apply Qlt_shift_div_l; [done|]. lra. }
  set (actual := (1 / (now - clock s))%Q) in *.
  qcase actual (fps_min s); qcase (fps_max s) actual;
    qcase (refresh_interval s) (now - refreshClock s)%Q;
    intros [= <- <-]; unfold ordered; simpl;
    (split; [repeat split; try lra; reflexivity || discriminate
            |intros c [= <-] || (intros c Hc; discriminate Hc); simpl; repeat split; lra]).
Qed.

Lemma to_int_mono (p q : float) (a b : Z) :
  (0 <= p)%Q -> (p <= q)%Q -> to_int p = Some a -> to_int q = Some b -> (0 <= a <= b)%Z.
Proof.
  unfold to_int. intros Hp Hpq.
  destruct (_ && _); [|discriminate]. intros [= <-].
  destruct (_ && _); [|discriminate]. intros [= <-].
  split; [apply truncate_nonneg; lra|apply truncate_mono; [lra|done]].
Qed.

(** X26. Through any sequence of updates after the construction: every call of
    the callback gets a positive minimum, a current value and a maximum in
    that order, and [getFpsMin] never reports more than [getFpsMax], nor less
    than 0. *)
Theorem fps_reports_are_ordered (t0 interval : float) (times : list float) (s : t)
    (calls : list (float * float * float)) :
  run times (create t0 interval) = Some (s, calls) ->
  Forall (fun c => (0 < c.1.1)%Q /\ (c.1.1 <= c.1.2)%Q /\ (c.1.2 <= c.2)%Q) calls
  /\ (fps_min_shadow s <= fps_max_shadow s)%Q
  /\ forall a b, getFpsMin s = Some a -> getFpsMax s = Some b -> (0 <= a <= b)%Z.
Proof.
  intros Hrun.
  assert (Hgen : forall times s0 s1 calls,
            ordered s0 -> run times s0 = Some (s1, calls) ->
            ordered s1
            /\ Forall (fun c => (0 < c.1.1)%Q /\ (c.1.1 <= c.1.2)%Q /\ (c.1.2 <= c.2)%Q) calls).
  { clear. induction times as [|now times IH]; intros s0 s1 calls Hord Hrun; simpl in Hrun.
    - injection Hrun as <- <-. split; [done|constructor].
    - destruct (update now s0) as [[s' call]|] eqn:Hup; [|discriminate].
      destruct (run times s') as [[s'' calls']|] eqn:Hrest; [|discriminate].
      injection Hrun as <- <-.
      destruct (update_ordered now s0 s' call Hord Hup) as [Hord' Hcall].
      destruct (IH s' s'' calls' Hord' Hrest) as [Hfinal Hcalls].
      split; [done|]. apply Forall_app. split; [|done].
      destruct call as [c|]; simpl; [|constructor].
      constructor; [apply Hcall; reflexivity|constructor]. }
  destruct (Hgen times _ s calls (create_ordered t0 interval) Hrun)
    as [(_ & _ & Hsmin & Hs) Hcalls].
  split; [done|]. split; [done|].
  intros a b Ha Hb. unfold getFpsMin in Ha. unfold getFpsMax in Hb.
  apply (to_int_mono _ _ _ _ Hsmin Hs Ha Hb).
Qed.

(** Two frames one second apart with a refresh interval of half a second:
    the callback is called twice, with one frame per second. *)
Lemma fps_reports_are_ordered_witness :
  exists s, run [1%Q; 2%Q] (create 0%Q (1 # 2)%Q) = Some (s, [(1%Q, 1%Q, 1%Q); (1%Q, 1%Q, 1%Q)])
    /\ (fps_min_shadow s <= fps_max_shadow s)%Q.
Proof.
  assert (Hrun : run [1%Q; 2%Q] (create 0%Q (1 # 2)%Q)
                 = Some (mk 2 2 (1 # 2) 1 float_max 0 1 1,
                         [(1%Q, 1%Q, 1%Q); (1%Q, 1%Q, 1%Q)]))
    by (vm_compute; reflexivity).
  eexists. split; [exact Hrun|].
  destruct (fps_reports_are_ordered 0%Q (1 # 2)%Q [1%Q; 2%Q] _ _ Hrun) as (_ & Hle & _).
  exact Hle.
Defined.
End FpsFacts.
